(** * text-diff: the diff computation and reconciliation engine

    A shallow embedding of the line aligner, the similarity scorer, the
    modification detector, the inline differ, the JSON diff tree builder
    and the merge reconciler, with the properties stated about them.

    Modelling conventions.
    - A JS string is a [string], a sequence of characters that stand for
      its code units; a missing value ([null] or [undefined]) is [None].
    - A JS array is a [list], read with stdpp's lookup [l !! i], which
      answers [None] where JS answers [undefined]; a [Set] of indices is
      a [gset nat], a [Map] or an object used as a map is a [gmap].
    - Similarity ratios are exact rationals ([Q]); the properties below
      use them only through comparison, [Qmax] and the quotient of two
      lengths.
    - A [while] loop, and the recursion over a JSON value, is a
      recursive function on a fuel argument; the function that owns it
      supplies a fuel that cannot be exhausted, which is proved among
      the properties of each loop.

    The first part holds the embedding, one module per component; the
    second part holds the properties: those of each component first,
    then those of the tables, of the whole comparison and its merge, of
    the renderer's readings of a tree, and of the groups of changed
    lines. *)

From Stdlib Require Import QArith Qminmax.
From Stdlib Require Import Ascii String.
From stdpp Require Import gmap strings list sorting pretty.

Local Open Scope string_scope.
Local Open Scope list_scope.
Local Open Scope nat_scope.

(** ** Diff entries *)

Inductive kind := unchanged | added | removed | modified.

#[global] Instance kind_eq_dec : EqDecision kind.
Proof. solve_decision. Defined.

(** [similarity] is absent on every entry but the modified ones. *)
Record DiffEntry := mkEntry {
  type : kind;
  leftLine : option nat;
  rightLine : option nat;
  leftContent : option string;
  rightContent : option string;
  similarity : option Q
}.

(** The shape of an entry: which of its two line numbers are present. *)
Definition well_shaped (e : DiffEntry) : Prop :=
  match type e with
  | unchanged | modified => is_Some (leftLine e) /\ is_Some (rightLine e)
  | added => leftLine e = None /\ is_Some (rightLine e)
  | removed => is_Some (leftLine e) /\ rightLine e = None
  end.

(** ** Sequence aligner *)

Module Aligner.

(** [dp[i][j]], zero off the table (the loops below never read there). *)
Definition get2 (dp : list (list nat)) (i j : nat) : nat :=
  default 0 (dp !! i ≫= (.!! j)).

(** [dp[i][j] = v] *)
Definition set2 (dp : list (list nat)) (i j v : nat) : list (list nat) :=
  alter (<[j := v]>) i dp.

Definition computeLCS (a b : list string) : list (list nat) :=
  let m := length a in
  let n := length b in
  let dp := replicate (m + 1) (replicate (n + 1) 0) in
  foldl (fun dp i =>
    foldl (fun dp j =>
      if bool_decide (a !! (i - 1) = b !! (j - 1))
      then set2 dp i j (get2 dp (i - 1) (j - 1) + 1)
      else set2 dp i j (Nat.max (get2 dp (i - 1) j) (get2 dp i (j - 1))))
    dp (seq 1 n))
  dp (seq 1 m).

Definition unchangedEntry (a b : list string) (i j : nat) : DiffEntry :=
  mkEntry unchanged (Some i) (Some j) (a !! (i - 1)) (b !! (j - 1)) None.

Definition addedEntry (b : list string) (j : nat) : DiffEntry :=
  mkEntry added None (Some j) None (b !! (j - 1)) None.

Definition removedEntry (a : list string) (i : nat) : DiffEntry :=
  mkEntry removed (Some i) None (a !! (i - 1)) None None.

(** The loop of [backtrackDiff]; [diff.unshift(e)] is [e :: diff]. *)
Fixpoint backtrack_loop (fuel : nat) (dp : list (list nat))
    (a b : list string) (i j : nat) (diff : list DiffEntry) : list DiffEntry :=
  match fuel with
  | 0 => diff
  | S fuel' =>
    if (0 <? i) || (0 <? j) then
      if (0 <? i) && (0 <? j) && bool_decide (a !! (i - 1) = b !! (j - 1)) then
        backtrack_loop fuel' dp a b (i - 1) (j - 1) (unchangedEntry a b i j :: diff)
      else if (0 <? j) && ((i =? 0) || (get2 dp (i - 1) j <=? get2 dp i (j - 1))) then
        backtrack_loop fuel' dp a b i (j - 1) (addedEntry b j :: diff)
      else
        backtrack_loop fuel' dp a b (i - 1) j (removedEntry a i :: diff)
    else diff
  end.

Definition backtrackDiff (dp : list (list nat)) (a b : list string) : list DiffEntry :=
  backtrack_loop (length a + length b) dp a b (length a) (length b) [].

(** The two sides of an alignment, read off in output order. *)
Definition rightSide (diff : list DiffEntry) : list (option string) :=
  rightContent <$> filter (fun e => type e = unchanged ∨ type e = added) diff.

Definition leftSide (diff : list DiffEntry) : list (option string) :=
  leftContent <$> filter (fun e => type e = unchanged ∨ type e = removed) diff.

End Aligner.

(** ** Similarity scorer *)

Module Similarity.

(** [row[j] = v] on a JS array: overwrite in range, append at the end.
    The loops below never write past the end, so no hole appears. *)
Definition aset (row : list nat) (j v : nat) : list nat :=
  if j <? length row then <[j := v]> row
  else row ++ replicate (j - length row) 0 ++ [v].

Definition mget (matrix : list (list nat)) (i j : nat) : nat :=
  default 0 (matrix !! i ≫= (.!! j)).

Definition mset (matrix : list (list nat)) (i j v : nat) : list (list nat) :=
  alter (fun row => aset row j v) i matrix.

Definition min3 (x y z : nat) : nat := Nat.min x (Nat.min y z).

(** The body of the inner loop of [levenshteinDistance]. *)
Definition lev_cell (a b : string) (matrix : list (list nat)) (i j : nat)
    : list (list nat) :=
  if bool_decide (String.get (i - 1) b = String.get (j - 1) a)
  then mset matrix i j (mget matrix (i - 1) (j - 1))
  else mset matrix i j
         (min3 (mget matrix (i - 1) (j - 1) + 1)
               (mget matrix i (j - 1) + 1)
               (mget matrix (i - 1) j + 1)).

Definition lev_row (a b : string) (matrix : list (list nat)) (i : nat)
    : list (list nat) :=
  foldl (fun m j => lev_cell a b m i j) matrix (seq 1 (String.length a)).

Definition lev_init (a b : string) : list (list nat) :=
  let matrix := (fun i => [i]) <$> seq 0 (String.length b + 1) in
  foldl (fun m j => mset m 0 j j) matrix (seq 0 (String.length a + 1)).

Definition levenshteinDistance (a b : string) : nat :=
  if String.length a =? 0 then String.length b
  else if String.length b =? 0 then String.length a
  else
    let matrix := foldl (lev_row a b) (lev_init a b) (seq 1 (String.length b)) in
    mget matrix (String.length b) (String.length a).

Definition Qnat (n : nat) : Q := inject_Z (Z.of_nat n).

(** [!s] on a string: true exactly on the empty string. *)
Definition falsy (s : string) : bool := String.length s =? 0.

Definition similarityRatio (a b : string) : Q :=
  if falsy a && falsy b then 1%Q
  else if falsy a || falsy b then 0%Q
  else
    let maxLen := Nat.max (String.length a) (String.length b) in
    if maxLen =? 0 then 1%Q
    else (1 - Qnat (levenshteinDistance a b) / Qnat maxLen)%Q.

(** *** Line similarity with the CSS heuristics *)

(** [\s] of a JS regular expression, and the characters [trim] strips,
    on the characters a [string] holds: tab, line feed, vertical tab,
    form feed, carriage return, space and no-break space. *)
Definition isSpace (c : ascii) : bool :=
  let n := nat_of_ascii c in
  ((9 <=? n) && (n <=? 13)) || (n =? 32) || (n =? 160).

Fixpoint takeWhile (p : ascii -> bool) (s : string) : string :=
  match s with
  | EmptyString => EmptyString
  | String c s' => if p c then String c (takeWhile p s') else EmptyString
  end.

Fixpoint dropWhile (p : ascii -> bool) (s : string) : string :=
  match s with
  | EmptyString => EmptyString
  | String c s' => if p c then dropWhile p s' else s
  end.

Fixpoint trimEnd (s : string) : string :=
  match s with
  | EmptyString => EmptyString
  | String c s' =>
    let t := trimEnd s' in
    if isSpace c && falsy t then EmptyString else String c t
  end.

Definition trim (s : string) : string := trimEnd (dropWhile isSpace s).

(** [s.replace(/\s+/g, ' ')]; [inRun] tells that the previous character
    was white space, already replaced. *)
Fixpoint collapse (inRun : bool) (s : string) : string :=
  match s with
  | EmptyString => EmptyString
  | String c s' =>
    if isSpace c
    then (if inRun then collapse true s' else String " " (collapse true s'))
    else String c (collapse false s')
  end.

Definition normalize (s : string) : string := collapse false (trim s).

Definition isLetter (c : ascii) : bool :=
  let n := nat_of_ascii c in
  ((65 <=? n) && (n <=? 90)) || ((97 <=? n) && (n <=? 122)).

(** The class [[a-z-]] under the [i] flag. *)
Definition isPropChar (c : ascii) : bool :=
  isLetter c || (nat_of_ascii c =? 45).

Definition lowerChar (c : ascii) : ascii :=
  let n := nat_of_ascii c in
  if (65 <=? n) && (n <=? 90) then ascii_of_nat (n + 32) else c.

Fixpoint toLowerCase (s : string) : string :=
  match s with
  | EmptyString => EmptyString
  | String c s' => String (lowerChar c) (toLowerCase s')
  end.

(** Group 1 of [s.match(/^\s*([a-z-]+)\s*:/i)]. White space, the name
    class and the colon are pairwise disjoint, so the greedy reading is
    the only one. *)
Definition matchProp (s : string) : option string :=
  let s1 := dropWhile isSpace s in
  let name := takeWhile isPropChar s1 in
  if falsy name then None
  else match dropWhile isSpace (dropWhile isPropChar s1) with
       | String ":" _ => Some name
       | _ => None
       end.

Definition notBrace (c : ascii) : bool := negb (nat_of_ascii c =? 123).

(** Group 1 of [s.match(/^([^{]+)\s*\{/)]: what precedes the first
    opening brace, when it is not empty. *)
Definition matchSelector (s : string) : option string :=
  let pre := takeWhile notBrace s in
  if falsy pre then None
  else match dropWhile notBrace s with
       | String "{" _ => Some pre
       | _ => None
       end.

(** Truthiness of an optional string: present and not empty. *)
Definition truthy (s : option string) : bool :=
  match s with
  | Some x => negb (falsy x)
  | None => false
  end.

Definition Qltb (x y : Q) : bool :=
  match (x ?= y)%Q with Lt => true | _ => false end.

Definition defaultThreshold : Q := 0.4%Q.

(** The result of [areSimilar]: [{ similar, ratio }]. *)
Record Similar := mkSimilar { similar : bool; ratio : Q }.

Definition areSimilar (a b : option string) (threshold : Q) : Similar :=
  if negb (truthy a) || negb (truthy b) then mkSimilar false 0 else
  let normA := normalize (default "" a) in
  let normB := normalize (default "" b) in
  if String.eqb normA normB then mkSimilar true 1 else
  if falsy normA || falsy normB then mkSimilar false 0 else
  let ratio0 := similarityRatio normA normB in
  let propA := toLowerCase <$> matchProp normA in
  let propB := toLowerCase <$> matchProp normB in
  let ratio1 :=
    if truthy propA && truthy propB && bool_decide (propA = propB)
    then Qmax ratio0 0.6 else ratio0 in
  let selectorA := trim <$> matchSelector normA in
  let selectorB := trim <$> matchSelector normB in
  let ratio2 :=
    if truthy selectorA && truthy selectorB then
      let selectorRatio :=
        similarityRatio (default "" selectorA) (default "" selectorB) in
      if Qltb 0.7 selectorRatio then Qmax ratio1 0.65 else ratio1
    else ratio1 in
  if String.eqb normA "}" && String.eqb normB "}" then mkSimilar true 1 else
  let prefixLen := Nat.min 10 (Nat.min (String.length normA) (String.length normB)) in
  let ratio3 :=
    if (3 <? prefixLen) &&
       String.eqb (substring 0 prefixLen normA) (substring 0 prefixLen normB)
    then Qmax ratio2 0.5 else ratio2 in
  mkSimilar (Qle_bool threshold ratio3) ratio3.

End Similarity.

(** ** Modification detector *)

Module Detector.
Import Similarity.

(** One pairing of [findBestMatches]. [mRemoved] and [mAdded] are the
    fields [removed] and [added]: the block entries at the two indices. *)
Record Match := mkMatch {
  removedIdx : nat;
  addedIdx : nat;
  mRemoved : option DiffEntry;
  mAdded : option DiffEntry;
  mRatio : Q
}.

(** [similarities[i][j] = similar ? ratio : 0] *)
Definition similarityMatrix (removedBlock addedBlock : list DiffEntry)
    : list (list Q) :=
  (fun r =>
     (fun a =>
        let s := areSimilar (leftContent r) (rightContent a) defaultThreshold in
        if similar s then ratio s else 0%Q) <$> addedBlock) <$> removedBlock.

Definition sget (similarities : list (list Q)) (i j : nat) : Q :=
  default 0%Q (similarities !! i ≫= (.!! j)).

(** The scan state [bestI, bestJ, bestRatio]. The two indices are set
    together, so [None] stands for their initial value [-1, -1]. *)
Record Best := mkBest { bestIJ : option (nat * nat); bestRatio : Q }.

Definition scan_cell (similarities : list (list Q)) (usedAdded : gset nat)
    (i : nat) (st : Best) (j : nat) : Best :=
  if bool_decide (j ∈ usedAdded) then st
  else if Qltb (bestRatio st) (sget similarities i j)
       then mkBest (Some (i, j)) (sget similarities i j)
       else st.

Definition scan_row (similarities : list (list Q))
    (usedRemoved usedAdded : gset nat) (nAdded : nat) (st : Best) (i : nat) : Best :=
  if bool_decide (i ∈ usedRemoved) then st
  else foldl (scan_cell similarities usedAdded i) st (seq 0 nAdded).

Definition scan (similarities : list (list Q))
    (usedRemoved usedAdded : gset nat) (nRemoved nAdded : nat) : Best :=
  foldl (scan_row similarities usedRemoved usedAdded nAdded)
        (mkBest None 0) (seq 0 nRemoved).

(** The greedy loop of [findBestMatches]; [matches.push(m)] is
    [matches ++ [m]]. *)
Fixpoint match_loop (fuel : nat) (similarities : list (list Q))
    (removedBlock addedBlock : list DiffEntry) (matches : list Match)
    (usedRemoved usedAdded : gset nat) : list Match :=
  match fuel with
  | 0 => matches
  | S fuel' =>
    if (size usedRemoved <? length removedBlock) &&
       (size usedAdded <? length addedBlock) then
      let st := scan similarities usedRemoved usedAdded
                     (length removedBlock) (length addedBlock) in
      if Qltb 0 (bestRatio st) then
        match bestIJ st with
        | Some (bestI, bestJ) =>
          match_loop fuel' similarities removedBlock addedBlock
            (matches ++ [mkMatch bestI bestJ (removedBlock !! bestI)
                                 (addedBlock !! bestJ) (bestRatio st)])
            ({[bestI]} ∪ usedRemoved) ({[bestJ]} ∪ usedAdded)
        | None => matches
        end
      else matches
    else matches
  end.

Definition findBestMatches (removedBlock addedBlock : list DiffEntry) : list Match :=
  if (length removedBlock =? 0) || (length addedBlock =? 0) then []
  else match_loop (length removedBlock)
         (similarityMatrix removedBlock addedBlock)
         removedBlock addedBlock [] ∅ ∅.

Definition removedCopy (e : DiffEntry) : DiffEntry :=
  mkEntry removed (leftLine e) None (leftContent e) None None.

Definition addedCopy (e : DiffEntry) : DiffEntry :=
  mkEntry added None (rightLine e) None (rightContent e) None.

Definition modifiedEntry (m : Match) : DiffEntry :=
  mkEntry modified
    (mRemoved m ≫= leftLine) (mAdded m ≫= rightLine)
    (mRemoved m ≫= leftContent) (mAdded m ≫= rightContent)
    (Some (mRatio m)).

(** [[...matches].sort((a, b) => a.removedIdx - b.removedIdx)], a stable
    sort: each match goes after the matches whose index is not larger. *)
Fixpoint insertMatch (m : Match) (sorted : list Match) : list Match :=
  match sorted with
  | [] => [m]
  | x :: rest =>
    if removedIdx m <? removedIdx x then m :: sorted
    else x :: insertMatch m rest
  end.

Definition sortMatches (matches : list Match) : list Match :=
  foldl (fun sorted m => insertMatch m sorted) [] matches.

(** The entries of [block] whose index is not in [matched], in order. *)
Definition unmatched (copy : DiffEntry -> DiffEntry) (matched : gset nat)
    (block : list DiffEntry) : list DiffEntry :=
  mjoin (imap (fun r e => if bool_decide (r ∈ matched) then [] else [copy e]) block).

(** What one iteration pushes when both blocks are present. *)
Definition pairBlocks (removedBlock addedBlock : list DiffEntry) : list DiffEntry :=
  let matches := findBestMatches removedBlock addedBlock in
  let matchedRemoved : gset nat := list_to_set (removedIdx <$> matches) in
  let matchedAdded : gset nat := list_to_set (addedIdx <$> matches) in
  unmatched removedCopy matchedRemoved removedBlock ++
  (modifiedEntry <$> sortMatches matches) ++
  unmatched addedCopy matchedAdded addedBlock.

Definition isKind (k : kind) (e : DiffEntry) : bool := bool_decide (type e = k).

(** The two inner loops: the longest prefix of entries of one kind, and
    what follows it. *)
Fixpoint collect (k : kind) (rest : list DiffEntry) : list DiffEntry :=
  match rest with
  | e :: rest' => if isKind k e then e :: collect k rest' else []
  | [] => []
  end.

Fixpoint skip (k : kind) (rest : list DiffEntry) : list DiffEntry :=
  match rest with
  | e :: rest' => if isKind k e then skip k rest' else rest
  | [] => []
  end.

(** The outer loop of [detectModifications]; [rest] is [diff] from index
    [i] on. *)
Fixpoint detect_loop (fuel : nat) (rest : list DiffEntry)
    (result : list DiffEntry) : list DiffEntry :=
  match fuel with
  | 0 => result
  | S fuel' =>
    match rest with
    | [] => result
    | first :: tail =>
      let removedBlock := collect removed rest in
      let rest1 := skip removed rest in
      let addedBlock := collect added rest1 in
      let rest2 := skip added rest1 in
      if (0 <? length removedBlock) && (0 <? length addedBlock) then
        detect_loop fuel' rest2 (result ++ pairBlocks removedBlock addedBlock)
      else if 0 <? length removedBlock then
        detect_loop fuel' rest2 (result ++ (removedCopy <$> removedBlock))
      else if 0 <? length addedBlock then
        detect_loop fuel' rest2 (result ++ (addedCopy <$> addedBlock))
      else
        detect_loop fuel' tail (result ++ [first])
    end
  end.

Definition detectModifications (diff : list DiffEntry) : list DiffEntry :=
  detect_loop (length diff) diff [].

(** The diff of [computeDiff], from the two inputs already split into
    lines. *)
Definition computeDiffLines (originalLines modifiedLines : list string)
    : list DiffEntry :=
  let lcsMatrix := Aligner.computeLCS originalLines modifiedLines in
  detectModifications (Aligner.backtrackDiff lcsMatrix originalLines modifiedLines).

End Detector.

(** ** The detector, as the design describes it *)

Module DetectorSpec.
Import Detector.

(** *** The greedy selection

    Among the pairs whose two indices are still free, take one of
    highest similarity, the first such pair in row-major order; stop when
    no free pair has a similarity above 0 (in particular when one side
    has no free index left). *)

Definition free (used : gset nat) (n i : nat) : Prop := i < n /\ i ∉ used.

(** Row-major order on index pairs. *)
Definition before (p q : nat * nat) : Prop :=
  p.1 < q.1 \/ (p.1 = q.1 /\ p.2 < q.2).

Section Greedy.
Variable similarities : list (list Q).
Variables nRemoved nAdded : nat.

Definition remaining (usedRemoved usedAdded : gset nat) (i j : nat) : Prop :=
  free usedRemoved nRemoved i /\ free usedAdded nAdded j.

Inductive greedy_selection :
    gset nat -> gset nat -> list (nat * nat * Q) -> Prop :=
| greedy_stop usedRemoved usedAdded :
    (forall i j, remaining usedRemoved usedAdded i j ->
                 ~ (0 < sget similarities i j)%Q) ->
    greedy_selection usedRemoved usedAdded []
| greedy_pick usedRemoved usedAdded i j picks :
    remaining usedRemoved usedAdded i j ->
    (0 < sget similarities i j)%Q ->
    (forall i' j', remaining usedRemoved usedAdded i' j' ->
       (sget similarities i' j' <= sget similarities i j)%Q) ->
    (forall i' j', remaining usedRemoved usedAdded i' j' ->
       before (i', j') (i, j) ->
       (sget similarities i' j' < sget similarities i j)%Q) ->
    greedy_selection ({[i]} ∪ usedRemoved) ({[j]} ∪ usedAdded) picks ->
    greedy_selection usedRemoved usedAdded
      ((i, j, sget similarities i j) :: picks).

End Greedy.

(** *** The order of a block's output *)

(** The entries of [block] at the positions that are not in [picked],
    in their original order. *)
Definition unpicked (picked : list nat) (block : list DiffEntry) : list DiffEntry :=
  (filter (fun p => p.1 ∉ picked) (imap pair block)).*2.


End DetectorSpec.

(** ** Inline differ *)

Module Inline.
Import Similarity.

Record InlineSegment := mkSegment { text : string; changed : bool }.

Record InlineDiff := mkInlineDiff {
  oldResult : list InlineSegment;
  newResult : list InlineSegment
}.

(** [s.substring(start, end)]: both indices are clamped to the length and
    taken in increasing order. *)
Definition jsSubstring (s : string) (start end_ : nat) : string :=
  let a := Nat.min start (String.length s) in
  let b := Nat.min end_ (String.length s) in
  substring (Nat.min a b) (Nat.max a b - Nat.min a b) s.

(** The loop that grows [prefixLen]. *)
Fixpoint prefix_loop (fuel : nat) (oldStr newStr : string) (minLen prefixLen : nat)
    : nat :=
  match fuel with
  | 0 => prefixLen
  | S fuel' =>
    if (prefixLen <? minLen) &&
       bool_decide (String.get prefixLen oldStr = String.get prefixLen newStr)
    then prefix_loop fuel' oldStr newStr minLen (S prefixLen)
    else prefixLen
  end.

(** The loop that grows [suffixLen]. *)
Fixpoint suffix_loop (fuel : nat) (oldStr newStr : string)
    (minLen prefixLen suffixLen : nat) : nat :=
  match fuel with
  | 0 => suffixLen
  | S fuel' =>
    if (suffixLen <? minLen - prefixLen) &&
       bool_decide (String.get (String.length oldStr - 1 - suffixLen) oldStr =
                    String.get (String.length newStr - 1 - suffixLen) newStr)
    then suffix_loop fuel' oldStr newStr minLen prefixLen (S suffixLen)
    else suffixLen
  end.

(** [if (s) arr.push({ text: s, changed })] *)
Definition pushIf (s : string) (c : bool) (arr : list InlineSegment)
    : list InlineSegment :=
  if negb (falsy s) then arr ++ [mkSegment s c] else arr.

Definition findInlineDiff (oldStr newStr : option string) : InlineDiff :=
  let oldStr := default "" oldStr in
  let newStr := default "" newStr in
  let minLen := Nat.min (String.length oldStr) (String.length newStr) in
  let prefixLen := prefix_loop minLen oldStr newStr minLen 0 in
  let suffixLen := suffix_loop minLen oldStr newStr minLen prefixLen 0 in
  let oldMiddle := jsSubstring oldStr prefixLen (String.length oldStr - suffixLen) in
  let newMiddle := jsSubstring newStr prefixLen (String.length newStr - suffixLen) in
  let prefix := jsSubstring oldStr 0 prefixLen in
  let suffix := jsSubstring oldStr (String.length oldStr - suffixLen)
                            (String.length oldStr) in
  let oldResult := pushIf suffix false (pushIf oldMiddle true (pushIf prefix false [])) in
  let newResult := pushIf suffix false (pushIf newMiddle true (pushIf prefix false [])) in
  if (length oldResult =? 0) && (length newResult =? 0)
  then mkInlineDiff [mkSegment oldStr false] [mkSegment newStr false]
  else mkInlineDiff oldResult newResult.

(** One turn of the [for ... of] loop of [tokenize], on the state
    [(tokens, current, isSpace)]. *)
Definition tokenize_step (st : list string * string * bool) (char : ascii)
    : list string * string * bool :=
  let '(tokens, current, wasSpace) := st in
  let charIsSpace := isSpace char in
  let '(tokens, current) :=
    if negb (falsy current) && negb (Bool.eqb charIsSpace wasSpace)
    then (tokens ++ [current], "")
    else (tokens, current) in
  (tokens, current +:+ String char "", charIsSpace).

Definition tokenize (str : string) : list string :=
  let '(tokens, current, _) :=
    foldl tokenize_step ([], "", false) (list_ascii_of_string str) in
  if negb (falsy current) then tokens ++ [current] else tokens.

(** The backtracking loop of [findInlineDiffWords]. *)
Fixpoint words_loop (fuel : nat) (dp : list (list nat))
    (oldTokens newTokens : list string) (i j : nat)
    (oldResult newResult : list InlineSegment) : InlineDiff :=
  match fuel with
  | 0 => mkInlineDiff oldResult newResult
  | S fuel' =>
    if (0 <? i) || (0 <? j) then
      if (0 <? i) && (0 <? j) &&
         bool_decide (oldTokens !! (i - 1) = newTokens !! (j - 1)) then
        words_loop fuel' dp oldTokens newTokens (i - 1) (j - 1)
          (mkSegment (default "" (oldTokens !! (i - 1))) false :: oldResult)
          (mkSegment (default "" (newTokens !! (j - 1))) false :: newResult)
      else if (0 <? j) &&
              ((i =? 0) || (Aligner.get2 dp (i - 1) j <=? Aligner.get2 dp i (j - 1))) then
        words_loop fuel' dp oldTokens newTokens i (j - 1)
          oldResult
          (mkSegment (default "" (newTokens !! (j - 1))) true :: newResult)
      else
        words_loop fuel' dp oldTokens newTokens (i - 1) j
          (mkSegment (default "" (oldTokens !! (i - 1))) true :: oldResult)
          newResult
    else mkInlineDiff oldResult newResult
  end.

(** One turn of the loop of [merge]: extend the last segment, or push a
    copy of the item. *)
Definition merge_step (merged : list InlineSegment) (item : InlineSegment)
    : list InlineSegment :=
  match last merged with
  | Some l =>
    if Bool.eqb (changed l) (changed item)
    then removelast merged ++ [mkSegment (text l +:+ text item) (changed l)]
    else merged ++ [item]
  | None => merged ++ [item]
  end.

Definition merge (arr : list InlineSegment) : list InlineSegment :=
  foldl merge_step [] arr.

Definition findInlineDiffWords (oldStr newStr : option string) : InlineDiff :=
  let oldStr := default "" oldStr in
  let newStr := default "" newStr in
  let oldTokens := tokenize oldStr in
  let newTokens := tokenize newStr in
  let dp := Aligner.computeLCS oldTokens newTokens in
  let r := words_loop (length oldTokens + length newTokens) dp oldTokens newTokens
             (length oldTokens) (length newTokens) [] [] in
  mkInlineDiff (merge (oldResult r)) (merge (newResult r)).

(** Joining the texts of a side. *)
Definition joinTexts (segments : list InlineSegment) : string :=
  foldr (fun seg acc => text seg +:+ acc) "" segments.

End Inline.

(** ** JSON diff tree builder *)

Module JsonDiff.

(** A JSON-compatible value. An object is its list of fields, read by
    key (the first field of that name); [undefined] is [None] wherever a
    value is optional. *)
#[local] Unset Elimination Schemes.
Inductive json :=
| JNull
| JBool (b : bool)
| JNumber (q : Q)
| JString (s : string)
| JArray (items : list json)
| JObject (fields : list (string * json)).

(** The [key] a parent gives to a child: a field name or an index. *)
Inductive NodeKey := KeyName (key : string) | KeyIndex (index : nat).

(** A node of the diff tree. A field that an object literal of the
    source does not mention is [None] here: [hasChanges] exists only on
    the nodes built by [compareObjects] and [compareArrays], [oldType]
    and [newType] only on a type change, [key] only on a child. *)
Inductive DiffNode := mkNode {
  key : option NodeKey;
  type : kind;
  path : string;
  oldValue : option json;
  newValue : option json;
  oldType : option string;
  newType : option string;
  valueType : string;
  children : option (list DiffNode);
  hasChanges : option bool
}.
#[local] Set Elimination Schemes.

Definition getValueType (value : option json) : string :=
  match value with
  | None => "undefined"
  | Some JNull => "null"
  | Some (JArray _) => "array"
  | Some (JBool _) => "boolean"
  | Some (JNumber _) => "number"
  | Some (JString _) => "string"
  | Some (JObject _) => "object"
  end.

(** [obj[key]], for a key that names no property objects inherit: the
    object's own field of that name, [undefined] when it has none. *)
Fixpoint getField (fields : list (string * json)) (k : string) : option json :=
  match fields with
  | [] => None
  | (k', v) :: rest => if String.eqb k' k then Some v else getField rest k
  end.

(** [Object.keys(obj)], each key once. *)
Definition objectKeys (fields : list (string * json)) : list string :=
  remove_dups (fields.*1).

Fixpoint insertKey (k : string) (sorted : list string) : list string :=
  match sorted with
  | [] => [k]
  | x :: rest => if String.leb k x then k :: sorted else x :: insertKey k rest
  end.

(** [keys.sort()]: the default order of strings, character by character. *)
Definition sortKeys (keys : list string) : list string :=
  foldr insertKey [] keys.

Definition withKey (k : NodeKey) (n : DiffNode) : DiffNode :=
  mkNode (Some k) (type n) (path n) (oldValue n) (newValue n)
         (oldType n) (newType n) (valueType n) (children n) (hasChanges n).

(** [path ? `${path}.${key}` : key] *)
Definition fieldPath (p k : string) : string :=
  if String.length p =? 0 then k else p +:+ "." +:+ k.

(** [`${path}[${i}]`] *)
Definition indexPath (p : string) (i : nat) : string :=
  p +:+ "[" +:+ pretty i +:+ "]".

Definition isContainer (v : json) : bool :=
  match v with JArray _ | JObject _ => true | _ => false end.

(** [buildAddedTree] and [buildRemovedTree] differ in the kind they
    stamp and in the side that holds the value; [side] is [added] or
    [removed]. *)
Definition oneSided (side : kind) (k : option NodeKey) (p : string) (v : json)
    (cs : option (list DiffNode)) : DiffNode :=
  mkNode k side p
         (if bool_decide (side = removed) then Some v else None)
         (if bool_decide (side = removed) then None else Some v)
         None None (getValueType (Some v)) cs None.

Fixpoint buildTree (fuel : nat) (side : kind) (value : json) (p : string)
    : option (list DiffNode) :=
  match fuel with
  | 0 => None
  | S fuel' =>
    match value with
    | JArray items =>
      Some (imap (fun i item =>
                    oneSided side (Some (KeyIndex i)) (indexPath p i) item
                      (buildTree fuel' side item (indexPath p i))) items)
    | JObject fields =>
      Some ((fun k =>
               let v := default JNull (getField fields k) in
               oneSided side (Some (KeyName k)) (fieldPath p k) v
                 (buildTree fuel' side v (fieldPath p k)))
            <$> sortKeys (objectKeys fields))
    | _ => None
    end
  end.

(** [oldVal === newVal] on two primitives of one type. *)
Definition strictEq (v1 v2 : json) : bool :=
  match v1, v2 with
  | JNull, JNull => true
  | JBool b1, JBool b2 => Bool.eqb b1 b2
  | JNumber q1, JNumber q2 => Qeq_bool q1 q2
  | JString s1, JString s2 => String.eqb s1 s2
  | _, _ => false
  end.

(** One turn of the loops of [compareObjects] and [compareArrays], on
    the state [(children, hasChanges)]: a [null] child is skipped. *)
Definition pushChild (st : list DiffNode * bool) (r : NodeKey * option DiffNode)
    : list DiffNode * bool :=
  match r.2 with
  | Some child =>
    (st.1 ++ [withKey r.1 child],
     if bool_decide (type child <> unchanged) then true else st.2)
  | None => st
  end.

Definition collectChildren (results : list (NodeKey * option DiffNode))
    : list DiffNode * bool :=
  foldl pushChild ([], false) results.

Definition compareObjects
    (compare : option json -> option json -> string -> option DiffNode)
    (oldObj newObj : list (string * json)) (p : string) : DiffNode :=
  let allKeys := remove_dups (objectKeys oldObj ++ objectKeys newObj) in
  let sortedKeys := sortKeys allKeys in
  let r :=
    collectChildren
      ((fun k => (KeyName k,
                  compare (getField oldObj k) (getField newObj k) (fieldPath p k)))
       <$> sortedKeys) in
  mkNode None (if r.2 then modified else unchanged) p
         (Some (JObject oldObj)) (Some (JObject newObj)) None None
         "object" (Some r.1) (Some r.2).

Definition compareArrays
    (compare : option json -> option json -> string -> option DiffNode)
    (oldArr newArr : list json) (p : string) : DiffNode :=
  let maxLen := Nat.max (length oldArr) (length newArr) in
  let r :=
    collectChildren
      ((fun i => (KeyIndex i,
                  compare (oldArr !! i) (newArr !! i) (indexPath p i)))
       <$> seq 0 maxLen) in
  mkNode None (if r.2 then modified else unchanged) p
         (Some (JArray oldArr)) (Some (JArray newArr)) None None
         "array" (Some r.1) (Some r.2).

(** Nesting depth, the budget of the recursion. *)
Fixpoint depth (v : json) : nat :=
  match v with
  | JArray items => S (foldr (fun item d => Nat.max (depth item) d) 0 items)
  | JObject fields => S (foldr (fun f d => Nat.max (depth f.2) d) 0 fields)
  | _ => 0
  end.

(** [compareJSON] with a budget for its recursion through
    [compareObjects] and [compareArrays]. *)
Fixpoint compare_fuel (fuel : nat) (oldVal newVal : option json) (p : string)
    : option DiffNode :=
  match fuel with
  | 0 => None
  | S fuel' =>
    let oldT := getValueType oldVal in
    let newT := getValueType newVal in
    match oldVal, newVal with
    | None, None => None
    | None, Some nv =>
      Some (oneSided added None p nv
              (if isContainer nv then buildTree (S (depth nv)) added nv p else None))
    | Some ov, None =>
      Some (oneSided removed None p ov
              (if isContainer ov then buildTree (S (depth ov)) removed ov p else None))
    | Some ov, Some nv =>
      if negb (String.eqb oldT newT) then
        Some (mkNode None modified p oldVal newVal (Some oldT) (Some newT) newT None None)
      else
        match ov, nv with
        | JObject oldObj, JObject newObj =>
          Some (compareObjects (compare_fuel fuel') oldObj newObj p)
        | JArray oldArr, JArray newArr =>
          Some (compareArrays (compare_fuel fuel') oldArr newArr p)
        | _, _ =>
          Some (mkNode None (if strictEq ov nv then unchanged else modified) p
                       oldVal newVal None None oldT None None)
        end
    end
  end.

Definition odepth (v : option json) : nat :=
  match v with Some x => depth x | None => 0 end.

Definition compareJSON (oldVal newVal : option json) (p : string) : option DiffNode :=
  compare_fuel (S (Nat.min (odepth oldVal) (odepth newVal))) oldVal newVal p.

(** All the nodes of a tree, parents first. *)
Fixpoint nodes (n : DiffNode) : list DiffNode :=
  n :: match children n with
       | Some cs => (fix go (l : list DiffNode) : list DiffNode :=
                       match l with
                       | [] => []
                       | c :: l' => nodes c ++ go l'
                       end) cs
       | None => []
       end.

(** The object counted by [countChanges], with its three properties. *)
Definition counts0 : gmap string nat :=
  {[ "added" := 0; "removed" := 0; "modified" := 0 ]}.

(** [counts.name++] *)
Definition increment (name : string) (counts : gmap string nat) : gmap string nat :=
  alter S name counts.

Definition isLeaf (n : DiffNode) : bool :=
  match children n with None => true | Some _ => false end.

(** What [traverse] does at a node before it visits the children. *)
Definition countNode (n : DiffNode) (counts : gmap string nat) : gmap string nat :=
  if bool_decide (type n = added) && isLeaf n then increment "added" counts
  else if bool_decide (type n = removed) && isLeaf n then increment "removed" counts
  else if bool_decide (type n = modified) && isLeaf n then increment "modified" counts
  else counts.

(** The inner function [traverse], threading the object [counts]. *)
Fixpoint traverse (n : DiffNode) (counts : gmap string nat) : gmap string nat :=
  let counts := countNode n counts in
  match children n with
  | Some cs => (fix each (l : list DiffNode) (counts : gmap string nat) :=
                  match l with
                  | [] => counts
                  | c :: l' => each l' (traverse c counts)
                  end) cs counts
  | None => counts
  end.

Definition countChanges (node : option DiffNode) : gmap string nat :=
  match node with
  | Some n => traverse n counts0
  | None => counts0
  end.

(** The name under which a kind is counted. *)
Definition kindName (k : kind) : string :=
  match k with
  | unchanged => "unchanged"
  | added => "added"
  | removed => "removed"
  | modified => "modified"
  end.

(** The leaves of kind [k] among the nodes of a tree. *)
Definition leafCount (k : kind) (t : DiffNode) : nat :=
  length (filter (fun n => type n = k /\ isLeaf n = true) (nodes t)).

End JsonDiff.

(** ** Merge reconciler *)

Module Reconciler.

(** The type of a pane item: a diff kind, or ['empty'] for the side an
    added or removed entry has nothing on. *)
Inductive paneType := empty | of_kind (k : kind).

#[global] Instance paneType_eq_dec : EqDecision paneType.
Proof. solve_decision. Defined.

Record PaneItem := mkPane {
  ptype : paneType;
  content : option string;
  lineNumber : option nat
}.

(** [generateSplitDiff], its [left] and [right] panes (the gutter and
    the display-only fields of a modified item play no part here). *)
Definition splitLeft (item : DiffEntry) : PaneItem :=
  match type item with
  | added => mkPane empty (Some "") None
  | removed => mkPane (of_kind removed) (leftContent item) (leftLine item)
  | modified => mkPane (of_kind modified) (leftContent item) (leftLine item)
  | unchanged => mkPane (of_kind unchanged) (leftContent item) (leftLine item)
  end.

Definition splitRight (item : DiffEntry) : PaneItem :=
  match type item with
  | added => mkPane (of_kind added) (rightContent item) (rightLine item)
  | removed => mkPane empty (Some "") None
  | modified => mkPane (of_kind modified) (rightContent item) (rightLine item)
  | unchanged => mkPane (of_kind unchanged) (rightContent item) (rightLine item)
  end.

(** A group of [diffGroups]: its id and the indices of its lines. *)
Record DiffGroup := mkGroup {
  id : nat;
  groupType : kind;
  lines : list nat
}.

(** The state the merge reads: the current diff, its groups and the
    decisions taken so far. *)
Record MergeState := mkState {
  diffResult : option (list DiffEntry);
  diffGroups : list DiffGroup;
  mergeDecisions : gmap nat string
}.

Fixpoint getGroupIdForLine (groups : list DiffGroup) (lineIndex : nat) : option nat :=
  match groups with
  | [] => None
  | group :: rest =>
    if bool_decide (lineIndex ∈ lines group) then Some (id group)
    else getGroupIdForLine rest lineIndex
  end.

(** [groupId !== null ? mergeDecisions.get(groupId) : null] *)
Definition decisionFor (st : MergeState) (lineIndex : nat) : option string :=
  match getGroupIdForLine (diffGroups st) lineIndex with
  | Some groupId => mergeDecisions st !! groupId
  | None => None
  end.

Definition chose (decision : option string) (value : string) : bool :=
  bool_decide (decision = Some value).

(** What one turn of the loop of [generateMergedCSS] pushes. *)
Definition pushed (leftItem rightItem : PaneItem) (decision : option string)
    : list (option string) :=
  if bool_decide (ptype leftItem = of_kind unchanged) then [content leftItem]
  else if bool_decide (ptype leftItem = of_kind removed) then
    if chose decision "restore" || chose decision "original" || chose decision "both"
    then [content leftItem] else []
  else if bool_decide (ptype leftItem = empty) &&
          bool_decide (ptype rightItem = of_kind added) then
    if chose decision "discard" || chose decision "original"
    then [] else [content rightItem]
  else if bool_decide (ptype leftItem = of_kind modified) then
    if chose decision "original" then [content leftItem]
    else if chose decision "both" then [content leftItem; content rightItem]
    else [content rightItem]
  else [].

(** The pushes of the loop, turn by turn. *)
Definition pushes (st : MergeState) (diff : list DiffEntry) : list (list (option string)) :=
  imap (fun i item => pushed (splitLeft item) (splitRight item) (decisionFor st i)) diff.

(** The array [lines] when the loop ends. *)
Definition mergedLines (st : MergeState) : list (option string) :=
  match diffResult st with
  | None => []
  | Some diff => mjoin (pushes st diff)
  end.

(** [lines.join('\n')]; a missing content joins as the empty string. *)
Fixpoint joinLines (ls : list (option string)) : string :=
  match ls with
  | [] => ""
  | [l] => default "" l
  | l :: rest => default "" l +:+ String (ascii_of_nat 10) (joinLines rest)
  end.

Definition generateMergedCSS (st : MergeState) : string :=
  match diffResult st with
  | None => ""
  | Some _ => joinLines (mergedLines st)
  end.

(** [applyMergeDecision], on the decisions: the same action twice
    clears it. *)
Definition applyMergeDecision (st : MergeState) (groupId : nat) (action : string)
    : MergeState :=
  mkState (diffResult st) (diffGroups st)
    (if bool_decide (mergeDecisions st !! groupId = Some action)
     then delete groupId (mergeDecisions st)
     else <[groupId := action]> (mergeDecisions st)).

(** The default of each kind, as the design states it: keep the new
    side of a modification, keep an addition, accept a removal, keep an
    unchanged line. *)
Definition defaultLines (item : DiffEntry) : list (option string) :=
  match type item with
  | modified => [rightContent item]
  | added => [rightContent item]
  | removed => []
  | unchanged => [leftContent item]
  end.

(** The decisions that bring a removed line back. *)
Definition restores (decision : option string) : Prop :=
  decision = Some "restore" \/ decision = Some "original" \/ decision = Some "both".

#[global] Instance restores_dec decision : Decision (restores decision).
Proof. unfold restores. apply _. Defined.

End Reconciler.

(** ** The recurrences behind the two tables *)

Module Recurrences.
Import Similarity.

(** Edit distance between the first [i] characters of [b] and the first
    [j] characters of [a], by the recurrence of the inner loop of
    [levenshteinDistance]. *)
Fixpoint lev_rec (a b : string) (i : nat) : nat -> nat :=
  match i with
  | 0 => fun j => j
  | S i' =>
    fix row (j : nat) : nat :=
      match j with
      | 0 => S i'
      | S j' =>
        if bool_decide (String.get i' b = String.get j' a)
        then lev_rec a b i' j'
        else min3 (lev_rec a b i' j' + 1) (row j' + 1) (lev_rec a b i' (S j') + 1)
      end
  end.

(** Length of a longest common subsequence of the first [i] lines of [a]
    and the first [j] lines of [b], by the recurrence of the inner loop
    of [computeLCS]. *)
Fixpoint lcs_rec (a b : list string) (i : nat) : nat -> nat :=
  match i with
  | 0 => fun _ => 0
  | S i' =>
    fix row (j : nat) : nat :=
      match j with
      | 0 => 0
      | S j' =>
        if bool_decide (a !! i' = b !! j')
        then lcs_rec a b i' j' + 1
        else Nat.max (lcs_rec a b i' (S j')) (row j')
      end
  end.

End Recurrences.

(** ** The numbered lines of the two sides *)

Module Sides.

(** The lines an alignment shows on the left: line number and content
    of every entry that has a left side. *)
Definition leftLines (diff : list DiffEntry) : list (option nat * option string) :=
  (fun e => (leftLine e, leftContent e)) <$> filter (fun e => type e <> added) diff.

Definition rightLines (diff : list DiffEntry) : list (option nat * option string) :=
  (fun e => (rightLine e, rightContent e)) <$> filter (fun e => type e <> removed) diff.

(** The lines of a text with their 1-based numbers. *)
Definition numbered (ls : list string) : list (option nat * option string) :=
  imap (fun k x => (Some (S k), Some x)) ls.

End Sides.

(** ** The whole comparison *)

Module Pipeline.
Import Aligner Detector.

(** [s.split('\n')]: the pieces between the line feeds; never empty. *)
Fixpoint splitLines (s : string) : list string :=
  match s with
  | EmptyString => [""]
  | String c s' =>
    if Ascii.eqb c (ascii_of_nat 10) then "" :: splitLines s'
    else match splitLines s' with
         | line :: rest => String c line :: rest
         | [] => [String c ""]
         end
  end.

(** The [stats] of a result; the first four fields are [added],
    [removed], [modified] and [unchanged]. *)
Record Stats := mkStats {
  stats_added : nat;
  stats_removed : nat;
  stats_modified : nat;
  stats_unchanged : nat;
  totalOriginal : nat;
  totalModified : nat
}.

Record DiffResult := mkResult { diff : list DiffEntry; stats : Stats }.

(** [diff.filter(d => d.type === k).length] *)
Definition countType (k : kind) (entries : list DiffEntry) : nat :=
  length (filter (fun d => type d = k) entries).

Definition computeDiff (original modifiedText : string) : DiffResult :=
  let originalLines := splitLines original in
  let modifiedLines := splitLines modifiedText in
  let lcsMatrix := computeLCS originalLines modifiedLines in
  let raw := backtrackDiff lcsMatrix originalLines modifiedLines in
  let entries := detectModifications raw in
  mkResult entries
    (mkStats (countType added entries) (countType removed entries)
             (countType modified entries) (countType unchanged entries)
             (length originalLines) (length modifiedLines)).

End Pipeline.

(** ** Runs of characters and of segments *)

Module InlineSpec.
Import Similarity Inline.

(** A non-empty string made of whitespace only ([b = true]) or of
    characters other than whitespace only ([b = false]). *)
Definition run_of (b : bool) (t : string) : Prop :=
  t <> "" /\ Forall (fun c => isSpace c = b) (list_ascii_of_string t).

(** Neighbours in a list of tokens are runs of different kinds. *)
Definition runs_alternate (tokens : list string) : Prop :=
  forall i t u, tokens !! i = Some t -> tokens !! (S i) = Some u ->
    exists b, run_of b t /\ run_of (negb b) u.

(** Neighbours in a list of segments differ in their [changed] flag. *)
Definition flags_alternate (segments : list InlineSegment) : Prop :=
  forall i x y, segments !! i = Some x -> segments !! (S i) = Some y ->
    changed x <> changed y.

End InlineSpec.

(** ** The renderer's readings of a diff tree *)

Module JsonRenderer.
Import JsonDiff.

(** [hasChangesInChildren]; [children.some(f)] is the disjunction of [f]
    over the children. *)
Fixpoint hasChangesInChildren (node : DiffNode) : bool :=
  match children node with
  | None => false
  | Some cs =>
    (fix some (l : list DiffNode) : bool :=
       match l with
       | [] => false
       | child :: l' =>
         (bool_decide (type child <> unchanged) || hasChangesInChildren child) || some l'
       end) cs
  end.

(** The object counted by [getDiffStats], with its four properties. *)
Definition stats0 : gmap string nat :=
  {[ "added" := 0; "removed" := 0; "modified" := 0; "unchanged" := 0 ]}.

(** [!node.children || node.children.length === 0] *)
Definition childless (node : DiffNode) : bool :=
  match children node with
  | None => true
  | Some cs => length cs =? 0
  end.

(** What [traverse] of [getDiffStats] does at a node before it visits
    the children. *)
Definition statNode (node : DiffNode) (stats : gmap string nat) : gmap string nat :=
  if childless node then
    if bool_decide (type node = added) then increment "added" stats
    else if bool_decide (type node = removed) then increment "removed" stats
    else if bool_decide (type node = modified) then increment "modified" stats
    else increment "unchanged" stats
  else stats.

Fixpoint traverse_stats (node : DiffNode) (stats : gmap string nat) : gmap string nat :=
  let stats := statNode node stats in
  match children node with
  | Some cs => (fix each (l : list DiffNode) (stats : gmap string nat) :=
                  match l with
                  | [] => stats
                  | c :: l' => each l' (traverse_stats c stats)
                  end) cs stats
  | None => stats
  end.

Definition getDiffStats (diffTree : option DiffNode) : gmap string nat :=
  match diffTree with
  | Some n => traverse_stats n stats0
  | None => stats0
  end.

End JsonRenderer.

(** ** Equality of JSON values *)

Module JsonSpec.
Import JsonDiff.

(** Two values are the same JSON: equal primitives, arrays that agree
    item by item, objects with the same keys and the same value under
    each key, whatever the order of their fields. *)
#[local] Unset Elimination Schemes.
Inductive same_value : json -> json -> Prop :=
| same_null : same_value JNull JNull
| same_bool b : same_value (JBool b) (JBool b)
| same_number q1 q2 : (q1 == q2)%Q -> same_value (JNumber q1) (JNumber q2)
| same_string s : same_value (JString s) (JString s)
| same_array xs ys : Forall2 same_value xs ys -> same_value (JArray xs) (JArray ys)
| same_object fs gs :
    (forall k, k ∈ fs.*1 <-> k ∈ gs.*1) ->
    (forall k v w, getField fs k = Some v -> getField gs k = Some w -> same_value v w) ->
    same_value (JObject fs) (JObject gs).
#[local] Set Elimination Schemes.

(** The names an object inherits from [Object.prototype]. Under one of
    them [obj[key]] answers the inherited property when the object has
    no field of that name; under any other key it answers the object's
    own field or [undefined], which is what [getField] reads. *)
Definition inheritedNames : list string :=
  ["__proto__"; "constructor"; "hasOwnProperty"; "isPrototypeOf";
   "propertyIsEnumerable"; "toLocaleString"; "toString"; "valueOf";
   "__defineGetter__"; "__defineSetter__"; "__lookupGetter__"; "__lookupSetter__"].

(** No key of the value, at any depth, is an inherited name. *)
Fixpoint plainKeys (v : json) : bool :=
  match v with
  | JArray items => forallb plainKeys items
  | JObject fields =>
    forallb (fun f => negb (existsb (String.eqb f.1) inheritedNames) && plainKeys f.2)
            fields
  | _ => true
  end.

(** Every node of a one-sided tree is of the kind [side] and holds its
    value on that side only. *)
Definition one_sided (side : kind) (m : DiffNode) : Prop :=
  type m = side /\ hasChanges m = None /\
  if bool_decide (side = removed)
  then is_Some (oldValue m) /\ newValue m = None
  else oldValue m = None /\ is_Some (newValue m).

(** The node has a list of children, and the list is empty. *)
Definition emptyChildren (m : DiffNode) : bool :=
  match children m with
  | Some [] => true
  | _ => false
  end.

End JsonSpec.

(** ** Groups of changed lines *)

Module Grouping.
Import Reconciler.

(** [line.classList.contains(k)] for a line of the split view:
    [renderSplitView] gives the line of a pane item the classes
    [diff-line] and the item's type, and the classes added later
    ([merge-clickable], [merge-resolved], [current-diff], ...) are none
    of the kinds. *)
Definition hasClass (line : PaneItem) (k : kind) : bool :=
  bool_decide (ptype line = of_kind k).

(** [isDiff && diffType ? diffType : null] for the line at one index;
    [rightLine] is [rightLines[index]]. *)
Definition lineDiffType (line : PaneItem) (rightLine : option PaneItem) : option kind :=
  let rightHas k := match rightLine with Some r => hasClass r k | None => false end in
  let leftIsDiff := hasClass line removed || hasClass line modified in
  let rightIsDiff := rightHas added || rightHas modified in
  let isDiff := leftIsDiff || rightIsDiff in
  let diffType :=
    if hasClass line removed then Some removed
    else if hasClass line modified then Some modified
    else if rightHas added then Some added
    else None in
  if isDiff then diffType else None.

(** The state of the loop: [diffGroups], [currentGroup], [groupId]. *)
Record GroupState := mkGroupState {
  groupsDone : list DiffGroup;
  currentGroup : option DiffGroup;
  groupId : nat
}.

(** One turn of [lines.forEach((line, index) => ...)]. Of a group the
    fields [id], [type] and [lines] are kept; [startIndex], [endIndex]
    and [diffIndices] repeat what [lines] holds. *)
Definition group_step (rightLines : list PaneItem) (st : GroupState)
    (l : nat * PaneItem) : GroupState :=
  let index := l.1 in
  match lineDiffType l.2 (rightLines !! index) with
  | Some diffType =>
    match currentGroup st with
    | None =>
      mkGroupState (groupsDone st) (Some (mkGroup (groupId st) diffType [index]))
                   (S (groupId st))
    | Some g =>
      if bool_decide (groupType g = diffType) then
        mkGroupState (groupsDone st)
                     (Some (mkGroup (id g) (groupType g) (lines g ++ [index])))
                     (groupId st)
      else
        mkGroupState (groupsDone st ++ [g])
                     (Some (mkGroup (groupId st) diffType [index]))
                     (S (groupId st))
    end
  | None =>
    match currentGroup st with
    | Some g => mkGroupState (groupsDone st ++ [g]) None (groupId st)
    | None => st
    end
  end.

(** [buildDiffGroups] in the split view, from the lines of the two
    panes; the last group is pushed when the loop ends. *)
Definition buildDiffGroups (paneLines rightLines : list PaneItem) : list DiffGroup :=
  let st := foldl (group_step rightLines) (mkGroupState [] None 0)
                  (imap pair paneLines) in
  groupsDone st ++ option_list (currentGroup st).

(** The groups of a diff shown in the split view. *)
Definition splitViewGroups (diff : list DiffEntry) : list DiffGroup :=
  buildDiffGroups (splitLeft <$> diff) (splitRight <$> diff).

(** *** What the groups should be *)

(** The entry at index [i] is a change. *)
Definition changedAt (diff : list DiffEntry) (i : nat) : bool :=
  match diff !! i with
  | Some e => bool_decide (type e <> unchanged)
  | None => false
  end.

(** The lines of [g] are consecutive indices of entries of the type of
    the group. *)
Definition is_run (diff : list DiffEntry) (g : DiffGroup) : Prop :=
  exists start len, 0 < len /\ lines g = seq start len /\
    groupType g <> unchanged /\
    forall i, start <= i < start + len -> type <$> diff !! i = Some (groupType g).

(** [g2] does not continue [g1]: it starts later than the line after
    the last of [g1], or it is of another type. *)
Definition not_continued (g1 g2 : DiffGroup) : Prop :=
  forall e s, last (lines g1) = Some e -> head (lines g2) = Some s ->
    S e = s -> groupType g1 <> groupType g2.

End Grouping.

(** ** Escaping for HTML *)

Module Escaping.

(** [s.replace(/c/g, by)] for a single character [c]. *)
Fixpoint replaceAll (c : ascii) (by_ : string) (s : string) : string :=
  match s with
  | EmptyString => EmptyString
  | String x s' =>
    if Ascii.eqb x c then by_ +:+ replaceAll c by_ s'
    else String x (replaceAll c by_ s')
  end.

(** The double quote. *)
Definition dquote : ascii := ascii_of_nat 34.

Definition escapeHtml (str : string) : string :=
  replaceAll "'" "&#039;"
    (replaceAll dquote "&quot;"
       (replaceAll ">" "&gt;"
          (replaceAll "<" "&lt;"
             (replaceAll "&" "&amp;" str)))).

(** What one character should become. *)
Definition escapeChar (c : ascii) : string :=
  if Ascii.eqb c "&" then "&amp;"
  else if Ascii.eqb c "<" then "&lt;"
  else if Ascii.eqb c ">" then "&gt;"
  else if Ascii.eqb c dquote then "&quot;"
  else if Ascii.eqb c "'" then "&#039;"
  else String c "".

(** A string escaped character by character, each one once. *)
Fixpoint escapeEach (str : string) : string :=
  match str with
  | EmptyString => EmptyString
  | String c str' => escapeChar c +:+ escapeEach str'
  end.

End Escaping.

(** * Properties *)

(** ** Properties of the aligner *)

Module AlignerFacts.
Import Aligner.

(** Every iteration lowers [i + j], so a fuel of [i + j] is never
    exhausted: more fuel changes nothing. *)
Lemma backtrack_loop_fuel dp a b fuel1 : forall fuel2 i j diff,
  i + j <= fuel1 -> i + j <= fuel2 ->
  backtrack_loop fuel1 dp a b i j diff = backtrack_loop fuel2 dp a b i j diff.
Proof.
  induction fuel1 as [|fuel1 IH]; intros fuel2 i j diff Hle1 Hle2.
  - assert (i = 0) by lia. assert (j = 0) by lia. subst. by destruct fuel2.
  - destruct fuel2 as [|fuel2].
    { assert (i = 0) by lia. assert (j = 0) by lia. subst. reflexivity. }
    cbn [backtrack_loop].
    destruct ((0 <? i) || (0 <? j)) eqn:Hc; [|reflexivity].
    destruct ((0 <? i) && (0 <? j) && bool_decide (a !! (i - 1) = b !! (j - 1))) eqn:H1.
    { apply andb_true_iff in H1 as [H1 _]. apply andb_true_iff in H1 as [Hi Hj].
      apply Nat.ltb_lt in Hi, Hj. apply IH; lia. }
    destruct ((0 <? j) && ((i =? 0) || (get2 dp (i - 1) j <=? get2 dp i (j - 1)))) eqn:H2.
    { apply andb_true_iff in H2 as [Hj _]. apply Nat.ltb_lt in Hj. apply IH; lia. }
    assert (0 < i) as Hi.
    { apply orb_true_iff in Hc as [Hc|Hc]; apply Nat.ltb_lt in Hc; [done|].
      apply andb_false_iff in H2 as [H2|H2].
      - apply Nat.ltb_ge in H2. lia.
      - apply orb_false_iff in H2 as [H2 _]. apply Nat.eqb_neq in H2. lia. }
    apply IH; lia.
Qed.

Lemma rightSide_cons e diff :
  rightSide (e :: diff) =
  (if bool_decide (type e = unchanged ∨ type e = added)
   then [rightContent e] else []) ++ rightSide diff.
Proof.
  unfold rightSide. rewrite filter_cons.
  case_bool_decide; case_decide; try done.
Qed.

Lemma leftSide_cons e diff :
  leftSide (e :: diff) =
  (if bool_decide (type e = unchanged ∨ type e = removed)
   then [leftContent e] else []) ++ leftSide diff.
Proof.
  unfold leftSide. rewrite filter_cons.
  case_bool_decide; case_decide; try done.
Qed.

Lemma take_pred_snoc {A} (l : list A) (k : nat) :
  0 < k -> k <= length l ->
  exists x, l !! (k - 1) = Some x /\ take k l = take (k - 1) l ++ [x].
Proof.
  intros Hk Hl.
  destruct (lookup_lt_is_Some_2 l (k - 1)) as [x Hx]; [lia|].
  exists x. split; [done|].
  replace k with (S (k - 1)) at 1 by lia.
  by apply take_S_r.
Qed.

(** Loop invariant of the backtracking: what is still to be emitted is
    the first [i] lines of [a] and the first [j] lines of [b]. *)
Lemma backtrack_loop_sides dp a b fuel : forall i j diff,
  i + j <= fuel -> i <= length a -> j <= length b ->
  rightSide (backtrack_loop fuel dp a b i j diff) = (Some <$> take j b) ++ rightSide diff /\
  leftSide (backtrack_loop fuel dp a b i j diff) = (Some <$> take i a) ++ leftSide diff.
Proof.
  induction fuel as [|fuel IH]; intros i j diff Hle Hi Hj.
  - assert (i = 0) by lia. assert (j = 0) by lia. subst.
    by rewrite !take_0.
  - cbn [backtrack_loop].
    destruct ((0 <? i) || (0 <? j)) eqn:Hc.
    2:{ apply orb_false_iff in Hc as [Hc1 Hc2].
        apply Nat.ltb_ge in Hc1, Hc2.
        assert (i = 0) by lia. assert (j = 0) by lia. subst.
        by rewrite !take_0. }
    destruct ((0 <? i) && (0 <? j) && bool_decide (a !! (i - 1) = b !! (j - 1))) eqn:H1.
    { apply andb_true_iff in H1 as [H1 _]. apply andb_true_iff in H1 as [Hi0 Hj0].
      apply Nat.ltb_lt in Hi0, Hj0.
      destruct (take_pred_snoc a i Hi0 Hi) as (x & Hx & Hxa).
      destruct (take_pred_snoc b j Hj0 Hj) as (y & Hy & Hyb).
      destruct (IH (i - 1) (j - 1) (unchangedEntry a b i j :: diff)) as [IHr IHl]; [lia..|].
      rewrite IHr, IHl, rightSide_cons, leftSide_cons. cbn.
      rewrite Hxa, Hyb, Hx, Hy, !fmap_app, <- !app_assoc. done. }
    destruct ((0 <? j) && ((i =? 0) || (get2 dp (i - 1) j <=? get2 dp i (j - 1)))) eqn:H2.
    { apply andb_true_iff in H2 as [Hj0 _]. apply Nat.ltb_lt in Hj0.
      destruct (take_pred_snoc b j Hj0 Hj) as (y & Hy & Hyb).
      destruct (IH i (j - 1) (addedEntry b j :: diff)) as [IHr IHl]; [lia..|].
      rewrite IHr, IHl, rightSide_cons, leftSide_cons. cbn.
      rewrite Hyb, Hy, !fmap_app, <- !app_assoc. done. }
    assert (0 < i) as Hi0.
    { apply orb_true_iff in Hc as [Hc|Hc]; apply Nat.ltb_lt in Hc; [done|].
      apply andb_false_iff in H2 as [H2|H2].
      - apply Nat.ltb_ge in H2. lia.
      - apply orb_false_iff in H2 as [H2 _]. apply Nat.eqb_neq in H2. lia. }
    destruct (take_pred_snoc a i Hi0 Hi) as (x & Hx & Hxa).
    destruct (IH (i - 1) j (removedEntry a i :: diff)) as [IHr IHl]; [lia..|].
    rewrite IHr, IHl, rightSide_cons, leftSide_cons. cbn.
    rewrite Hxa, Hx, !fmap_app, <- !app_assoc. done.
Qed.

Lemma backtrack_loop_shape dp a b fuel : forall i j diff,
  Forall well_shaped diff ->
  Forall well_shaped (backtrack_loop fuel dp a b i j diff).
Proof.
  induction fuel as [|fuel IH]; intros i j diff Hdiff; cbn [backtrack_loop]; [done|].
  repeat match goal with |- context [if ?c then _ else _] => destruct c end;
    try done; apply IH; constructor; try done; by split.
Qed.

Lemma backtrackDiff_shape dp a b : Forall well_shaped (backtrackDiff dp a b).
Proof. apply backtrack_loop_shape. constructor. Qed.

(** C1. For all line sequences [a] and [b], the raw alignment obtained by
    backtracking the LCS table round-trips: the right contents of its
    unchanged and added entries, in output order, are exactly [b], and
    the left contents of its unchanged and removed entries are exactly
    [a]. *)
Theorem backtrackDiff_round_trip (a b : list string) :
  rightSide (backtrackDiff (computeLCS a b) a b) = Some <$> b /\
  leftSide (backtrackDiff (computeLCS a b) a b) = Some <$> a.
Proof.
  unfold backtrackDiff.
  destruct (backtrack_loop_sides (computeLCS a b) a b
              (length a + length b) (length a) (length b) []) as [Hr Hl]; [lia..|].
  rewrite Hr, Hl, !firstn_all. cbn. by rewrite !app_nil_r.
Qed.

End AlignerFacts.

(** ** Properties of the similarity scorer *)

Module SimilarityFacts.
Import Similarity.

Lemma foldl_seq_inv {A} (P : nat -> A -> Prop) (f : A -> nat -> A) len :
  forall start x,
  P start x ->
  (forall k y, start <= k < start + len -> P k y -> P (S k) (f y k)) ->
  P (start + len) (foldl f x (seq start len)).
Proof.
  induction len as [|len IH]; intros start x Hx Hstep; cbn.
  - by rewrite Nat.add_0_r.
  - replace (start + S len) with (S start + len) by lia.
    apply IH.
    + apply Hstep; [lia|done].
    + intros k y Hk. apply Hstep. lia.
Qed.

Lemma mset_length matrix i j v : length (mset matrix i j v) = length matrix.
Proof. unfold mset. by rewrite length_alter. Qed.

Lemma mset_lookup_ne matrix i k j v :
  k <> i -> mset matrix i j v !! k = matrix !! k.
Proof. intros. unfold mset. rewrite list_lookup_alter_ne; [done|congruence]. Qed.

Lemma mset_lookup_eq matrix i j v row :
  matrix !! i = Some row -> mset matrix i j v !! i = Some (aset row j v).
Proof. intros H. unfold mset. by rewrite list_lookup_alter_eq, H. Qed.

Lemma mget_Some matrix i j row v :
  matrix !! i = Some row -> row !! j = Some v -> mget matrix i j = v.
Proof. intros H1 H2. unfold mget. by rewrite H1; cbn; rewrite H2. Qed.

Lemma aset_end row v : aset row (length row) v = row ++ [v].
Proof.
  unfold aset. rewrite Nat.ltb_irrefl, Nat.sub_diag. done.
Qed.

Section Diagonal.
Variable s : string.
Let n := String.length s.

(** Rows [0..i] are complete with a zero on the diagonal; the rows below
    are still the one-element rows of the initialisation. *)
Definition rows_done (i : nat) (matrix : list (list nat)) : Prop :=
  length matrix = n + 1 /\
  (forall k, k <= i -> exists row,
     matrix !! k = Some row /\ length row = n + 1 /\ row !! k = Some 0) /\
  (forall k, i < k <= n -> exists row, matrix !! k = Some row /\ length row = 1).

(** Inside row [i], after the cells [1..j]. *)
Definition cells_done (i j : nat) (matrix : list (list nat)) : Prop :=
  length matrix = n + 1 /\
  (forall k, k < i -> exists row,
     matrix !! k = Some row /\ length row = n + 1 /\ row !! k = Some 0) /\
  (exists row, matrix !! i = Some row /\ length row = j + 1 /\
     (i <= j -> row !! i = Some 0)) /\
  (forall k, i < k <= n -> exists row, matrix !! k = Some row /\ length row = 1).

Lemma lev_init_rows_done : rows_done 0 (lev_init s s).
Proof.
  unfold lev_init. fold n.
  pose (I := fun (j : nat) (m : list (list nat)) =>
    length m = n + 1 /\
    (exists row, m !! 0 = Some row /\ length row = Nat.max 1 j /\ row !! 0 = Some 0) /\
    (forall k, 0 < k <= n -> exists row, m !! k = Some row /\ length row = 1)).
  assert (I (0 + (n + 1)) (foldl (fun m j => mset m 0 j j)
            ((fun i => [i]) <$> seq 0 (n + 1)) (seq 0 (n + 1)))) as HI.
  { apply (foldl_seq_inv I).
    - repeat split.
      + by rewrite length_fmap, length_seq.
      + exists [0]. rewrite list_lookup_fmap, lookup_seq_lt by lia. done.
      + intros k Hk. exists [k].
        rewrite list_lookup_fmap, lookup_seq_lt by lia. done.
    - intros j m Hj (Hlen & (row & Hrow & Hrl & Hr0) & Hrest).
      repeat split.
      + by rewrite mset_length.
      + exists (aset row j j). split; [by apply mset_lookup_eq|].
        destruct j as [|j].
        * unfold aset. rewrite Hrl. cbn.
          rewrite length_insert. split; [done|].
          apply list_lookup_insert_eq. lia.
        * replace (Nat.max 1 (S j)) with (S j) in Hrl by lia.
          rewrite <- Hrl, aset_end, length_app. cbn.
          split; [lia|]. rewrite lookup_app_l by lia. done.
      + intros k Hk. rewrite mset_lookup_ne by lia. by apply Hrest. }
  destruct HI as (Hlen & (row & Hrow & Hrl & Hr0) & Hrest).
  repeat split; [done| |].
  - intros k Hk. assert (k = 0) by lia. subst k.
    exists row. repeat split; [done|lia|done].
  - done.
Qed.

Lemma lev_cell_cells_done i j matrix :
  1 <= i -> cells_done i j matrix -> cells_done i (S j) (lev_cell s s matrix i (S j)).
Proof.
  intros Hi (Hlen & Hprev & (row & Hrow & Hrl & Hdiag) & Hrest).
  assert (exists v, lev_cell s s matrix i (S j) = mset matrix i (S j) v /\
                    (i = S j -> v = 0)) as (v & -> & Hv).
  { unfold lev_cell. case_bool_decide as Hc.
    - eexists; split; [done|]. intros ->.
      destruct (Hprev (S j - 1)) as (r & Hr & _ & Hr0); [lia|].
      by apply (mget_Some _ _ _ r).
    - eexists; split; [done|]. intros ->. by destruct Hc. }
  repeat split.
  - by rewrite mset_length.
  - intros k Hk. rewrite mset_lookup_ne by lia. by apply Hprev.
  - exists (aset row (S j) v). split; [by apply mset_lookup_eq|].
    assert (aset row (S j) v = row ++ [v]) as ->.
    { rewrite <- aset_end. f_equal. lia. }
    rewrite length_app. cbn. split; [lia|].
    intros Hij. destruct (decide (i = S j)) as [->|Hne].
    + rewrite Hv by done. rewrite lookup_app_r by lia.
      by replace (S j - length row) with 0 by lia.
    + rewrite lookup_app_l by lia. apply Hdiag. lia.
  - intros k Hk. rewrite mset_lookup_ne by lia. by apply Hrest.
Qed.

Lemma lev_row_rows_done i matrix :
  1 <= i <= n -> rows_done (i - 1) matrix -> rows_done i (lev_row s s matrix i).
Proof.
  intros Hi (Hlen & Hprev & Hrest).
  unfold lev_row. fold n.
  assert (cells_done i n (foldl (fun m j => lev_cell s s m i j) matrix (seq 1 n)))
    as (Hlen' & Hprev' & (row & Hrow & Hrl & Hdiag) & Hrest').
  { pose (P := fun (j : nat) m => cells_done i (Nat.pred j) m).
    change (P (S n) (foldl (fun m j => lev_cell s s m i j) matrix (seq 1 n))).
    apply (foldl_seq_inv P _ n 1).
    - repeat split; [done| | |].
      + intros k Hk. apply Hprev. lia.
      + destruct (Hrest i) as (row & Hrow & Hrl); [lia|].
        exists row. repeat split; [done|done|]. cbn. lia.
      + intros k Hk. apply Hrest. lia.
    - intros j m Hj Hm. unfold P in *.
      destruct j as [|j]; [lia|]. cbn [Nat.pred] in *.
      apply lev_cell_cells_done; [lia|done]. }
  repeat split; [done| |done].
  intros k Hk. destruct (decide (k = i)) as [->|Hne].
  - exists row. repeat split; [done|lia|]. apply Hdiag. lia.
  - apply Hprev'. lia.
Qed.

Lemma lev_fill_rows_done :
  rows_done n (foldl (lev_row s s) (lev_init s s) (seq 1 n)).
Proof.
  pose (P := fun (i : nat) m => rows_done (Nat.pred i) m).
  change (P (S n) (foldl (lev_row s s) (lev_init s s) (seq 1 n))).
  apply (foldl_seq_inv P _ n 1).
  - apply lev_init_rows_done.
  - intros i m Hi Hm. unfold P in *. cbn [Nat.pred].
    apply lev_row_rows_done; [lia|]. by rewrite Nat.sub_1_r.
Qed.

Lemma levenshteinDistance_refl : levenshteinDistance s s = 0.
Proof.
  unfold levenshteinDistance. fold n.
  destruct (n =? 0) eqn:Hn; [by apply Nat.eqb_eq in Hn|].
  destruct lev_fill_rows_done as (_ & Hrows & _).
  destruct (Hrows n) as (row & Hrow & _ & Hr0); [lia|].
  by apply (mget_Some _ _ _ row).
Qed.

End Diagonal.

Lemma falsy_empty x : falsy x = true <-> x = "".
Proof.
  unfold falsy. rewrite Nat.eqb_eq. destruct x; cbn; [done|]. split; discriminate.
Qed.

(** C8. The similarity of a string with itself is 1, two empty strings
    have similarity 1, and an empty string against a string that is not
    empty has similarity 0, on either side. *)
Theorem similarityRatio_laws :
  (forall a, similarityRatio a a == 1)%Q /\
  (similarityRatio "" "" == 1)%Q /\
  (forall x, x <> "" ->
     (similarityRatio "" x == 0)%Q /\ (similarityRatio x "" == 0)%Q).
Proof.
  split; [|split].
  - intros a. unfold similarityRatio.
    destruct (falsy a) eqn:Ha; cbn [andb orb]; [reflexivity|].
    destruct (_ =? 0); [reflexivity|].
    rewrite levenshteinDistance_refl. unfold Qnat, Qdiv. cbn [Z.of_nat].
    rewrite Qmult_0_l. ring.
  - reflexivity.
  - intros x Hx. unfold similarityRatio.
    destruct (falsy x) eqn:Hf; [by apply falsy_empty in Hf|].
    cbn. split; reflexivity.
Qed.

Lemma similarityRatio_laws_witness :
  (similarityRatio "" "x" == 0)%Q /\ (similarityRatio "x" "" == 0)%Q.
Proof.
  apply (proj2 (proj2 similarityRatio_laws) "x"). discriminate.
Defined.


Lemma Qle_bool_trans_true (x y z : Q) :
  (x <= y)%Q -> (y <= z)%Q -> Qle_bool x z = true.
Proof. intros H1 H2. apply Qle_bool_iff. by apply Qle_trans with y. Qed.

(** C7, as the code has it: the shared-prefix floor applies only when
    the compared prefix is longer than three characters. For lines that
    are not empty and whose normalised forms agree on their first
    [min 10 (min |a| |b|)] characters, with that length above 3, the
    ratio is at least 0.5 and the pair is similar under the default
    threshold. *)
Theorem areSimilar_prefix_floor (a b : string) :
  a <> "" -> b <> "" ->
  let normA := normalize a in
  let normB := normalize b in
  let prefixLen :=
    Nat.min 10 (Nat.min (String.length normA) (String.length normB)) in
  3 < prefixLen ->
  substring 0 prefixLen normA = substring 0 prefixLen normB ->
  (0.5 <= ratio (areSimilar (Some a) (Some b) defaultThreshold))%Q /\
  similar (areSimilar (Some a) (Some b) defaultThreshold) = true.
Proof.
  intros Ha Hb normA normB prefixLen Hlen Hpre.
  unfold areSimilar. cbn [truthy].
  change (default "" (Some a)) with a. change (default "" (Some b)) with b.
  destruct (falsy a) eqn:Hfa; [by apply falsy_empty in Hfa|].
  destruct (falsy b) eqn:Hfb; [by apply falsy_empty in Hfb|].
  cbn [negb orb]. fold normA normB.
  assert (0.5 <= 1)%Q as Hone by (by vm_compute).
  destruct (String.eqb normA normB); [by split|].
  destruct (falsy normA) eqn:HnA.
  { apply falsy_empty in HnA. subst prefixLen. rewrite HnA in Hlen. cbn in Hlen. lia. }
  destruct (falsy normB) eqn:HnB.
  { apply falsy_empty in HnB. subst prefixLen. rewrite HnB in Hlen.
    rewrite Nat.min_0_r in Hlen. cbn in Hlen. lia. }
  cbn [orb].
  destruct (String.eqb normA "}" && String.eqb normB "}"); [by split|].
  fold prefixLen.
  apply Nat.ltb_lt in Hlen. rewrite Hlen, Hpre, String.eqb_refl.
  cbn [andb similar ratio]. split.
  - apply Q.le_max_r.
  - apply Qle_bool_trans_true with 0.5%Q; [done|apply Q.le_max_r].
Qed.

Lemma areSimilar_prefix_floor_witness :
  (0.5 <= ratio (areSimilar (Some "margin-top: 1px") (Some "margin-top: 22em")
                   defaultThreshold))%Q /\
  similar (areSimilar (Some "margin-top: 1px") (Some "margin-top: 22em")
             defaultThreshold) = true.
Proof.
  apply (areSimilar_prefix_floor "margin-top: 1px" "margin-top: 22em").
  - discriminate.
  - discriminate.
  - vm_compute. lia.
  - vm_compute. reflexivity.
Defined.

(** C7 as stated fails below four shared characters: ["a"] is a prefix
    of ["abcdefgh"], both are normalised and not empty, and the ratio is
    1/8, under the floor and under the threshold. *)
Lemma areSimilar_prefix_floor_counterexample :
  let a := "a" in
  let b := "abcdefgh" in
  let prefixLen := Nat.min 10 (Nat.min (String.length a) (String.length b)) in
  normalize a = a /\ normalize b = b /\ a <> "" /\ b <> "" /\
  substring 0 prefixLen a = substring 0 prefixLen b /\
  areSimilar (Some a) (Some b) defaultThreshold = mkSimilar false (1 # 8) /\
  ~ (0.5 <= 1 # 8)%Q.
Proof.
  cbv zeta. repeat apply conj; try discriminate; try (vm_compute; reflexivity).
  intros H. by vm_compute in H.
Qed.

End SimilarityFacts.

(** ** Properties of the modification detector *)

Module DetectorFacts.
Import Similarity Detector DetectorSpec.
Import SimilarityFacts.

Lemma Qltb_lt (x y : Q) : Qltb x y = true <-> (x < y)%Q.
Proof.
  unfold Qltb. rewrite Qlt_alt. destruct (x ?= y)%Q; split; congruence.
Qed.

Lemma Qltb_ge (x y : Q) : Qltb x y = false <-> (y <= x)%Q.
Proof.
  rewrite <- not_true_iff_false, Qltb_lt. split.
  - apply Qnot_lt_le.
  - apply Qle_not_lt.
Qed.

(** *** The scan finds the pair of the greedy selection *)

Section Greedy.
Variable similarities : list (list Q).
Variables nRemoved nAdded : nat.


Section Scan.
Variables usedRemoved usedAdded : gset nat.

(** After the pairs before [(i0, j0)] have been looked at. *)
Definition scan_inv (i0 j0 : nat) (st : Best) : Prop :=
  (forall i j, remaining nRemoved nAdded usedRemoved usedAdded i j ->
     before (i, j) (i0, j0) -> (sget similarities i j <= bestRatio st)%Q) /\
  match bestIJ st with
  | None => bestRatio st = 0%Q
  | Some (bi, bj) =>
    remaining nRemoved nAdded usedRemoved usedAdded bi bj /\
    bestRatio st = sget similarities bi bj /\
    (0 < bestRatio st)%Q /\
    (forall i j, remaining nRemoved nAdded usedRemoved usedAdded i j ->
       before (i, j) (bi, bj) -> (sget similarities i j < bestRatio st)%Q)
  end.

Lemma scan_inv_nonneg i0 j0 st : scan_inv i0 j0 st -> (0 <= bestRatio st)%Q.
Proof.
  intros [_ H]. destruct (bestIJ st) as [[bi bj]|].
  - destruct H as (_ & _ & H & _). by apply Qlt_le_weak.
  - rewrite H. apply Qle_refl.
Qed.

Lemma scan_cell_inv i0 j0 st :
  free usedRemoved nRemoved i0 -> j0 < nAdded ->
  scan_inv i0 j0 st ->
  scan_inv i0 (S j0) (scan_cell similarities usedAdded i0 st j0).
Proof.
  intros Hi Hj Hinv. pose proof (scan_inv_nonneg _ _ _ Hinv) as Hnn.
  destruct Hinv as [Hle Hbest].
  assert (forall i j, before (i, j) (i0, S j0) ->
            before (i, j) (i0, j0) \/ (i = i0 /\ j = j0)) as Hvis.
  { unfold before; cbn. intros i j. lia. }
  unfold scan_cell. case_bool_decide as Hused.
  { split; [|done]. intros i j Hrem Hb.
    destruct (Hvis _ _ Hb) as [Hb'|[-> ->]]; [by apply Hle|].
    destruct Hrem as [_ [_ Hfree]]. done. }
  destruct (Qltb (bestRatio st) (sget similarities i0 j0)) eqn:Hlt.
  - apply Qltb_lt in Hlt. split; cbn.
    + intros i j Hrem Hb.
      destruct (Hvis _ _ Hb) as [Hb'|[-> ->]]; [|apply Qle_refl].
      apply Qle_trans with (bestRatio st); [by apply Hle|by apply Qlt_le_weak].
    + split; [split; [done|by split]|]. split; [done|]. split.
      * by apply Qle_lt_trans with (bestRatio st).
      * intros i j Hrem Hb.
        apply Qle_lt_trans with (bestRatio st); [|done].
        apply Hle; [done|]. unfold before in *; cbn in *. lia.
  - apply Qltb_ge in Hlt. split; [|done].
    intros i j Hrem Hb.
    destruct (Hvis _ _ Hb) as [Hb'|[-> ->]]; [by apply Hle|done].
Qed.

Lemma scan_row_inv i0 st :
  i0 < nRemoved ->
  scan_inv i0 0 st ->
  scan_inv (S i0) 0 (scan_row similarities usedRemoved usedAdded nAdded st i0).
Proof.
  intros Hi Hinv. unfold scan_row. case_bool_decide as Hused.
  - destruct Hinv as [Hle Hbest]. split; [|done].
    intros i j Hrem Hb.
    destruct (decide (i = i0)) as [->|Hne].
    + destruct Hrem as [[_ Hfree] _]. done.
    + apply Hle; [done|]. unfold before in *; cbn in *. lia.
  - assert (scan_inv i0 nAdded
              (foldl (scan_cell similarities usedAdded i0) st (seq 0 nAdded)))
      as [Hle Hbest].
    { apply (foldl_seq_inv (scan_inv i0) _ nAdded 0); [done|].
      intros j y Hj Hy. apply scan_cell_inv; [done|lia|done]. }
    split; [|done].
    intros i j Hrem Hb. apply Hle; [done|].
    destruct Hrem as [_ [Hj _]]. unfold before in *; cbn in *. lia.
Qed.

Lemma scan_spec :
  scan_inv nRemoved 0 (scan similarities usedRemoved usedAdded nRemoved nAdded).
Proof.
  unfold scan.
  apply (foldl_seq_inv (fun i => scan_inv i 0) _ nRemoved 0).
  - split; [|done]. intros i j _ Hb. unfold before in Hb; cbn in Hb. lia.
  - intros i y Hi Hy. apply scan_row_inv; [lia|done].
Qed.

Lemma remaining_before i j :
  remaining nRemoved nAdded usedRemoved usedAdded i j -> before (i, j) (nRemoved, 0).
Proof. intros [[Hi _] _]. left. done. Qed.

End Scan.
End Greedy.

(** What a selection says about each of its picks. *)
Lemma greedy_selection_picks similarities nRemoved nAdded usedRemoved usedAdded picks :
  greedy_selection similarities nRemoved nAdded usedRemoved usedAdded picks ->
  Forall (fun p => free usedRemoved nRemoved p.1.1 /\ free usedAdded nAdded p.1.2 /\
                   p.2 = sget similarities p.1.1 p.1.2 /\ (0 < p.2)%Q) picks /\
  NoDup (picks.*1.*1) /\ NoDup (picks.*1.*2).
Proof.
  induction 1 as [|uR uA i j picks [Hi Hj] Hpos _ _ _ (IH & IHr & IHa)]; cbn.
  - repeat split; constructor.
  - assert (Forall (fun p => free uR nRemoved p.1.1 /\ free uA nAdded p.1.2 /\
                      p.2 = sget similarities p.1.1 p.1.2 /\ (0 < p.2)%Q /\
                      p.1.1 <> i /\ p.1.2 <> j) picks) as Hall.
    { eapply Forall_impl; [exact IH|].
      intros [[i' j'] q] ([Hi1 Hi2] & [Hj1 Hj2] & Hq & Hq0); cbn in *.
      repeat split; try done; set_solver. }
    split; [|split].
    + constructor; [done|]. eapply Forall_impl; [exact Hall|].
      intros p. cbv beta. tauto.
    + constructor; [|done]. rewrite !list_elem_of_fmap.
      intros (p1 & Hi1 & (p & -> & Hp)%list_elem_of_fmap).
      rewrite Forall_forall in Hall.
      destruct (Hall p Hp) as (_ & _ & _ & _ & Hne & _). by symmetry in Hi1.
    + constructor; [|done]. rewrite !list_elem_of_fmap.
      intros (p1 & Hj1 & (p & -> & Hp)%list_elem_of_fmap).
      rewrite Forall_forall in Hall.
      destruct (Hall p Hp) as (_ & _ & _ & _ & _ & Hne). by symmetry in Hj1.
Qed.

Lemma before_total (p q : nat * nat) : p = q \/ before p q \/ before q p.
Proof.
  destruct p as [i j], q as [i' j']. unfold before. cbn.
  destruct (decide (i = i')) as [->|]; [|lia].
  destruct (decide (j = j')) as [->|]; [by left|lia].
Qed.

(** The selection is a function of the matrix and of the used indices. *)
Lemma greedy_selection_deterministic similarities nRemoved nAdded
    usedRemoved usedAdded picks1 picks2 :
  greedy_selection similarities nRemoved nAdded usedRemoved usedAdded picks1 ->
  greedy_selection similarities nRemoved nAdded usedRemoved usedAdded picks2 ->
  picks1 = picks2.
Proof.
  intros H1. revert picks2.
  induction H1 as [uR uA Hnone|uR uA i j picks Hrem Hpos Hmax Hfirst _ IH];
    intros picks2 H2; inversion H2 as [|? ? i' j' picks' Hrem' Hpos' Hmax' Hfirst' Hrest];
    subst.
  - done.
  - by destruct (Hnone i' j').
  - match goal with H : forall i j, remaining _ _ _ _ i j -> ~ _ |- _ =>
      by destruct (H i j) end.
  - destruct (before_total (i, j) (i', j')) as [[= <- <-]|[Hb|Hb]].
    + f_equal. by apply IH.
    + pose proof (Hfirst' i j Hrem Hb) as Hlt.
      pose proof (Hmax i' j' Hrem') as Hle.
      by apply Qlt_not_le in Hlt.
    + pose proof (Hfirst i' j' Hrem' Hb) as Hlt.
      pose proof (Hmax' i j Hrem) as Hle.
      by apply Qlt_not_le in Hlt.
Qed.

Lemma all_used (used : gset nat) (n : nat) :
  (forall i, i ∈ used -> i < n) -> n <= size used -> forall i, ~ free used n i.
Proof.
  intros Hb Hsz i [Hi Hfree]. apply Hfree.
  assert (used = set_seq 0 n) as ->.
  { apply set_subseteq_size_eq.
    - intros k Hk. apply elem_of_set_seq. specialize (Hb k Hk). lia.
    - by rewrite size_set_seq. }
  apply elem_of_set_seq. lia.
Qed.

Definition pick (m : Match) : nat * nat * Q :=
  (removedIdx m, addedIdx m, mRatio m).

(** The two entries a match carries are the block entries at its
    indices. *)
Definition carries (removedBlock addedBlock : list DiffEntry) (m : Match) : Prop :=
  mRemoved m = removedBlock !! removedIdx m /\
  mAdded m = addedBlock !! addedIdx m.

(** The greedy loop refines the selection. An iteration uses up one
    removed index, so the loop has ended by the time the fuel runs out:
    with no fuel left, [usedRemoved.size < removed.length] is false. *)
Lemma match_loop_spec similarities removedBlock addedBlock fuel :
  forall matches (usedRemoved usedAdded : gset nat),
  (forall i, i ∈ usedRemoved -> i < length removedBlock) ->
  (forall j, j ∈ usedAdded -> j < length addedBlock) ->
  length removedBlock <= fuel + size usedRemoved ->
  exists new,
    match_loop fuel similarities removedBlock addedBlock matches
               usedRemoved usedAdded = matches ++ new /\
    greedy_selection similarities (length removedBlock) (length addedBlock)
                     usedRemoved usedAdded (pick <$> new) /\
    Forall (carries removedBlock addedBlock) new.
Proof.
  induction fuel as [|fuel IH]; intros matches uR uA HbR HbA Hfuel.
  - exists []. rewrite app_nil_r. split; [done|]. split; [|constructor].
    apply greedy_stop. intros i j [Hi _]. by apply (all_used uR _ HbR) in Hi.
  - cbn [match_loop].
    destruct ((size uR <? length removedBlock) && (size uA <? length addedBlock)) eqn:Hc.
    2:{ exists []. rewrite app_nil_r. split; [done|]. split; [|constructor].
        apply greedy_stop. intros i j [Hi Hj].
        apply andb_false_iff in Hc as [Hc|Hc]; apply Nat.ltb_ge in Hc.
        - by apply (all_used uR _ HbR) in Hi.
        - by apply (all_used uA _ HbA) in Hj. }
    pose proof (scan_spec similarities (length removedBlock) (length addedBlock) uR uA)
      as [Hle Hbest].
    set (st := scan similarities uR uA (length removedBlock) (length addedBlock)) in *.
    destruct (Qltb 0 (bestRatio st)) eqn:Hpos.
    2:{ exists []. rewrite app_nil_r. split; [done|]. split; [|constructor].
        apply greedy_stop. intros i j Hrem Hgt. apply Qltb_ge in Hpos.
        apply (Qlt_not_le _ _ Hgt).
        apply Qle_trans with (bestRatio st); [|done].
        apply Hle; [done|]. by eapply remaining_before. }
    destruct (bestIJ st) as [[bi bj]|].
    2:{ rewrite Hbest in Hpos. by vm_compute in Hpos. }
    destruct Hbest as ([[HbiR Hbi] [HbjA Hbj]] & Hratio & Hgt & Hfirst).
    destruct (IH (matches ++ [mkMatch bi bj (removedBlock !! bi) (addedBlock !! bj)
                                      (bestRatio st)])
                 ({[bi]} ∪ uR) ({[bj]} ∪ uA)) as (new & Heq & Hsel & Hcar).
    { intros i. rewrite elem_of_union, elem_of_singleton. intros [->|?]; auto. }
    { intros j. rewrite elem_of_union, elem_of_singleton. intros [->|?]; auto. }
    { rewrite size_union, size_singleton by set_solver. lia. }
    exists (mkMatch bi bj (removedBlock !! bi) (addedBlock !! bj) (bestRatio st) :: new).
    split; [by rewrite Heq, <- app_assoc|]. split.
    + rewrite fmap_cons. unfold pick at 1. cbn. rewrite Hratio.
      apply greedy_pick; try done.
      * by rewrite <- Hratio.
      * intros i' j' Hrem. rewrite <- Hratio. apply Hle; [done|].
        by eapply remaining_before.
      * intros i' j' Hrem Hb. rewrite <- Hratio. by apply Hfirst.
    + constructor; [by split|done].
Qed.

Lemma findBestMatches_spec removedBlock addedBlock :
  greedy_selection (similarityMatrix removedBlock addedBlock)
    (length removedBlock) (length addedBlock) ∅ ∅
    (pick <$> findBestMatches removedBlock addedBlock) /\
  Forall (carries removedBlock addedBlock) (findBestMatches removedBlock addedBlock).
Proof.
  unfold findBestMatches.
  destruct ((length removedBlock =? 0) || (length addedBlock =? 0)) eqn:He.
  - split; [|constructor]. apply greedy_stop. intros i j [[Hi _] [Hj _]].
    apply orb_true_iff in He as [He|He]; apply Nat.eqb_eq in He; lia.
  - destruct (match_loop_spec (similarityMatrix removedBlock addedBlock)
                removedBlock addedBlock (length removedBlock) [] ∅ ∅)
      as (new & -> & Hsel & Hcar); [set_solver|set_solver|lia|].
    done.
Qed.

(** *** Sorting the matches by removed index *)

Lemma insertMatch_perm m sorted : insertMatch m sorted ≡ₚ m :: sorted.
Proof.
  induction sorted as [|x rest IH]; cbn [insertMatch]; [done|].
  destruct (removedIdx m <? removedIdx x); [reflexivity|].
  rewrite IH. apply Permutation_swap.
Qed.

Lemma sortMatches_perm matches : sortMatches matches ≡ₚ matches.
Proof.
  unfold sortMatches.
  assert (forall acc, foldl (fun sorted m => insertMatch m sorted) acc matches
                      ≡ₚ acc ++ matches) as H.
  { induction matches as [|m rest IH]; intros acc; cbn.
    - by rewrite app_nil_r.
    - rewrite IH, insertMatch_perm. cbn [app]. apply Permutation_middle. }
  apply H.
Qed.



(** *** The outer loop *)

Lemma collect_skip k rest : collect k rest ++ skip k rest = rest.
Proof.
  induction rest as [|e rest IH]; cbn; [done|].
  destruct (isKind k e); cbn; [by rewrite IH|done].
Qed.

Lemma collect_all k rest : Forall (fun e => type e = k) (collect k rest).
Proof.
  induction rest as [|e rest IH]; cbn; [constructor|].
  unfold isKind. case_bool_decide; by constructor.
Qed.

Lemma skip_head k rest e : head (skip k rest) = Some e -> type e <> k.
Proof.
  induction rest as [|x rest IH]; cbn; [done|].
  unfold isKind. case_bool_decide; [done|]. cbn. by intros [= ->].
Qed.

(** What one iteration pushes, and where the next one starts. *)
Definition detect_step (first : DiffEntry) (tail : list DiffEntry)
    : list DiffEntry * list DiffEntry :=
  let rest := first :: tail in
  let removedBlock := collect removed rest in
  let rest1 := skip removed rest in
  let addedBlock := collect added rest1 in
  let rest2 := skip added rest1 in
  if (0 <? length removedBlock) && (0 <? length addedBlock) then
    (pairBlocks removedBlock addedBlock, rest2)
  else if 0 <? length removedBlock then (removedCopy <$> removedBlock, rest2)
  else if 0 <? length addedBlock then (addedCopy <$> addedBlock, rest2)
  else ([first], tail).

Lemma detect_loop_step fuel first tail result :
  detect_loop (S fuel) (first :: tail) result =
  detect_loop fuel (detect_step first tail).2 (result ++ (detect_step first tail).1).
Proof.
  cbn [detect_loop]. unfold detect_step.
  repeat match goal with |- context [if ?c then _ else _] => destruct c end; done.
Qed.

Lemma detect_step_shorter first tail :
  length (detect_step first tail).2 < length (first :: tail).
Proof.
  unfold detect_step.
  set (rest := first :: tail).
  pose proof (collect_skip removed rest) as H1.
  pose proof (collect_skip added (skip removed rest)) as H2.
  apply (f_equal length) in H1, H2. rewrite length_app in H1, H2.
  destruct (0 <? length (collect removed rest)) eqn:Hr;
    destruct (0 <? length (collect added (skip removed rest))) eqn:Ha; cbn [andb snd];
    try apply Nat.ltb_lt in Hr; try apply Nat.ltb_lt in Ha; try lia.
  subst rest. cbn. lia.
Qed.

Lemma detect_loop_result fuel : forall rest result,
  detect_loop fuel rest result = result ++ detect_loop fuel rest [].
Proof.
  induction fuel as [|fuel IH]; intros rest result.
  - cbn. by rewrite app_nil_r.
  - destruct rest as [|first tail]; [cbn; by rewrite app_nil_r|].
    rewrite !detect_loop_step, IH. symmetry. rewrite IH.
    by rewrite app_nil_l, app_assoc.
Qed.

(** Every iteration consumes at least one entry, so a fuel of
    [length rest] is never exhausted. *)
Lemma detect_loop_fuel fuel1 : forall fuel2 rest result,
  length rest <= fuel1 -> length rest <= fuel2 ->
  detect_loop fuel1 rest result = detect_loop fuel2 rest result.
Proof.
  induction fuel1 as [|fuel1 IH]; intros fuel2 rest result H1 H2.
  - destruct rest; [|cbn in H1; lia]. by destruct fuel2.
  - destruct rest as [|first tail]; [by destruct fuel2|].
    destruct fuel2 as [|fuel2]; [cbn in H2; lia|].
    rewrite !detect_loop_step.
    pose proof (detect_step_shorter first tail). cbn in *.
    apply IH; lia.
Qed.

Lemma detectModifications_nil : detectModifications [] = [].
Proof. reflexivity. Qed.

Lemma detectModifications_cons first tail :
  detectModifications (first :: tail) =
  (detect_step first tail).1 ++ detectModifications (detect_step first tail).2.
Proof.
  unfold detectModifications. cbn [length].
  rewrite detect_loop_step, detect_loop_result, app_nil_l. f_equal.
  pose proof (detect_step_shorter first tail). cbn in *.
  apply detect_loop_fuel; lia.
Qed.

(** *** What the detector emits *)

Lemma unmatched_elem copy matched block e :
  e ∈ unmatched copy matched block -> exists x, x ∈ block /\ e = copy x.
Proof.
  unfold unmatched. rewrite list_elem_of_join.
  intros (l & He & (i & x & -> & Hx)%elem_of_lookup_imap).
  case_bool_decide; [by apply elem_of_nil in He|].
  apply list_elem_of_singleton in He as ->.
  exists x. split; [|done]. by eapply list_elem_of_lookup_2.
Qed.

Lemma pairBlocks_elem removedBlock addedBlock e :
  e ∈ pairBlocks removedBlock addedBlock ->
  (exists r, r ∈ removedBlock /\ e = removedCopy r) \/
  (exists m, m ∈ findBestMatches removedBlock addedBlock /\ e = modifiedEntry m) \/
  (exists a, a ∈ addedBlock /\ e = addedCopy a).
Proof.
  unfold pairBlocks. rewrite !elem_of_app. intros [H|[H|H]].
  - left. by eapply unmatched_elem.
  - right; left. apply list_elem_of_fmap in H as (m & -> & Hm).
    exists m. split; [|done]. by rewrite sortMatches_perm in Hm.
  - right; right. by eapply unmatched_elem.
Qed.

Lemma sget_similarityMatrix removedBlock addedBlock i j r a :
  removedBlock !! i = Some r -> addedBlock !! j = Some a ->
  sget (similarityMatrix removedBlock addedBlock) i j =
  let s := areSimilar (leftContent r) (rightContent a) defaultThreshold in
  if similar s then ratio s else 0%Q.
Proof.
  intros Hr Ha. unfold sget, similarityMatrix.
  rewrite list_lookup_fmap, Hr. cbn. rewrite list_lookup_fmap, Ha. done.
Qed.

(** A match pairs two entries of the blocks, with the positive score the
    matrix holds for them. *)
Lemma findBestMatches_elem removedBlock addedBlock m :
  m ∈ findBestMatches removedBlock addedBlock ->
  exists r a,
    removedBlock !! removedIdx m = Some r /\ addedBlock !! addedIdx m = Some a /\
    mRemoved m = Some r /\ mAdded m = Some a /\
    mRatio m = sget (similarityMatrix removedBlock addedBlock)
                    (removedIdx m) (addedIdx m) /\
    (0 < mRatio m)%Q.
Proof.
  intros Hm.
  destruct (findBestMatches_spec removedBlock addedBlock) as [Hsel Hcar].
  apply greedy_selection_picks in Hsel as (Hpicks & _ & _).
  rewrite Forall_forall in Hpicks. rewrite Forall_forall in Hcar.
  destruct (Hcar m Hm) as [HmR HmA].
  destruct (Hpicks (pick m)) as ([Hi _] & [Hj _] & Hq & Hpos).
  { apply list_elem_of_fmap. by exists m. }
  cbn in *.
  destruct (lookup_lt_is_Some_2 removedBlock (removedIdx m) Hi) as [r Hr].
  destruct (lookup_lt_is_Some_2 addedBlock (addedIdx m) Hj) as [a Ha].
  exists r, a. rewrite HmR, HmA. done.
Qed.

Lemma areSimilar_threshold a b threshold :
  (threshold <= 1)%Q ->
  similar (areSimilar a b threshold) = true ->
  (threshold <= ratio (areSimilar a b threshold))%Q.
Proof.
  intros Hone. unfold areSimilar.
  repeat match goal with
  | |- context [if ?c then mkSimilar _ _ else _] => destruct c; cbn [similar ratio]
  end; try done.
  apply Qle_bool_imp_le.
Qed.

(** A proof principle for the whole pass: what holds of the entries that
    pass through, of the copies, and of the entries built from a match
    holds of all the output. *)
Lemma detectModifications_Forall (Pin P : DiffEntry -> Prop) :
  (forall e, Pin e -> type e <> removed -> type e <> added -> P e) ->
  (forall e, Pin e -> type e = removed -> P (removedCopy e)) ->
  (forall e, Pin e -> type e = added -> P (addedCopy e)) ->
  (forall removedBlock addedBlock m,
     Forall (fun e => Pin e /\ type e = removed) removedBlock ->
     Forall (fun e => Pin e /\ type e = added) addedBlock ->
     m ∈ findBestMatches removedBlock addedBlock -> P (modifiedEntry m)) ->
  forall diff, Forall Pin diff -> Forall P (detectModifications diff).
Proof.
  intros Hpass Hrem Hadd Hmod diff.
  remember (length diff) as n eqn:Hn. revert diff Hn.
  induction n as [n IH] using lt_wf_ind. intros diff -> Hin.
  destruct diff as [|first tail]; [constructor|].
  rewrite detectModifications_cons.
  pose proof (detect_step_shorter first tail) as Hshort.
  unfold detect_step in *.
  set (rest := first :: tail) in *.
  pose proof (collect_skip removed rest) as H1.
  pose proof (collect_skip added (skip removed rest)) as H2.
  pose proof (collect_all removed rest) as HR.
  pose proof (collect_all added (skip removed rest)) as HA.
  set (removedBlock := collect removed rest) in *.
  set (rest1 := skip removed rest) in *.
  set (addedBlock := collect added rest1) in *.
  set (rest2 := skip added rest1) in *.
  assert (Forall Pin removedBlock /\ Forall Pin addedBlock /\ Forall Pin rest2)
    as (HinR & HinA & Hin2).
  { rewrite <- H1, <- H2 in Hin.
    apply Forall_app in Hin as [? Hin]. by apply Forall_app in Hin as [? ?]. }
  assert (Forall (fun e => Pin e /\ type e = removed) removedBlock) as HR'.
  { apply Forall_and; by split. }
  assert (Forall (fun e => Pin e /\ type e = added) addedBlock) as HA'.
  { apply Forall_and; by split. }
  destruct (0 <? length removedBlock) eqn:Hr;
    destruct (0 <? length addedBlock) eqn:Ha; cbn [andb fst snd] in *.
  - apply Forall_app; split; [|by eapply IH].
    apply Forall_forall. intros e He.
    rewrite Forall_forall in HR'. rewrite Forall_forall in HA'.
    apply pairBlocks_elem in He as [(r & Hr0 & ->)|[(m & Hm & ->)|(a & Ha0 & ->)]].
    + destruct (HR' r Hr0). by apply Hrem.
    + apply (Hmod removedBlock addedBlock); [by apply Forall_forall..|done].
    + destruct (HA' a Ha0). by apply Hadd.
  - apply Forall_app; split; [|by eapply IH].
    apply Forall_fmap. eapply Forall_impl; [exact HR'|]. intros e [? ?]. by apply Hrem.
  - apply Forall_app; split; [|by eapply IH].
    apply Forall_fmap. eapply Forall_impl; [exact HA'|]. intros e [? ?]. by apply Hadd.
  - apply Forall_app; split.
    2:{ eapply IH; [exact Hshort|done|]. by apply Forall_inv_tail in Hin. }
    apply Nat.ltb_ge in Hr, Ha.
    assert (removedBlock = []) as HRe by (destruct removedBlock; [done|cbn in Hr; lia]).
    assert (addedBlock = []) as HAe by (destruct addedBlock; [done|cbn in Ha; lia]).
    rewrite HRe in H1. cbn [app] in H1.
    assert (rest2 = rest) as H2'. { rewrite HAe in H2. cbn [app] in H2. by rewrite H2. }
    constructor; [|constructor].
    apply Hpass; [by apply Forall_inv in Hin| |].
    + apply (skip_head removed rest). fold rest1. by rewrite H1.
    + apply (skip_head added rest1). fold rest2. by rewrite H2'.
Qed.

(** *** Blocks in context *)









(** *** The order of a block's output *)

Lemma unmatched_unpicked copy (picked : list nat) block :
  unmatched copy (list_to_set picked) block = copy <$> unpicked picked block.
Proof.
  unfold unmatched, unpicked.
  assert (forall (f : nat -> nat),
    mjoin (imap (fun r e => if bool_decide (f r ∈ (list_to_set picked : gset nat))
                            then [] else [copy e]) block) =
    copy <$> (filter (fun p => p.1 ∉ picked) (imap (fun r e => (f r, e)) block)).*2)
    as H; [|apply (H id)].
  induction block as [|e block IH]; intros f; [done|].
  cbn [imap mjoin list_join]. rewrite filter_cons. cbn [fst].
  specialize (IH (f ∘ S)). unfold compose in *. cbv beta in *.
  case_bool_decide as Hin; rewrite elem_of_list_to_set in Hin;
    case_decide; try done; rewrite ?fmap_cons; cbn [app snd];
    first [exact IH | f_equal; exact IH].
Qed.




(** C9. Every entry the aligner and the detector produce together has
    the shape of its kind: unchanged and modified entries carry both
    line numbers, added entries only the right one, removed entries only
    the left one. *)
Theorem computeDiff_entries_well_shaped (originalLines modifiedLines : list string) :
  Forall well_shaped (computeDiffLines originalLines modifiedLines).
Proof.
  unfold computeDiffLines.
  apply (detectModifications_Forall well_shaped well_shaped).
  - done.
  - intros e He Ht. unfold well_shaped in *. rewrite Ht in He. cbn. tauto.
  - intros e He Ht. unfold well_shaped in *. rewrite Ht in He. cbn. tauto.
  - intros R A m HR HA Hm.
    apply findBestMatches_elem in Hm as (r & a & Hr & Ha & HmR & HmA & _).
    rewrite Forall_forall in HR. rewrite Forall_forall in HA.
    destruct (HR r) as [Hrs Hrt]; [by eapply list_elem_of_lookup_2|].
    destruct (HA a) as [Has Hat]; [by eapply list_elem_of_lookup_2|].
    unfold well_shaped in *. rewrite Hrt in Hrs. rewrite Hat in Has.
    unfold modifiedEntry. cbn. rewrite HmR, HmA. cbn. tauto.
  - apply AlignerFacts.backtrackDiff_shape.
Qed.

(** C10. When the input holds no modified entry, as every raw alignment
    does, each modified entry of the detector's output is made of a
    removed entry and an added entry of the input: it has the line
    number and content of the one on the left and of the other on the
    right, [areSimilar] judges its two contents similar under the
    default threshold 0.4, and its similarity is the ratio [areSimilar]
    reports for them, which is at least 0.4. So two contents that
    [areSimilar] does not judge similar are never those of a modified
    entry. *)
Theorem detectModifications_similarity_threshold (diff : list DiffEntry) :
  Forall (fun e => type e <> modified) diff ->
  Forall (fun e => type e = modified ->
     exists r a,
       r ∈ diff /\ type r = removed /\ a ∈ diff /\ type a = added /\
       leftLine e = leftLine r /\ leftContent e = leftContent r /\
       rightLine e = rightLine a /\ rightContent e = rightContent a /\
       similar (areSimilar (leftContent e) (rightContent e) defaultThreshold) = true /\
       similarity e =
         Some (ratio (areSimilar (leftContent e) (rightContent e) defaultThreshold)) /\
       (defaultThreshold <=
        ratio (areSimilar (leftContent e) (rightContent e) defaultThreshold))%Q)
    (detectModifications diff) /\
  (forall l r e,
     similar (areSimilar l r defaultThreshold) = false ->
     e ∈ detectModifications diff -> type e = modified ->
     ~ (leftContent e = l /\ rightContent e = r)).
Proof.
  intros Hin.
  assert (Forall (fun e => type e = modified ->
     exists r a,
       r ∈ diff /\ type r = removed /\ a ∈ diff /\ type a = added /\
       leftLine e = leftLine r /\ leftContent e = leftContent r /\
       rightLine e = rightLine a /\ rightContent e = rightContent a /\
       similar (areSimilar (leftContent e) (rightContent e) defaultThreshold) = true /\
       similarity e =
         Some (ratio (areSimilar (leftContent e) (rightContent e) defaultThreshold)) /\
       (defaultThreshold <=
        ratio (areSimilar (leftContent e) (rightContent e) defaultThreshold))%Q)
    (detectModifications diff)) as Hall.
  { apply (detectModifications_Forall (fun e => e ∈ diff /\ type e <> modified)).
    - intros e [_ He] _ _ Ht. done.
    - intros e _ _ Ht. done.
    - intros e _ _ Ht. done.
    - intros R A m HR HA Hm _.
      apply findBestMatches_elem in Hm as (r & a & Hr & Ha & HmR & HmA & Hq & Hpos).
      rewrite Forall_forall in HR. rewrite Forall_forall in HA.
      destruct (HR r) as [[Hrin _] Hrt]; [by eapply list_elem_of_lookup_2|].
      destruct (HA a) as [[Hain _] Hat]; [by eapply list_elem_of_lookup_2|].
      rewrite (sget_similarityMatrix _ _ _ _ r a Hr Ha) in Hq. cbv zeta in Hq.
      exists r, a. unfold modifiedEntry. cbn [leftLine rightLine leftContent rightContent
        similarity]. rewrite HmR, HmA. cbn [mbind option_bind].
      do 8 (split; [done|]).
      destruct (similar _) eqn:Hs.
      + split; [done|]. split; [by rewrite Hq|].
        apply areSimilar_threshold; [by vm_compute|done].
      + rewrite Hq in Hpos. by vm_compute in Hpos.
    - apply Forall_forall. intros e He. split; [done|].
      rewrite Forall_forall in Hin. by apply Hin. }
  split; [exact Hall|].
  intros l r e Hs He Ht [Hl Hr]. rewrite Forall_forall in Hall.
  destruct (Hall e He Ht) as (_ & _ & _ & _ & _ & _ & _ & _ & _ & _ & Hsim & _).
  rewrite Hl, Hr in Hsim. congruence.
Qed.

Lemma detectModifications_similarity_threshold_witness :
  let diff := [mkEntry removed (Some 1) None (Some "color: red;") None None;
               mkEntry added None (Some 1) None (Some "color: blue;") None] in
  detectModifications diff =
    [mkEntry modified (Some 1) (Some 1) (Some "color: red;") (Some "color: blue;")
             (Some (ratio (areSimilar (Some "color: red;") (Some "color: blue;")
                                      defaultThreshold)))] /\
  Forall (fun e => type e = modified ->
     exists r a,
       r ∈ diff /\ type r = removed /\ a ∈ diff /\ type a = added /\
       leftLine e = leftLine r /\ leftContent e = leftContent r /\
       rightLine e = rightLine a /\ rightContent e = rightContent a /\
       similar (areSimilar (leftContent e) (rightContent e) defaultThreshold) = true /\
       similarity e =
         Some (ratio (areSimilar (leftContent e) (rightContent e) defaultThreshold)) /\
       (defaultThreshold <=
        ratio (areSimilar (leftContent e) (rightContent e) defaultThreshold))%Q)
    (detectModifications diff).
Proof.
  intros diff. split; [by vm_compute|].
  apply (proj1 (detectModifications_similarity_threshold diff
                  ltac:(repeat constructor; discriminate))).
Defined.

End DetectorFacts.

(** ** Properties of the inline differ *)

Module InlineFacts.
Import Similarity Inline.
Import SimilarityFacts.

(** *** Strings as lists of characters *)

Abbreviation chars := list_ascii_of_string.

Lemma chars_inj s1 s2 : chars s1 = chars s2 -> s1 = s2.
Proof.
  intros H. apply (f_equal string_of_list_ascii) in H.
  by rewrite !string_of_list_ascii_of_string in H.
Qed.

Lemma chars_app s1 s2 : chars (s1 +:+ s2) = chars s1 ++ chars s2.
Proof. induction s1 as [|c s1 IH]; simpl; [done|by rewrite IH]. Qed.

Lemma chars_length s : length (chars s) = String.length s.
Proof. induction s as [|c s IH]; cbn; [done|by rewrite IH]. Qed.

Lemma chars_get s : forall n, String.get n s = chars s !! n.
Proof.
  induction s as [|c s IH]; intros n; cbn; [done|].
  destruct n as [|n]; cbn; [done|apply IH].
Qed.

Lemma chars_substring s : forall n m,
  chars (substring n m s) = take m (drop n (chars s)).
Proof.
  induction s as [|c s IH]; intros n m; cbn.
  - destruct n, m; done.
  - destruct n as [|n]; cbn.
    + destruct m as [|m]; cbn; [done|]. rewrite IH. by rewrite drop_0.
    + apply IH.
Qed.

Lemma chars_jsSubstring s a b :
  a <= b -> b <= String.length s ->
  chars (jsSubstring s a b) = take (b - a) (drop a (chars s)).
Proof.
  intros Hab Hb. unfold jsSubstring.
  rewrite chars_substring.
  replace (Nat.min a (String.length s)) with a by lia.
  replace (Nat.min b (String.length s)) with b by lia.
  replace (Nat.min a b) with a by lia.
  replace (Nat.max a b) with b by lia. done.
Qed.

Lemma append_nil_r s : s +:+ "" = s.
Proof. apply chars_inj. by rewrite chars_app, app_nil_r. Qed.

Lemma append_assoc s1 s2 s3 : (s1 +:+ s2) +:+ s3 = s1 +:+ (s2 +:+ s3).
Proof. apply chars_inj. by rewrite !chars_app, app_assoc. Qed.

Lemma joinTexts_app l1 l2 : joinTexts (l1 ++ l2) = joinTexts l1 +:+ joinTexts l2.
Proof.
  induction l1 as [|x l1 IH]; [done|].
  change (joinTexts ((x :: l1) ++ l2)) with (text x +:+ joinTexts (l1 ++ l2)).
  rewrite IH. symmetry. apply append_assoc.
Qed.

Lemma joinTexts_snoc l x : joinTexts (l ++ [x]) = joinTexts l +:+ text x.
Proof.
  rewrite joinTexts_app. change (joinTexts [x]) with (text x +:+ "").
  by rewrite append_nil_r.
Qed.

Lemma joinTexts_pushIf s c arr : joinTexts (pushIf s c arr) = joinTexts arr +:+ s.
Proof.
  unfold pushIf. destruct (falsy s) eqn:Hs; cbn [negb].
  - apply falsy_empty in Hs as ->. by rewrite append_nil_r.
  - apply joinTexts_snoc.
Qed.

(** *** Character level *)

Section CharLevel.
Variables oldStr newStr : string.
Let minLen := Nat.min (String.length oldStr) (String.length newStr).

Definition common_prefix (p : nat) : Prop :=
  p <= minLen /\
  forall k, k < p -> String.get k oldStr = String.get k newStr.

Definition common_suffix (p s : nat) : Prop :=
  s <= minLen - p /\
  forall k, k < s ->
    String.get (String.length oldStr - 1 - k) oldStr =
    String.get (String.length newStr - 1 - k) newStr.

Lemma prefix_loop_common fuel : forall p,
  common_prefix p -> common_prefix (prefix_loop fuel oldStr newStr minLen p).
Proof.
  induction fuel as [|fuel IH]; intros p Hp; cbn [prefix_loop]; [done|].
  destruct (p <? minLen) eqn:Hlt; cbn [andb]; [|done].
  case_bool_decide as Heq; [|done].
  apply Nat.ltb_lt in Hlt. apply IH. destruct Hp as [Hle Hk].
  split; [lia|]. intros k Hks.
  destruct (decide (k = p)) as [->|]; [done|]. apply Hk. lia.
Qed.

Lemma suffix_loop_common p fuel : forall s,
  common_suffix p s -> common_suffix p (suffix_loop fuel oldStr newStr minLen p s).
Proof.
  induction fuel as [|fuel IH]; intros s Hs; cbn [suffix_loop]; [done|].
  destruct (s <? minLen - p) eqn:Hlt; cbn [andb]; [|done].
  case_bool_decide as Heq; [|done].
  apply Nat.ltb_lt in Hlt. apply IH. destruct Hs as [Hle Hk].
  split; [lia|]. intros k Hks.
  destruct (decide (k = s)) as [->|]; [done|]. apply Hk. lia.
Qed.

(** Each turn of either loop adds one to its counter, which is bounded:
    a fuel of [minLen] is never exhausted. *)
Lemma prefix_loop_fuel fuel1 : forall fuel2 p,
  minLen <= fuel1 + p -> minLen <= fuel2 + p ->
  prefix_loop fuel1 oldStr newStr minLen p = prefix_loop fuel2 oldStr newStr minLen p.
Proof.
  induction fuel1 as [|fuel1 IH]; intros fuel2 p H1 H2.
  - destruct fuel2 as [|fuel2]; [done|]. cbn [prefix_loop].
    destruct (p <? minLen) eqn:Hlt; [apply Nat.ltb_lt in Hlt; lia|done].
  - cbn [prefix_loop].
    destruct (p <? minLen) eqn:Hlt; cbn [andb].
    2:{ destruct fuel2; [done|]. cbn [prefix_loop]. by rewrite Hlt. }
    apply Nat.ltb_lt in Hlt. destruct fuel2 as [|fuel2]; [lia|].
    cbn [prefix_loop]. apply Nat.ltb_lt in Hlt. rewrite Hlt. cbn [andb].
    case_bool_decide; [|done]. apply IH; lia.
Qed.

Lemma suffix_loop_fuel p fuel1 : forall fuel2 s,
  minLen - p <= fuel1 + s -> minLen - p <= fuel2 + s ->
  suffix_loop fuel1 oldStr newStr minLen p s =
  suffix_loop fuel2 oldStr newStr minLen p s.
Proof.
  induction fuel1 as [|fuel1 IH]; intros fuel2 s H1 H2.
  - destruct fuel2 as [|fuel2]; [done|]. cbn [suffix_loop].
    destruct (s <? minLen - p) eqn:Hlt; [apply Nat.ltb_lt in Hlt; lia|done].
  - cbn [suffix_loop].
    destruct (s <? minLen - p) eqn:Hlt; cbn [andb].
    2:{ destruct fuel2; [done|]. cbn [suffix_loop]. by rewrite Hlt. }
    apply Nat.ltb_lt in Hlt. destruct fuel2 as [|fuel2]; [lia|].
    cbn [suffix_loop]. apply Nat.ltb_lt in Hlt. rewrite Hlt. cbn [andb].
    case_bool_decide; [|done]. apply IH; lia.
Qed.

Lemma split3 {A} (l : list A) (p s : nat) :
  p + s <= length l ->
  take p l ++ take (length l - s - p) (drop p l) ++
  take (length l - (length l - s)) (drop (length l - s) l) = l.
Proof.
  intros Hps.
  rewrite (take_ge (drop (length l - s) l)) by (rewrite length_drop; lia).
  assert (drop (length l - s) l = drop (length l - s - p) (drop p l)) as ->.
  { rewrite drop_drop. f_equal. lia. }
  by rewrite !take_drop.
Qed.

Lemma common_prefix_take p :
  common_prefix p -> take p (chars oldStr) = take p (chars newStr).
Proof.
  intros [Hle Hk]. apply list_eq. intros k.
  destruct (decide (k < p)) as [Hlt|Hge].
  - rewrite !lookup_take_lt by done. rewrite <- !chars_get. by apply Hk.
  - rewrite !lookup_take_ge by lia. done.
Qed.

Lemma common_suffix_drop p s :
  common_suffix p s ->
  drop (String.length oldStr - s) (chars oldStr) =
  drop (String.length newStr - s) (chars newStr).
Proof.
  intros [Hle Hk]. apply list_eq. intros k.
  rewrite !lookup_drop.
  destruct (decide (k < s)) as [Hlt|Hge].
  - rewrite <- !chars_get. specialize (Hk (s - 1 - k)).
    replace (String.length oldStr - 1 - (s - 1 - k))
      with (String.length oldStr - s + k) in Hk by lia.
    replace (String.length newStr - 1 - (s - 1 - k))
      with (String.length newStr - s + k) in Hk by lia.
    apply Hk. lia.
  - rewrite !lookup_ge_None_2; [done|rewrite chars_length; lia..].
Qed.

Lemma findInlineDiff_round_trip :
  joinTexts (oldResult (findInlineDiff (Some oldStr) (Some newStr))) = oldStr /\
  joinTexts (newResult (findInlineDiff (Some oldStr) (Some newStr))) = newStr.
Proof.
  unfold findInlineDiff.
  change (default "" (Some oldStr)) with oldStr.
  change (default "" (Some newStr)) with newStr. fold minLen.
  destruct ((length _ =? 0) && (length _ =? 0)).
  { cbn. by rewrite !append_nil_r. }
  cbn [oldResult newResult].
  assert (common_prefix (prefix_loop minLen oldStr newStr minLen 0)) as Hp.
  { apply prefix_loop_common. split; [lia|]. intros k Hk. lia. }
  set (p := prefix_loop minLen oldStr newStr minLen 0) in *.
  assert (common_suffix p (suffix_loop minLen oldStr newStr minLen p 0)) as Hs.
  { apply suffix_loop_common. split; [lia|]. intros k Hk. lia. }
  set (s := suffix_loop minLen oldStr newStr minLen p 0) in *.
  pose proof Hp as [Hpm _]. pose proof Hs as [Hsm _].
  rewrite !joinTexts_pushIf. cbn [joinTexts foldr].
  split; apply chars_inj; rewrite !chars_app; cbn [chars app];
    rewrite !chars_jsSubstring by lia; rewrite Nat.sub_0_r, drop_0,
      <- !app_assoc.
  - rewrite <- !chars_length. apply split3. rewrite chars_length. lia.
  - rewrite (common_prefix_take p Hp).
    rewrite (take_ge (drop (String.length oldStr - s) (chars oldStr)))
      by (rewrite length_drop, chars_length; lia).
    rewrite (common_suffix_drop p s Hs).
    rewrite <- (take_ge (drop (String.length newStr - s) (chars newStr))
                 (String.length newStr - (String.length newStr - s)))
      by (rewrite length_drop, chars_length; lia).
    rewrite <- !chars_length. apply split3. rewrite chars_length. lia.
Qed.

End CharLevel.

(** *** Token level *)

Definition joinStrings (tokens : list string) : string :=
  foldr String.append "" tokens.

Lemma joinStrings_snoc tokens t : joinStrings (tokens ++ [t]) = joinStrings tokens +:+ t.
Proof.
  induction tokens as [|x tokens IH].
  - change (joinStrings ([] ++ [t])) with (t +:+ ""). by rewrite append_nil_r.
  - change (joinStrings ((x :: tokens) ++ [t])) with (x +:+ joinStrings (tokens ++ [t])).
    rewrite IH. symmetry. apply append_assoc.
Qed.

Lemma joinTexts_joinStrings segments :
  joinTexts segments = joinStrings (text <$> segments).
Proof.
  induction segments as [|x l IH]; [done|].
  change (joinTexts (x :: l)) with (text x +:+ joinTexts l). by rewrite IH.
Qed.

Lemma tokenize_step_join chars : forall tokens current wasSpace,
  let '(tokens', current', _) :=
    foldl tokenize_step (tokens, current, wasSpace) chars in
  joinStrings tokens' +:+ current' =
  joinStrings tokens +:+ current +:+ string_of_list_ascii chars.
Proof.
  induction chars as [|c chars IH]; intros tokens current wasSpace.
  - cbn [foldl string_of_list_ascii]. by rewrite append_nil_r.
  - cbn [foldl string_of_list_ascii]. unfold tokenize_step at 2.
    destruct (negb (falsy current) && negb (Bool.eqb (isSpace c) wasSpace)).
    + specialize (IH (tokens ++ [current]) ("" +:+ String c "") (isSpace c)).
      destruct (foldl tokenize_step _ chars) as [[tokens' current'] ?].
      rewrite IH, joinStrings_snoc. by rewrite !append_assoc.
    + specialize (IH tokens (current +:+ String c "") (isSpace c)).
      destruct (foldl tokenize_step _ chars) as [[tokens' current'] ?].
      rewrite IH. by rewrite !append_assoc.
Qed.

Lemma tokenize_join str : joinStrings (tokenize str) = str.
Proof.
  unfold tokenize.
  pose proof (tokenize_step_join (chars str) [] "" false) as H.
  destruct (foldl tokenize_step _ (chars str)) as [[tokens current] ?].
  rewrite string_of_list_ascii_of_string in H. cbn in H.
  destruct (falsy current) eqn:Hc; cbn [negb].
  - apply falsy_empty in Hc as ->. by rewrite append_nil_r in H.
  - by rewrite joinStrings_snoc.
Qed.

Lemma lookup_pred_default (l : list string) (k : nat) :
  0 < k -> k <= length l ->
  take k l = take (k - 1) l ++ [default "" (l !! (k - 1))].
Proof.
  intros Hk Hl.
  destruct (AlignerFacts.take_pred_snoc l k Hk Hl) as (x & -> & ->). done.
Qed.

(** Loop invariant of the token backtracking, as for the line aligner. *)
Lemma words_loop_texts dp oldTokens newTokens fuel : forall i j oldR newR,
  i + j <= fuel -> i <= length oldTokens -> j <= length newTokens ->
  text <$> oldResult (words_loop fuel dp oldTokens newTokens i j oldR newR) =
    take i oldTokens ++ (text <$> oldR) /\
  text <$> newResult (words_loop fuel dp oldTokens newTokens i j oldR newR) =
    take j newTokens ++ (text <$> newR).
Proof.
  induction fuel as [|fuel IH]; intros i j oldR newR Hle Hi Hj.
  - assert (i = 0) by lia. assert (j = 0) by lia. subst. by rewrite !take_0.
  - cbn [words_loop].
    destruct ((0 <? i) || (0 <? j)) eqn:Hc.
    2:{ apply orb_false_iff in Hc as [Hc1 Hc2]. apply Nat.ltb_ge in Hc1, Hc2.
        assert (i = 0) by lia. assert (j = 0) by lia. subst. by rewrite !take_0. }
    destruct ((0 <? i) && (0 <? j) &&
              bool_decide (oldTokens !! (i - 1) = newTokens !! (j - 1))) eqn:H1.
    { apply andb_true_iff in H1 as [H1 _]. apply andb_true_iff in H1 as [Hi0 Hj0].
      apply Nat.ltb_lt in Hi0, Hj0.
      destruct (IH (i - 1) (j - 1)
                  (mkSegment (default "" (oldTokens !! (i - 1))) false :: oldR)
                  (mkSegment (default "" (newTokens !! (j - 1))) false :: newR))
        as [-> ->]; [lia..|].
      rewrite (lookup_pred_default oldTokens i), (lookup_pred_default newTokens j) by done.
      by rewrite !fmap_cons, <- !app_assoc. }
    destruct ((0 <? j) && ((i =? 0) || (Aligner.get2 dp (i - 1) j <=? Aligner.get2 dp i (j - 1))))
      eqn:H2.
    { apply andb_true_iff in H2 as [Hj0 _]. apply Nat.ltb_lt in Hj0.
      destruct (IH i (j - 1) oldR
                  (mkSegment (default "" (newTokens !! (j - 1))) true :: newR))
        as [-> ->]; [lia..|].
      rewrite (lookup_pred_default newTokens j) by done.
      by rewrite !fmap_cons, <- !app_assoc. }
    assert (0 < i) as Hi0.
    { apply orb_true_iff in Hc as [Hc|Hc]; apply Nat.ltb_lt in Hc; [done|].
      apply andb_false_iff in H2 as [H2|H2].
      - apply Nat.ltb_ge in H2. lia.
      - apply orb_false_iff in H2 as [H2 _]. apply Nat.eqb_neq in H2. lia. }
    destruct (IH (i - 1) j
                (mkSegment (default "" (oldTokens !! (i - 1))) true :: oldR) newR)
      as [-> ->]; [lia..|].
    rewrite (lookup_pred_default oldTokens i) by done.
    by rewrite !fmap_cons, <- !app_assoc.
Qed.

(** Every turn lowers [i + j]: a fuel of [i + j] is never exhausted. *)
Lemma words_loop_fuel dp oldTokens newTokens fuel1 : forall fuel2 i j oldR newR,
  i + j <= fuel1 -> i + j <= fuel2 ->
  words_loop fuel1 dp oldTokens newTokens i j oldR newR =
  words_loop fuel2 dp oldTokens newTokens i j oldR newR.
Proof.
  induction fuel1 as [|fuel1 IH]; intros fuel2 i j oldR newR Hle1 Hle2.
  - assert (i = 0) by lia. assert (j = 0) by lia. subst. by destruct fuel2.
  - destruct fuel2 as [|fuel2].
    { assert (i = 0) by lia. assert (j = 0) by lia. subst. reflexivity. }
    cbn [words_loop].
    destruct ((0 <? i) || (0 <? j)) eqn:Hc; [|reflexivity].
    destruct ((0 <? i) && (0 <? j) &&
              bool_decide (oldTokens !! (i - 1) = newTokens !! (j - 1))) eqn:H1.
    { apply andb_true_iff in H1 as [H1 _]. apply andb_true_iff in H1 as [Hi Hj].
      apply Nat.ltb_lt in Hi, Hj. apply IH; lia. }
    destruct ((0 <? j) && ((i =? 0) || (Aligner.get2 dp (i - 1) j <=? Aligner.get2 dp i (j - 1))))
      eqn:H2.
    { apply andb_true_iff in H2 as [Hj _]. apply Nat.ltb_lt in Hj. apply IH; lia. }
    assert (0 < i) as Hi.
    { apply orb_true_iff in Hc as [Hc|Hc]; apply Nat.ltb_lt in Hc; [done|].
      apply andb_false_iff in H2 as [H2|H2].
      - apply Nat.ltb_ge in H2. lia.
      - apply orb_false_iff in H2 as [H2 _]. apply Nat.eqb_neq in H2. lia. }
    apply IH; lia.
Qed.

Lemma merge_step_join merged item :
  joinTexts (merge_step merged item) = joinTexts merged +:+ text item.
Proof.
  unfold merge_step. destruct (last merged) as [l|] eqn:Hl.
  - destruct (Bool.eqb (changed l) (changed item)); [|apply joinTexts_snoc].
    apply last_Some in Hl as [init ->].
    rewrite removelast_last, !joinTexts_snoc. cbn [text]. symmetry. apply append_assoc.
  - apply joinTexts_snoc.
Qed.

Lemma merge_join arr : joinTexts (merge arr) = joinTexts arr.
Proof.
  unfold merge.
  assert (forall acc, joinTexts (foldl merge_step acc arr) =
                      joinTexts acc +:+ joinTexts arr) as H; [|apply (H [])].
  induction arr as [|x arr IH]; intros acc.
  - cbn [foldl]. change (joinTexts []) with "". by rewrite append_nil_r.
  - cbn [foldl]. rewrite IH, merge_step_join.
    change (joinTexts (x :: arr)) with (text x +:+ joinTexts arr).
    apply append_assoc.
Qed.

Lemma findInlineDiffWords_round_trip oldStr newStr :
  joinTexts (oldResult (findInlineDiffWords (Some oldStr) (Some newStr))) = oldStr /\
  joinTexts (newResult (findInlineDiffWords (Some oldStr) (Some newStr))) = newStr.
Proof.
  unfold findInlineDiffWords.
  change (default "" (Some oldStr)) with oldStr.
  change (default "" (Some newStr)) with newStr.
  cbn [oldResult newResult]. rewrite !merge_join, !joinTexts_joinStrings.
  destruct (words_loop_texts
              (Aligner.computeLCS (tokenize oldStr) (tokenize newStr))
              (tokenize oldStr) (tokenize newStr)
              (length (tokenize oldStr) + length (tokenize newStr))
              (length (tokenize oldStr)) (length (tokenize newStr)) [] [])
    as [-> ->]; [lia..|].
  rewrite !firstn_all. cbn [fmap list_fmap]. rewrite !app_nil_r.
  by rewrite !tokenize_join.
Qed.

(** C4. For every pair of strings, both inline strategies round-trip:
    the texts of the old-side segments, joined in order, are the old
    string, and the texts of the new-side segments are the new string. *)
Theorem inline_diff_round_trip (oldStr newStr : string) :
  (joinTexts (oldResult (findInlineDiff (Some oldStr) (Some newStr))) = oldStr /\
   joinTexts (newResult (findInlineDiff (Some oldStr) (Some newStr))) = newStr) /\
  (joinTexts (oldResult (findInlineDiffWords (Some oldStr) (Some newStr))) = oldStr /\
   joinTexts (newResult (findInlineDiffWords (Some oldStr) (Some newStr))) = newStr).
Proof.
  split.
  - apply findInlineDiff_round_trip.
  - apply findInlineDiffWords_round_trip.
Qed.

End InlineFacts.

(** ** Properties of the JSON diff *)

Module JsonFacts.
Import JsonDiff.

Lemma json_ind' (P : json -> Prop) :
  P JNull -> (forall b, P (JBool b)) -> (forall q, P (JNumber q)) ->
  (forall s, P (JString s)) ->
  (forall items, Forall P items -> P (JArray items)) ->
  (forall fields, Forall (fun f => P f.2) fields -> P (JObject fields)) ->
  forall v, P v.
Proof.
  intros Hnull Hbool Hnum Hstr Harr Hobj. fix IH 1. intros [|b|q|s|items|fields].
  - exact Hnull.
  - apply Hbool.
  - apply Hnum.
  - apply Hstr.
  - apply Harr. induction items as [|x items IHl]; constructor; [apply IH|exact IHl].
  - apply Hobj. induction fields as [|[k x] fields IHl]; constructor;
      [apply IH|exact IHl].
Qed.

Lemma DiffNode_ind' (P : DiffNode -> Prop) :
  (forall n, match children n with
             | Some cs => Forall P cs
             | None => True
             end -> P n) ->
  forall n, P n.
Proof.
  intros H. fix IH 1. intros n. apply H.
  destruct n as [k t p ov nv ot nt vt cs hc]. cbn.
  destruct cs as [l|]; [|exact I].
  induction l as [|c l IHl]; constructor; [apply IH|exact IHl].
Qed.

Lemma nodes_unfold n :
  nodes n = n :: match children n with
                 | Some cs => mjoin (nodes <$> cs)
                 | None => []
                 end.
Proof.
  destruct n as [k t p ov nv ot nt vt cs hc]. cbn [nodes children]. f_equal.
  destruct cs as [l|]; [|done].
  induction l as [|c l IH]; [done|]. rewrite fmap_cons. cbn [mjoin list_join].
  f_equal. exact IH.
Qed.

(** *** Keys and fields *)

Lemma insertKey_elem k sorted x : x ∈ insertKey k sorted <-> x = k \/ x ∈ sorted.
Proof.
  induction sorted as [|y rest IH]; cbn [insertKey].
  - rewrite list_elem_of_singleton, elem_of_nil. tauto.
  - destruct (String.leb k y); rewrite !elem_of_cons; [done|].
    rewrite IH. tauto.
Qed.

Lemma sortKeys_elem keys x : x ∈ sortKeys keys <-> x ∈ keys.
Proof.
  unfold sortKeys. induction keys as [|k keys IH]; cbn [foldr]; [done|].
  rewrite insertKey_elem, IH, elem_of_cons. done.
Qed.

Lemma getField_Some fields k :
  k ∈ fields.*1 -> exists v, getField fields k = Some v /\ v ∈ fields.*2.
Proof.
  induction fields as [|[k' v'] fields IH]; cbn [getField].
  - intros H. by apply elem_of_nil in H.
  - rewrite fmap_cons, elem_of_cons. cbn [fst]. intros Hk.
    destruct (String.eqb k' k) eqn:He.
    + exists v'. split; [done|]. rewrite fmap_cons. left.
    + apply String.eqb_neq in He. destruct Hk as [->|Hk]; [done|].
      destruct (IH Hk) as (v & Hv & Hin). exists v. split; [done|].
      rewrite fmap_cons. by right.
Qed.

Lemma depth_item items v : v ∈ items -> depth v < depth (JArray items).
Proof.
  cbn [depth]. induction items as [|x items IH]; intros Hv.
  - by apply elem_of_nil in Hv.
  - apply elem_of_cons in Hv as [->|Hv]; cbn [foldr]; [lia|].
    specialize (IH Hv). lia.
Qed.

Lemma depth_field fields v : v ∈ fields.*2 -> depth v < depth (JObject fields).
Proof.
  cbn [depth]. induction fields as [|[k x] fields IH]; intros Hv.
  - by apply elem_of_nil in Hv.
  - rewrite fmap_cons in Hv. apply elem_of_cons in Hv as [->|Hv]; cbn [foldr snd]; [lia|].
    specialize (IH Hv). lia.
Qed.

(** *** Comparing a value with itself *)

(** What holds of every node when nothing changed: the node is
    unchanged; a node with children says [hasChanges: false], a node
    without children has no such field. *)
Definition quiet (n : DiffNode) : Prop :=
  type n = unchanged /\
  hasChanges n = if isLeaf n then None else Some false.

Lemma nodes_withKey k c :
  nodes (withKey k c) = withKey k c :: tail (nodes c).
Proof. by rewrite !nodes_unfold. Qed.

Lemma quiet_withKey k c : Forall quiet (nodes c) -> Forall quiet (nodes (withKey k c)).
Proof.
  rewrite nodes_withKey, (nodes_unfold c). intros H.
  apply Forall_cons in H as [Hc Hrest]. by constructor.
Qed.

Definition quiet_result (r : NodeKey * option DiffNode) : Prop :=
  exists c, r.2 = Some c /\ Forall quiet (nodes c).

Lemma collectChildren_quiet results :
  Forall quiet_result results ->
  (collectChildren results).2 = false /\
  Forall quiet (mjoin (nodes <$> (collectChildren results).1)).
Proof.
  unfold collectChildren.
  assert (forall st,
            st.2 = false -> Forall quiet (mjoin (nodes <$> st.1)) ->
            Forall quiet_result results ->
            (foldl pushChild st results).2 = false /\
            Forall quiet (mjoin (nodes <$> (foldl pushChild st results).1))) as H.
  { induction results as [|r results IH]; intros st Hst Hq Hall; cbn [foldl]; [done|].
    apply Forall_cons in Hall as [(c & Hc & Hcq) Hall].
    apply IH; [| |done]; unfold pushChild; rewrite Hc; cbn [fst snd].
    - pose proof Hcq as Hcq'. rewrite nodes_unfold in Hcq'.
      apply Forall_cons in Hcq' as [[Ht _] _].
      by rewrite bool_decide_eq_false_2 by (by intros ?).
    - rewrite fmap_app, join_app. apply Forall_app. split; [done|].
      cbn [fmap list_fmap mjoin list_join]. rewrite app_nil_r.
      by apply quiet_withKey. }
  intros Hall. apply H; [done|constructor|done].
Qed.

Lemma strictEq_refl v : isContainer v = false -> strictEq v v = true.
Proof.
  destruct v; cbn; try done; intros _.
  - by destruct b.
  - apply Qeq_bool_iff. reflexivity.
  - apply String.eqb_refl.
Qed.

Lemma compare_fuel_primitive fuel v p :
  isContainer v = false ->
  compare_fuel (S fuel) (Some v) (Some v) p =
  Some (mkNode None unchanged p (Some v) (Some v) None None
               (getValueType (Some v)) None None).
Proof.
  intros Hv. cbn [compare_fuel]. rewrite String.eqb_refl. cbn [negb].
  pose proof (strictEq_refl v Hv) as He.
  destruct v; try done; by rewrite He.
Qed.

Lemma compare_fuel_same fuel : forall v p,
  depth v < fuel ->
  exists t, compare_fuel fuel (Some v) (Some v) p = Some t /\ Forall quiet (nodes t).
Proof.
  induction fuel as [|fuel IH]; intros v p Hd; [lia|].
  destruct (isContainer v) eqn:Hv.
  2:{ rewrite compare_fuel_primitive by done. eexists; split; [reflexivity|].
      rewrite nodes_unfold. cbn [children]. constructor; [by split|constructor]. }
  cbn [compare_fuel]. rewrite String.eqb_refl. cbn [negb].
  destruct v as [|b|q|s|items|fields]; try done.
  - eexists; split; [reflexivity|].
    unfold compareArrays. rewrite Nat.max_id.
    destruct (collectChildren_quiet
                ((fun i => (KeyIndex i,
                            compare_fuel fuel (items !! i) (items !! i) (indexPath p i)))
                 <$> seq 0 (length items))) as [Hc Hq].
    { apply Forall_fmap, Forall_forall. intros i Hi.
      apply elem_of_seq in Hi as [_ Hi]. cbn in Hi.
      destruct (lookup_lt_is_Some_2 items i Hi) as [x Hx].
      pose proof (depth_item items x (list_elem_of_lookup_2 _ _ _ Hx)) as Hdx.
      destruct (IH x (indexPath p i)) as (t & Ht & Hqt); [lia|].
      exists t. cbn [snd]. by rewrite Hx. }
    rewrite nodes_unfold. cbn [children]. rewrite Hc.
    constructor; [by split|done].
  - eexists; split; [reflexivity|].
    unfold compareObjects.
    destruct (collectChildren_quiet
                ((fun k => (KeyName k,
                            compare_fuel fuel (getField fields k) (getField fields k)
                                         (fieldPath p k)))
                 <$> sortKeys (remove_dups (objectKeys fields ++ objectKeys fields))))
      as [Hc Hq].
    { apply Forall_fmap, Forall_forall. intros k Hk.
      rewrite sortKeys_elem, elem_of_remove_dups in Hk.
      assert (k ∈ fields.*1) as Hk'.
      { unfold objectKeys in Hk. rewrite elem_of_app, !elem_of_remove_dups in Hk. tauto. }
      destruct (getField_Some fields k Hk') as (x & Hx & Hin).
      pose proof (depth_field fields x Hin) as Hdx.
      destruct (IH x (fieldPath p k)) as (t & Ht & Hqt); [lia|].
      exists t. cbn [snd]. by rewrite Hx. }
    rewrite nodes_unfold. cbn [children]. rewrite Hc.
    constructor; [by split|done].
Qed.

(** C5, as the code has it: comparing a JSON value with itself yields a
    tree in which every node is unchanged; the nodes with children say
    [hasChanges: false], and the nodes without children carry no
    [hasChanges] field at all. *)
Theorem compareJSON_same_value (v : json) (p : string) :
  exists t,
    compareJSON (Some v) (Some v) p = Some t /\
    Forall (fun n => type n = unchanged /\
                     hasChanges n = if isLeaf n then None else Some false)
           (nodes t).
Proof.
  unfold compareJSON. cbn [odepth]. rewrite Nat.min_id.
  apply compare_fuel_same. lia.
Qed.

(** C5 as stated fails on a primitive: the leaf that [compareJSON(1, 1)]
    returns has no [hasChanges] field, so [hasChanges === false] is
    false for it. *)
Lemma compareJSON_same_value_counterexample :
  let leaf :=
    mkNode None unchanged "" (Some (JNumber 1)) (Some (JNumber 1))
           None None "number" None None in
  compareJSON (Some (JNumber 1)) (Some (JNumber 1)) "" = Some leaf /\
  nodes leaf = [leaf] /\
  hasChanges leaf = None /\
  ~ Forall (fun n => hasChanges n = Some false) (nodes leaf).
Proof.
  cbv zeta. split; [reflexivity|]. split; [reflexivity|]. split; [reflexivity|].
  intros H. apply Forall_inv in H. discriminate.
Qed.

(** *** The budget of the recursion is never exhausted *)

Lemma odepth_getField fields k : odepth (getField fields k) < depth (JObject fields).
Proof.
  destruct (getField fields k) as [x|] eqn:Hx; [|cbn; lia].
  apply depth_field. clear -Hx.
  induction fields as [|[k' v'] fields IH]; cbn [getField] in Hx; [done|].
  rewrite fmap_cons. destruct (String.eqb k' k).
  - injection Hx as <-. left.
  - right. by apply IH.
Qed.

Lemma odepth_lookup (items : list json) i : odepth (items !! i) < depth (JArray items).
Proof.
  destruct (items !! i) as [x|] eqn:Hx; [|cbn; lia].
  apply depth_item. by eapply list_elem_of_lookup_2.
Qed.

Lemma buildTree_stable fuel1 : forall fuel2 side v p,
  depth v < fuel1 -> depth v < fuel2 ->
  buildTree fuel1 side v p = buildTree fuel2 side v p.
Proof.
  induction fuel1 as [|fuel1 IH]; intros fuel2 side v p H1 H2; [lia|].
  destruct fuel2 as [|fuel2]; [lia|].
  destruct v as [|b|q|s|items|fields]; try done; cbn [buildTree]; f_equal.
  - apply imap_ext. intros i x Hx. f_equal.
    pose proof (odepth_lookup items i) as Hd. rewrite Hx in Hd. cbn [odepth] in Hd.
    apply IH; lia.
  - apply list_fmap_ext. intros _ k _. cbv zeta. f_equal.
    pose proof (odepth_getField fields k) as Hd.
    destruct (getField fields k) as [x|]; cbn [odepth] in Hd.
    + change (default JNull (Some x)) with x. apply IH; lia.
    + change (default JNull None) with JNull. apply IH; cbn [depth]; lia.
Qed.

Lemma compare_fuel_stable fuel1 : forall fuel2 oldVal newVal p,
  Nat.min (odepth oldVal) (odepth newVal) < fuel1 ->
  Nat.min (odepth oldVal) (odepth newVal) < fuel2 ->
  compare_fuel fuel1 oldVal newVal p = compare_fuel fuel2 oldVal newVal p.
Proof.
  induction fuel1 as [|fuel1 IH]; intros fuel2 oldVal newVal p H1 H2; [lia|].
  destruct fuel2 as [|fuel2]; [lia|].
  cbn [compare_fuel].
  destruct oldVal as [ov|], newVal as [nv|]; try done.
  destruct (negb _); [done|].
  destruct ov as [| | | |oldArr|oldObj], nv as [| | | |newArr|newObj]; try done;
    f_equal.
  - unfold compareArrays.
    assert (forall i, compare_fuel fuel1 (oldArr !! i) (newArr !! i) (indexPath p i) =
                      compare_fuel fuel2 (oldArr !! i) (newArr !! i) (indexPath p i)) as He.
    { intros i. pose proof (odepth_lookup oldArr i). pose proof (odepth_lookup newArr i).
      cbn [odepth] in H1, H2. apply IH; lia. }
    by setoid_rewrite He.
  - unfold compareObjects.
    assert (forall k, compare_fuel fuel1 (getField oldObj k) (getField newObj k)
                                   (fieldPath p k) =
                      compare_fuel fuel2 (getField oldObj k) (getField newObj k)
                                   (fieldPath p k)) as He.
    { intros k. pose proof (odepth_getField oldObj k). pose proof (odepth_getField newObj k).
      cbn [odepth] in H1, H2. apply IH; lia. }
    by setoid_rewrite He.
Qed.

(** *** Counting the changes *)

Definition countAll (ns : list DiffNode) (counts : gmap string nat) : gmap string nat :=
  foldl (fun c n => countNode n c) counts ns.

(** [traverse] counts the nodes of the tree one by one, parents first. *)
Lemma traverse_countAll n : forall counts,
  traverse n counts = countAll (nodes n) counts.
Proof.
  induction n as [n IH] using DiffNode_ind'. intros counts.
  rewrite nodes_unfold. unfold countAll. cbn [foldl].
  destruct n as [k t p ov nv ot nt vt cs hc]. cbn [traverse children] in *.
  set (n := mkNode k t p ov nv ot nt vt cs hc).
  generalize (countNode n counts). clear counts.
  destruct cs as [l|]; [|done].
  induction IH as [|c l Hc _ IHl]; intros counts; [done|].
  rewrite fmap_cons. cbn [mjoin list_join]. rewrite foldl_app, <- IHl, Hc. done.
Qed.

Lemma countNode_alt n counts :
  countNode n counts =
  if isLeaf n && bool_decide (type n <> unchanged)
  then increment (kindName (type n)) counts else counts.
Proof.
  unfold countNode. destruct (type n), (isLeaf n); done.
Qed.

Definition counted (name : string) (n : DiffNode) : Prop :=
  (type n <> unchanged /\ kindName (type n) = name) /\ isLeaf n = true.

#[local] Instance counted_dec name n : Decision (counted name n).
Proof. unfold counted. apply _. Defined.

Lemma countNode_lookup n counts name :
  countNode n counts !! name =
  (if bool_decide (counted name n) then S else id) <$> counts !! name.
Proof.
  rewrite countNode_alt. destruct (decide (counted name n)) as [Hc|Hc].
  - rewrite (bool_decide_eq_true_2 _ Hc). destruct Hc as [[Ht <-] Hl].
    rewrite Hl, bool_decide_eq_true_2 by done. cbn [andb].
    unfold increment. by rewrite lookup_alter_eq.
  - rewrite (bool_decide_eq_false_2 _ Hc).
    destruct (isLeaf n && bool_decide (type n <> unchanged)) eqn:Hb.
    + apply andb_true_iff in Hb as [Hl Ht]. apply bool_decide_eq_true in Ht.
      unfold increment. rewrite lookup_alter_ne.
      * by destruct (counts !! name).
      * intros He. apply Hc. done.
    + by destruct (counts !! name).
Qed.

Lemma countAll_lookup ns : forall counts name,
  countAll ns counts !! name =
  (fun x => x + length (filter (counted name) ns)) <$> counts !! name.
Proof.
  unfold countAll.
  induction ns as [|n ns IH]; intros counts name; cbn [foldl].
  - rewrite filter_nil. cbn. destruct (counts !! name); cbn; [f_equal; lia|done].
  - rewrite IH, countNode_lookup, filter_cons.
    destruct (counts !! name) as [x|]; cbn [fmap option_fmap option_map]; [|done].
    case_bool_decide; case_decide; try done; cbn; f_equal; lia.
Qed.

Lemma counted_leaf k n :
  k <> unchanged ->
  counted (kindName k) n <-> type n = k /\ isLeaf n = true.
Proof.
  intros Hk. unfold counted. split.
  - intros [[Hn He] Hl]. split; [|done]. by destruct (type n), k.
  - intros [<- Hl]. done.
Qed.

Lemma countChanges_kind k t :
  k <> unchanged ->
  countChanges (Some t) !! kindName k = Some (leafCount k t).
Proof.
  intros Hk. cbn [countChanges]. rewrite traverse_countAll, countAll_lookup.
  unfold leafCount.
  assert (counts0 !! kindName k = Some 0) as -> by (by destruct k).
  cbn. f_equal. f_equal.
  apply list_filter_iff. intros n. by apply counted_leaf.
Qed.

(** C6, as the code has it: [countChanges] counts the leaves of a tree
    under three kinds, added, removed and modified, each leaf once and
    no node that has children; it keeps no count of unchanged leaves. *)
Theorem countChanges_leaf_counts (t : DiffNode) :
  countChanges (Some t) !! "added" = Some (leafCount added t) /\
  countChanges (Some t) !! "removed" = Some (leafCount removed t) /\
  countChanges (Some t) !! "modified" = Some (leafCount modified t) /\
  countChanges (Some t) !! "unchanged" = None.
Proof.
  split; [|split; [|split]].
  - by apply (countChanges_kind added).
  - by apply (countChanges_kind removed).
  - by apply (countChanges_kind modified).
  - cbn [countChanges]. rewrite traverse_countAll, countAll_lookup. done.
Qed.

(** C6 as stated fails on the fourth kind: an unchanged leaf is counted
    nowhere, and the result has no [unchanged] property. *)
Lemma countChanges_leaf_counts_counterexample :
  let leaf :=
    mkNode None unchanged "" (Some (JNumber 1)) (Some (JNumber 1))
           None None "number" None None in
  leafCount unchanged leaf = 1 /\
  countChanges (Some leaf) !! kindName unchanged = None /\
  countChanges (Some leaf) !! kindName unchanged <> Some (leafCount unchanged leaf).
Proof.
  cbv zeta. split; [reflexivity|]. split; [reflexivity|]. discriminate.
Qed.

End JsonFacts.

(** ** Properties of the reconciler *)

Module ReconcilerFacts.
Import Reconciler.

Lemma pushed_default item :
  pushed (splitLeft item) (splitRight item) None = defaultLines item.
Proof. unfold splitLeft, splitRight, defaultLines. by destruct (type item). Qed.

Lemma decisionFor_empty diff groups i :
  decisionFor (mkState diff groups ∅) i = None.
Proof.
  unfold decisionFor. cbn. by destruct (getGroupIdForLine groups i).
Qed.

Lemma pushed_removed item decision :
  type item = removed ->
  pushed (splitLeft item) (splitRight item) decision =
  if decide (restores decision) then [leftContent item] else [].
Proof.
  intros Ht. unfold splitLeft, splitRight, pushed, restores, chose. rewrite Ht. cbn.
  repeat case_bool_decide; case_decide; cbn; try done; intuition congruence.
Qed.

(** The line's group is the first group whose lines hold the index. *)
Lemma getGroupIdForLine_first pre g post i :
  Forall (fun g' => i ∉ lines g') pre -> i ∈ lines g ->
  getGroupIdForLine (pre ++ g :: post) i = Some (id g).
Proof.
  intros Hpre Hi. induction Hpre as [|g' pre Hg' _ IH]; cbn [app getGroupIdForLine].
  - by rewrite bool_decide_eq_true_2.
  - by rewrite bool_decide_eq_false_2.
Qed.

Lemma getGroupIdForLine_absent groups i :
  Forall (fun g => i ∉ lines g) groups -> getGroupIdForLine groups i = None.
Proof.
  induction 1 as [|g groups Hg _ IH]; cbn [getGroupIdForLine]; [done|].
  by rewrite bool_decide_eq_false_2.
Qed.

(** C2. With no decision taken, each entry contributes its default: a
    modified or an added entry its right content, a removed entry
    nothing, an unchanged entry its content. With decisions set, a
    removed entry contributes its left content exactly when the
    decision stored for its group, the first group whose lines hold the
    index of the entry, is [restore], [original] or [both]; it
    contributes nothing otherwise, and nothing when no group holds its
    index. *)
Theorem generateMergedCSS_decisions :
  (forall diff groups,
     let st := mkState (Some diff) groups ∅ in
     pushes st diff = defaultLines <$> diff /\
     generateMergedCSS st = joinLines (mjoin (defaultLines <$> diff))) /\
  (forall st diff i item,
     diffResult st = Some diff -> diff !! i = Some item -> type item = removed ->
     (forall pre g post,
        diffGroups st = pre ++ g :: post ->
        Forall (fun g' => i ∉ lines g') pre -> i ∈ lines g ->
        pushes st diff !! i =
        Some (if decide (restores (mergeDecisions st !! id g))
              then [leftContent item] else [])) /\
     (Forall (fun g => i ∉ lines g) (diffGroups st) ->
      pushes st diff !! i = Some [])).
Proof.
  split.
  - intros diff groups st.
    assert (pushes st diff = defaultLines <$> diff) as Hp.
    { unfold pushes. rewrite <- (imap_const defaultLines diff).
      apply imap_ext. intros i item _.
      subst st. by rewrite decisionFor_empty, pushed_default. }
    split; [done|]. unfold generateMergedCSS, mergedLines. cbn [diffResult st].
    by rewrite Hp.
  - intros st diff i item _ Hi Ht. unfold pushes.
    rewrite list_lookup_imap, Hi. cbn [fmap option_fmap option_map].
    rewrite pushed_removed by done. unfold decisionFor. split.
    + intros pre g post Hgroups Hpre Hg.
      by rewrite Hgroups, getGroupIdForLine_first.
    + intros Hnone. by rewrite getGroupIdForLine_absent.
Qed.

Lemma generateMergedCSS_decisions_witness :
  let diff :=
    [mkEntry unchanged (Some 1) (Some 1) (Some "a") (Some "a") None;
     mkEntry removed (Some 2) None (Some "b") None None] in
  let st := mkState (Some diff) [mkGroup 0 removed [1]] {[ 0 := "restore" ]} in
  pushes st diff !! 1 = Some [Some "b"] /\
  generateMergedCSS st = "a
b".
Proof.
  intros diff st. split; [|by vm_compute].
  assert (1 ∈ lines (mkGroup 0 removed [1])) as Hin by (cbn; left).
  pose proof (proj1 (proj2 generateMergedCSS_decisions st diff 1
                       (mkEntry removed (Some 2) None (Some "b") None None)
                       eq_refl eq_refl eq_refl)
                [] (mkGroup 0 removed [1]) [] eq_refl (Forall_nil_2 _) Hin) as H.
  vm_compute in H. vm_compute. exact H.
Defined.

End ReconcilerFacts.

(** ** More on the similarity scorer: the table and its recurrence *)

Module EditDistanceFacts.
Import Similarity Recurrences.
Import SimilarityFacts.

Lemma lev_rec_S a b i j :
  lev_rec a b (S i) (S j) =
  if bool_decide (String.get i b = String.get j a)
  then lev_rec a b i j
  else min3 (lev_rec a b i j + 1) (lev_rec a b (S i) j + 1) (lev_rec a b i (S j) + 1).
Proof. reflexivity. Qed.

Lemma lev_rec_0_r a b i : lev_rec a b i 0 = i.
Proof. by destruct i. Qed.

Section Table.
Variables a b : string.
Let n := String.length a.
Let m := String.length b.

Definition row_is (k upto : nat) (row : list nat) : Prop :=
  length row = upto + 1 /\
  forall j, j <= upto -> row !! j = Some (lev_rec a b k j).

(** Rows [0..i] are complete and hold the recurrence; the rows below are
    still [[k]]. *)
Definition rows_filled (i : nat) (matrix : list (list nat)) : Prop :=
  length matrix = m + 1 /\
  (forall k, k <= i -> exists row, matrix !! k = Some row /\ row_is k n row) /\
  (forall k, i < k <= m -> matrix !! k = Some [k]).

Definition cells_filled (i j : nat) (matrix : list (list nat)) : Prop :=
  length matrix = m + 1 /\
  (forall k, k < i -> exists row, matrix !! k = Some row /\ row_is k n row) /\
  (exists row, matrix !! i = Some row /\ row_is i j row) /\
  (forall k, i < k <= m -> matrix !! k = Some [k]).

Lemma lev_init_rows_filled : rows_filled 0 (lev_init a b).
Proof.
  unfold lev_init. fold n m.
  pose (I := fun (j : nat) (mx : list (list nat)) =>
    length mx = m + 1 /\
    (exists row, mx !! 0 = Some row /\ length row = Nat.max 1 j /\
                 forall j', j' < Nat.max 1 j -> row !! j' = Some j') /\
    (forall k, 0 < k <= m -> mx !! k = Some [k])).
  assert (I (0 + (n + 1)) (foldl (fun mx j => mset mx 0 j j)
            ((fun i => [i]) <$> seq 0 (m + 1)) (seq 0 (n + 1)))) as HI.
  { apply (foldl_seq_inv I).
    - split; [|split].
      + by rewrite length_fmap, length_seq.
      + exists [0]. rewrite list_lookup_fmap, lookup_seq_lt by lia.
        split; [done|]. split; [done|]. intros j' Hj'.
        assert (j' = 0) as -> by lia. done.
      + intros k Hk. rewrite list_lookup_fmap, lookup_seq_lt by lia. done.
    - intros j mx Hj (Hlen & (row & Hrow & Hrl & Hr) & Hrest).
      split; [|split].
      + by rewrite mset_length.
      + exists (aset row j j). split; [by apply mset_lookup_eq|].
        destruct j as [|j].
        * change (Nat.max 1 0) with 1 in *. change (Nat.max 1 1) with 1.
          unfold aset. rewrite Hrl. change (0 <? 1) with true. cbv iota.
          rewrite length_insert. split; [done|]. intros j' Hj'.
          assert (j' = 0) as -> by lia. apply list_lookup_insert_eq. lia.
        * replace (Nat.max 1 (S j)) with (S j) in Hrl, Hr by lia.
          rewrite <- Hrl, aset_end, length_app. cbn [length].
          split; [lia|]. intros j' Hj'.
          destruct (decide (j' = S j)) as [->|Hne].
          -- rewrite lookup_app_r by lia. by rewrite Hrl, Nat.sub_diag.
          -- rewrite lookup_app_l by lia. apply Hr. lia.
      + intros k Hk. rewrite mset_lookup_ne by lia. by apply Hrest. }
  destruct HI as (Hlen & (row & Hrow & Hrl & Hr) & Hrest).
  split; [done|]. split; [|done].
  intros k Hk. assert (k = 0) as -> by lia.
  exists row. split; [done|]. split; [lia|].
  intros j Hj. cbn [lev_rec]. apply Hr. lia.
Qed.

Lemma lev_cell_cells_filled i j matrix :
  1 <= i -> j < n ->
  cells_filled i j matrix -> cells_filled i (S j) (lev_cell a b matrix i (S j)).
Proof.
  intros Hi Hj (Hlen & Hprev & (row & Hrow & Hrl & Hr) & Hrest).
  destruct (Hprev (i - 1)) as (prev & Hprow & Hpl & Hp); [lia|].
  assert (lev_cell a b matrix i (S j) = mset matrix i (S j) (lev_rec a b i (S j)))
    as ->.
  { unfold lev_cell. destruct i as [|p]; [lia|].
    replace (S p - 1) with p in * by lia. replace (S j - 1) with j by lia.
    rewrite lev_rec_S.
    rewrite (mget_Some _ _ _ _ _ Hprow (Hp j ltac:(lia))).
    rewrite (mget_Some _ _ _ _ _ Hrow (Hr j ltac:(lia))).
    rewrite (mget_Some _ _ _ _ _ Hprow (Hp (S j) ltac:(lia))).
    by case_bool_decide. }
  split; [by rewrite mset_length|]. split; [|split].
  - intros k Hk. rewrite mset_lookup_ne by lia. by apply Hprev.
  - exists (aset row (S j) (lev_rec a b i (S j))).
    split; [by apply mset_lookup_eq|].
    assert (aset row (S j) (lev_rec a b i (S j)) = row ++ [lev_rec a b i (S j)]) as ->.
    { rewrite <- aset_end. f_equal. lia. }
    split; [rewrite length_app; cbn [length]; lia|].
    intros j' Hj'. destruct (decide (j' = S j)) as [->|Hne].
    + rewrite lookup_app_r by lia. by replace (S j - length row) with 0 by lia.
    + rewrite lookup_app_l by lia. apply Hr. lia.
  - intros k Hk. rewrite mset_lookup_ne by lia. by apply Hrest.
Qed.

Lemma lev_row_rows_filled i matrix :
  1 <= i <= m -> rows_filled (i - 1) matrix -> rows_filled i (lev_row a b matrix i).
Proof.
  intros Hi (Hlen & Hprev & Hrest).
  unfold lev_row. fold n.
  assert (cells_filled i n (foldl (fun mx j => lev_cell a b mx i j) matrix (seq 1 n)))
    as (Hlen' & Hprev' & Hcur & Hrest').
  { pose (P := fun (j : nat) mx => cells_filled i (Nat.pred j) mx).
    change (P (S n) (foldl (fun mx j => lev_cell a b mx i j) matrix (seq 1 n))).
    apply (foldl_seq_inv P _ n 1).
    - split; [done|]. split; [|split].
      + intros k Hk. apply Hprev. lia.
      + exists [i]. split; [apply Hrest; lia|]. split; [done|].
        intros j Hj. cbn in Hj. assert (j = 0) as -> by lia.
        by rewrite lev_rec_0_r.
      + intros k Hk. apply Hrest. lia.
    - intros j mx Hj Hm. unfold P in *.
      destruct j as [|j]; [lia|]. cbn [Nat.pred] in *.
      apply lev_cell_cells_filled; [lia|lia|done]. }
  split; [done|]. split; [|done].
  intros k Hk. destruct (decide (k = i)) as [->|Hne]; [done|].
  apply Hprev'. lia.
Qed.

Lemma lev_fill_rows_filled :
  rows_filled m (foldl (lev_row a b) (lev_init a b) (seq 1 m)).
Proof.
  pose (P := fun (i : nat) mx => rows_filled (Nat.pred i) mx).
  change (P (S m) (foldl (lev_row a b) (lev_init a b) (seq 1 m))).
  apply (foldl_seq_inv P _ m 1).
  - apply lev_init_rows_filled.
  - intros i mx Hi Hm. unfold P in *. cbn [Nat.pred].
    apply lev_row_rows_filled; [lia|]. by rewrite Nat.sub_1_r.
Qed.

(** The table computes the recurrence. *)
Lemma levenshteinDistance_rec : levenshteinDistance a b = lev_rec a b m n.
Proof.
  unfold levenshteinDistance. fold n m.
  destruct (n =? 0) eqn:Hn.
  { apply Nat.eqb_eq in Hn. rewrite Hn. by rewrite lev_rec_0_r. }
  destruct (m =? 0) eqn:Hm.
  { apply Nat.eqb_eq in Hm. by rewrite Hm. }
  destruct lev_fill_rows_filled as (_ & Hrows & _).
  destruct (Hrows m) as (row & Hrow & _ & Hr); [lia|].
  apply (mget_Some _ _ _ row); [done|]. by apply Hr.
Qed.

End Table.

(** *** What the recurrence gives *)

Lemma min3_le_l x y z : min3 x y z <= x.
Proof. unfold min3. lia. Qed.

Lemma lev_rec_upper a b i : forall j, lev_rec a b i j <= Nat.max i j.
Proof.
  induction i as [|i IHi]; intros j; [cbn; lia|].
  induction j as [|j IHj]; [rewrite lev_rec_0_r; lia|].
  rewrite lev_rec_S. specialize (IHi j).
  case_bool_decide; [lia|]. pose proof (min3_le_l (lev_rec a b i j + 1)
    (lev_rec a b (S i) j + 1) (lev_rec a b i (S j) + 1)). lia.
Qed.

Lemma lev_rec_lower a b i : forall j, i - j <= lev_rec a b i j /\ j - i <= lev_rec a b i j.
Proof.
  induction i as [|i IHi]; intros j; [cbn; lia|].
  induction j as [|j IHj]; [rewrite lev_rec_0_r; lia|].
  rewrite lev_rec_S. pose proof (IHi j). pose proof (IHi (S j)).
  case_bool_decide; [lia|]. unfold min3. lia.
Qed.

Lemma lev_rec_sym a b i : forall j, lev_rec a b i j = lev_rec b a j i.
Proof.
  induction i as [|i IHi]; intros j; [by rewrite lev_rec_0_r|].
  induction j as [|j IHj]; [by rewrite lev_rec_0_r|].
  rewrite !lev_rec_S, (IHi j), (IHi (S j)), IHj.
  repeat case_bool_decide; try done; try congruence. unfold min3. lia.
Qed.

Lemma lev_rec_zero a b i : forall j,
  lev_rec a b i j = 0 ->
  i = j /\ forall k, k < i -> String.get k b = String.get k a.
Proof.
  induction i as [|i IHi]; intros j Hz.
  - cbn in Hz. subst j. split; [done|]. intros k Hk. lia.
  - destruct j as [|j]; [by rewrite lev_rec_0_r in Hz|].
    rewrite lev_rec_S in Hz. case_bool_decide as He.
    + destruct (IHi j Hz) as [-> Hk]. split; [done|]. intros k Hlt.
      destruct (decide (k = j)) as [->|]; [done|]. apply Hk. lia.
    + unfold min3 in Hz. lia.
Qed.

Lemma lev_rec_same a i : i <= String.length a -> lev_rec a a i i = 0.
Proof.
  induction i as [|i IH]; intros Hi; [done|].
  rewrite lev_rec_S, bool_decide_eq_true_2 by done. apply IH. lia.
Qed.

Lemma get_length_None s k : String.length s <= k -> String.get k s = None.
Proof.
  revert k. induction s as [|c s IH]; intros k Hk; [by destruct k|].
  destruct k as [|k]; cbn in *; [lia|]. apply IH. lia.
Qed.

Lemma levenshteinDistance_zero a b : levenshteinDistance a b = 0 <-> a = b.
Proof.
  rewrite levenshteinDistance_rec. split.
  - intros Hz. apply lev_rec_zero in Hz as [Hlen Hk].
    apply get_correct. intros k.
    destruct (decide (k < String.length b)) as [Hlt|Hge]; [by symmetry; apply Hk|].
    rewrite !get_length_None by lia. done.
  - intros ->. by apply lev_rec_same.
Qed.

(** *** Ratios as numbers *)

Lemma Qnat_le x y : x <= y -> (Qnat x <= Qnat y)%Q.
Proof. intros H. unfold Qnat. rewrite <- Zle_Qle. lia. Qed.

Lemma Qnat_pos x : 0 < x -> (0 < Qnat x)%Q.
Proof.
  intros H. unfold Qnat. change 0%Q with (inject_Z 0). rewrite <- Zlt_Qlt. lia.
Qed.

Lemma ratio_of_distance d maxLen :
  0 < maxLen -> d <= maxLen ->
  (0 <= 1 - Qnat d / Qnat maxLen)%Q /\ (1 - Qnat d / Qnat maxLen <= 1)%Q.
Proof.
  intros Hm Hd.
  assert (Qnat d / Qnat maxLen <= 1)%Q as H1.
  { apply Qle_shift_div_r; [by apply Qnat_pos|]. rewrite Qmult_1_l. by apply Qnat_le. }
  assert (0 <= Qnat d / Qnat maxLen)%Q as H0.
  { apply Qle_shift_div_l; [by apply Qnat_pos|]. rewrite Qmult_0_l.
    change 0%Q with (Qnat 0). apply Qnat_le. lia. }
  split.
  - rewrite <- (Qplus_opp_r (Qnat d / Qnat maxLen)).
    apply Qplus_le_l. exact H1.
  - rewrite <- (Qplus_0_r 1) at 2. apply Qplus_le_r.
    apply (Qopp_le_compat 0). exact H0.
Qed.

Lemma similarityRatio_range a b :
  (0 <= similarityRatio a b)%Q /\ (similarityRatio a b <= 1)%Q.
Proof.
  unfold similarityRatio.
  destruct (falsy a && falsy b); [by split|].
  destruct (falsy a || falsy b); [by split|].
  destruct (Nat.max _ _ =? 0) eqn:Hm; [by split|].
  apply Nat.eqb_neq in Hm. apply ratio_of_distance; [lia|].
  rewrite levenshteinDistance_rec.
  pose proof (lev_rec_upper a b (String.length b) (String.length a)). lia.
Qed.

Lemma levenshteinDistance_sym a b : levenshteinDistance a b = levenshteinDistance b a.
Proof. rewrite !levenshteinDistance_rec. apply lev_rec_sym. Qed.

Lemma similarityRatio_sym a b : similarityRatio a b = similarityRatio b a.
Proof.
  unfold similarityRatio.
  rewrite (andb_comm (falsy a)), (orb_comm (falsy a)), (Nat.max_comm (String.length a)),
    (levenshteinDistance_sym a b). done.
Qed.

(** X1. The edit distance of two strings lies between the difference of
    their lengths and the longer of the two lengths. *)
Theorem levenshteinDistance_bounds (a b : string) :
  String.length a - String.length b <= levenshteinDistance a b /\
  String.length b - String.length a <= levenshteinDistance a b /\
  levenshteinDistance a b <= Nat.max (String.length a) (String.length b).
Proof.
  rewrite levenshteinDistance_rec.
  pose proof (lev_rec_upper a b (String.length b) (String.length a)).
  pose proof (lev_rec_lower a b (String.length b) (String.length a)). lia.
Qed.

(** X2. The edit distance and the similarity ratio do not depend on the
    order of their two arguments. *)
Theorem similarity_symmetric (a b : string) :
  levenshteinDistance a b = levenshteinDistance b a /\
  similarityRatio a b = similarityRatio b a.
Proof. split; [apply levenshteinDistance_sym|apply similarityRatio_sym]. Qed.

(** X3. The edit distance is 0 exactly for equal strings, and the
    similarity ratio is 1 exactly for equal strings. *)
Theorem similarity_one_iff_equal (a b : string) :
  (levenshteinDistance a b = 0 <-> a = b) /\
  ((similarityRatio a b == 1)%Q <-> a = b).
Proof.
  split; [apply levenshteinDistance_zero|]. split.
  - unfold similarityRatio.
    destruct (falsy a) eqn:Ha, (falsy b) eqn:Hb; cbn [andb orb].
    + apply falsy_empty in Ha, Hb. congruence.
    + intros H. by vm_compute in H.
    + intros H. by vm_compute in H.
    + destruct (Nat.max _ _ =? 0) eqn:Hm.
      { apply Nat.eqb_eq in Hm. unfold falsy in Ha. apply Nat.eqb_neq in Ha. lia. }
      apply Nat.eqb_neq in Hm. intros H. apply levenshteinDistance_zero.
      destruct (decide (levenshteinDistance a b = 0)) as [Hz|Hnz]; [done|]. exfalso.
      set (d := levenshteinDistance a b) in *.
      set (maxLen := Nat.max (String.length a) (String.length b)) in *.
      assert (0 < Qnat d / Qnat maxLen)%Q as Hpos.
      { apply Qlt_shift_div_l; [apply Qnat_pos; lia|]. rewrite Qmult_0_l.
        apply Qnat_pos. lia. }
      assert (1 - Qnat d / Qnat maxLen < 1)%Q as Hlt.
      { rewrite <- (Qplus_0_r 1) at 2. apply Qplus_lt_r.
        apply (Qopp_lt_compat 0). exact Hpos. }
      rewrite H in Hlt. by apply Qlt_irrefl in Hlt.
  - intros ->. unfold similarityRatio.
    destruct (falsy b); cbn [andb orb]; [reflexivity|].
    destruct (_ =? 0); [reflexivity|].
    rewrite levenshteinDistance_refl. unfold Qnat, Qdiv. cbn [Z.of_nat].
    rewrite Qmult_0_l. ring.
Qed.

(** X4. The similarity ratio of two strings, and the ratio reported for
    two lines, always lie between 0 and 1. *)
Theorem ratios_between_0_and_1 :
  (forall a b : string, (0 <= similarityRatio a b)%Q /\ (similarityRatio a b <= 1)%Q) /\
  (forall (a b : option string) (threshold : Q),
     (0 <= ratio (areSimilar a b threshold))%Q /\
     (ratio (areSimilar a b threshold) <= 1)%Q).
Proof.
  split; [apply similarityRatio_range|].
  intros a b threshold. unfold areSimilar.
  assert (forall x c, (0 <= x)%Q /\ (x <= 1)%Q -> (0 <= c)%Q -> (c <= 1)%Q ->
            (0 <= Qmax x c)%Q /\ (Qmax x c <= 1)%Q) as Hmax.
  { intros x c [H0 H1] Hc0 Hc1. split.
    - apply Qle_trans with x; [done|apply Q.le_max_l].
    - by apply Q.max_lub. }
  repeat match goal with
  | |- context [if ?c then mkSimilar _ _ else _] => destruct c; cbn [ratio]
  end; try (by split).
  cbn [ratio].
  pose proof (similarityRatio_range (normalize (default "" a)) (normalize (default "" b)))
    as Hr.
  repeat match goal with
  | |- context [if ?c then _ else _] => destruct c
  end;
  repeat (apply Hmax; [|by vm_compute|by vm_compute]); exact Hr.
Qed.

(** X5. For a threshold above 0 and at most 1, two lines are reported
    similar exactly when their ratio reaches the threshold. *)
Theorem areSimilar_similar_iff (a b : option string) (threshold : Q) :
  (0 < threshold)%Q -> (threshold <= 1)%Q ->
  (similar (areSimilar a b threshold) = true <->
   (threshold <= ratio (areSimilar a b threshold))%Q).
Proof.
  intros Hpos Hone. unfold areSimilar.
  repeat match goal with
  | |- context [if ?c then mkSimilar _ _ else _] => destruct c; cbn [similar ratio]
  end.
  - split; [done|]. intros H. by apply Qle_not_lt in H.
  - done.
  - split; [done|]. intros H. by apply Qle_not_lt in H.
  - done.
  - apply Qle_bool_iff.
Qed.

Lemma areSimilar_similar_iff_witness :
  similar (areSimilar (Some "color: red;") (Some "color: blue;") defaultThreshold) = true <->
  (defaultThreshold <=
   ratio (areSimilar (Some "color: red;") (Some "color: blue;") defaultThreshold))%Q.
Proof.
  apply (areSimilar_similar_iff (Some "color: red;") (Some "color: blue;")
           defaultThreshold); by vm_compute.
Defined.

(** X6. Comparing two lines gives the same verdict and the same ratio in
    either order. *)
Theorem areSimilar_symmetric (a b : option string) (threshold : Q) :
  areSimilar a b threshold = areSimilar b a threshold.
Proof.
  unfold areSimilar.
  set (nA := normalize (default "" a)). set (nB := normalize (default "" b)).
  set (pA := toLowerCase <$> matchProp nA). set (pB := toLowerCase <$> matchProp nB).
  set (sA := trim <$> matchSelector nA). set (sB := trim <$> matchSelector nB).
  rewrite (orb_comm (negb (truthy b)) (negb (truthy a))).
  rewrite (String.eqb_sym nB nA), (orb_comm (falsy nB) (falsy nA)).
  rewrite (similarityRatio_sym nB nA).
  rewrite (andb_comm (truthy pB) (truthy pA)).
  rewrite (bool_decide_ext (pB = pA) (pA = pB)) by (split; congruence).
  rewrite (andb_comm (truthy sB) (truthy sA)).
  rewrite (similarityRatio_sym (default "" sB) (default "" sA)).
  rewrite (andb_comm (String.eqb nB "}") (String.eqb nA "}")).
  rewrite (Nat.min_comm (String.length nB) (String.length nA)).
  rewrite (String.eqb_sym (substring 0 _ nB) (substring 0 _ nA)).
  reflexivity.
Qed.

End EditDistanceFacts.

(** ** More on the aligner: the table, line numbers, optimality *)

Module LcsFacts.
Import Aligner Recurrences Sides.
Import SimilarityFacts AlignerFacts.

Lemma lcs_rec_S a b i j :
  lcs_rec a b (S i) (S j) =
  if bool_decide (a !! i = b !! j)
  then lcs_rec a b i j + 1
  else Nat.max (lcs_rec a b i (S j)) (lcs_rec a b (S i) j).
Proof. reflexivity. Qed.

Lemma lcs_rec_0_r a b i : lcs_rec a b i 0 = 0.
Proof. by destruct i. Qed.

Section Table.
Variables a b : list string.
Let m := length a.
Let n := length b.

Definition shaped (dp : list (list nat)) : Prop :=
  length dp = m + 1 /\ Forall (fun row => length row = n + 1) dp.

Lemma get2_set2 dp i j v i' j' :
  shaped dp -> i <= m -> j <= n ->
  get2 (set2 dp i j v) i' j' =
  if decide (i' = i /\ j' = j) then v else get2 dp i' j'.
Proof.
  intros [Hlen Hrows] Hi Hj. unfold get2, set2.
  destruct (decide (i' = i)) as [->|Hne].
  - rewrite list_lookup_alter_eq.
    destruct (lookup_lt_is_Some_2 dp i) as [row Hrow]; [lia|].
    rewrite Hrow. cbn.
    assert (length row = n + 1) as Hrl.
    { rewrite Forall_forall in Hrows. apply Hrows. by eapply list_elem_of_lookup_2. }
    destruct (decide (j' = j)) as [->|Hnej].
    + rewrite list_lookup_insert_eq by lia. by rewrite decide_True.
    + rewrite list_lookup_insert_ne by done. rewrite decide_False by tauto. done.
  - rewrite list_lookup_alter_ne by done. rewrite decide_False by tauto. done.
Qed.

Lemma shaped_set2 dp i j v : shaped dp -> shaped (set2 dp i j v).
Proof.
  intros [Hlen Hrows]. unfold set2. split; [by rewrite length_alter|].
  apply Forall_alter; [done|]. intros row _ Hrl. by rewrite length_insert.
Qed.

(** The cells up to [(i0, j0)] in row-major order hold the recurrence;
    the others are still 0. *)
Definition filled (i0 j0 : nat) (dp : list (list nat)) : Prop :=
  shaped dp /\
  forall i j, i <= m -> j <= n ->
    get2 dp i j =
    if decide (i < i0 \/ (i = i0 /\ j <= j0)) then lcs_rec a b i j else 0.

Lemma filled_cell i j dp (f : list (list nat) -> nat -> list (list nat)) :
  1 <= i <= m -> j < n ->
  filled i j dp ->
  filled i (S j)
    (if bool_decide (a !! (i - 1) = b !! (S j - 1))
     then set2 dp i (S j) (get2 dp (i - 1) (S j - 1) + 1)
     else set2 dp i (S j) (Nat.max (get2 dp (i - 1) (S j)) (get2 dp i (S j - 1)))).
Proof.
  intros Hi Hj [Hshape Hcells].
  destruct i as [|p]; [lia|].
  replace (S p - 1) with p by lia. replace (S j - 1) with j by lia.
  assert (get2 dp p j = lcs_rec a b p j) as H1.
  { rewrite Hcells by lia. rewrite decide_True by lia. done. }
  assert (get2 dp p (S j) = lcs_rec a b p (S j)) as H2.
  { rewrite Hcells by lia. rewrite decide_True by lia. done. }
  assert (get2 dp (S p) j = lcs_rec a b (S p) j) as H3.
  { rewrite Hcells by lia. rewrite decide_True by lia. done. }
  rewrite H1, H2, H3.
  assert (forall v, v = lcs_rec a b (S p) (S j) -> filled (S p) (S j) (set2 dp (S p) (S j) v))
    as Hset.
  { intros v ->. split; [by apply shaped_set2|].
    intros i' j' Hi' Hj'. rewrite get2_set2 by (done || lia).
    destruct (decide (i' = S p /\ j' = S j)) as [[-> ->]|Hne].
    - rewrite decide_True by lia. done.
    - rewrite Hcells by done.
      destruct (decide (i' < S p \/ i' = S p /\ j' <= j)) as [Hd|Hd].
      + rewrite decide_True by lia. done.
      + rewrite decide_False by lia. done. }
  rewrite lcs_rec_S in Hset. case_bool_decide; by apply Hset.
Qed.

Lemma filled_row i dp :
  1 <= i <= m -> filled (i - 1) n dp ->
  filled i n
    (foldl (fun dp j =>
       if bool_decide (a !! (i - 1) = b !! (j - 1))
       then set2 dp i j (get2 dp (i - 1) (j - 1) + 1)
       else set2 dp i j (Nat.max (get2 dp (i - 1) j) (get2 dp i (j - 1))))
     dp (seq 1 n)).
Proof.
  intros Hi [Hshape Hcells].
  pose (P := fun (j : nat) d => filled i (Nat.pred j) d).
  match goal with |- filled i n ?x => change (P (S n) x) end.
  apply (foldl_seq_inv P _ n 1).
  - split; [done|]. intros i' j' Hi' Hj'. rewrite Hcells by done. cbn [Nat.pred].
    destruct (decide (i' < i - 1 \/ i' = i - 1 /\ j' <= n)) as [Hd|Hd].
    + rewrite decide_True by lia. done.
    + destruct (decide (i' < i \/ i' = i /\ j' <= 0)) as [Hd'|Hd']; [|done].
      assert (i' = i /\ j' = 0) as [-> ->] by lia. by rewrite lcs_rec_0_r.
  - intros j d Hj Hd. unfold P in *. destruct j as [|j]; [lia|].
    cbn [Nat.pred] in *. apply (filled_cell i j d (fun d _ => d)); [done|lia|done].
Qed.

Lemma computeLCS_filled : filled m n (computeLCS a b).
Proof.
  unfold computeLCS. fold m n.
  pose (P := fun (i : nat) d => filled (Nat.pred i) n d).
  match goal with |- filled m n ?x => change (P (S m) x) end.
  apply (foldl_seq_inv P _ m 1).
  - split.
    + split; [by rewrite length_replicate|].
      apply Forall_replicate. by rewrite length_replicate.
    + intros i j Hi Hj. unfold get2.
      rewrite lookup_replicate_2 by lia. cbn. rewrite lookup_replicate_2 by lia. cbn.
      destruct (decide _) as [Hd|]; [|done].
      cbn [Nat.pred] in Hd. assert (i = 0) as -> by lia. done.
  - intros i d Hi Hd. unfold P in *. cbn [Nat.pred].
    apply filled_row; [lia|]. by rewrite Nat.sub_1_r.
Qed.

(** The table of [computeLCS] holds the recurrence in every cell. *)
Lemma computeLCS_rec i j :
  i <= m -> j <= n -> get2 (computeLCS a b) i j = lcs_rec a b i j.
Proof.
  intros Hi Hj. destruct computeLCS_filled as [_ Hcells].
  rewrite Hcells by done. rewrite decide_True by lia. done.
Qed.

Lemma sublist_snoc_r (c k : list string) x :
  c `sublist_of` k ++ [x] <->
  c `sublist_of` k \/ exists c1, c = c1 ++ [x] /\ c1 `sublist_of` k.
Proof.
  rewrite sublist_app_cons_r, app_nil_r. split; intros [H|H]; [by left| |by left|].
  - destruct H as (c1 & c2 & -> & Hc1 & Hc2). apply sublist_nil_r in Hc2 as ->.
    right. by exists c1.
  - destruct H as (c1 & -> & Hc1). right. by exists c1, [].
Qed.

Lemma sublist_of_snoc (c1 k : list string) x :
  c1 ++ [x] `sublist_of` k -> c1 `sublist_of` k.
Proof.
  intros H. etrans; [|exact H]. apply sublist_inserts_r. reflexivity.
Qed.

(** No common subsequence is longer than the recurrence says. *)
Lemma lcs_rec_optimal i : forall j c,
  i <= m -> j <= n ->
  c `sublist_of` take i a -> c `sublist_of` take j b ->
  length c <= lcs_rec a b i j.
Proof.
  induction i as [|i IHi]; intros j c Hi Hj Ha Hb.
  { rewrite take_0 in Ha. apply sublist_nil_r in Ha as ->. cbn. lia. }
  revert c Hj Ha Hb. induction j as [|j IHj]; intros c Hj Ha Hb.
  { rewrite take_0 in Hb. apply sublist_nil_r in Hb as ->. cbn. lia. }
  destruct (lookup_lt_is_Some_2 a i) as [x Hx]; [fold m; lia|].
  destruct (lookup_lt_is_Some_2 b j) as [y Hy]; [fold n; lia|].
  pose proof Ha as Ha'. pose proof Hb as Hb'.
  rewrite (take_S_r _ _ _ Hx) in Ha'. rewrite (take_S_r _ _ _ Hy) in Hb'.
  apply sublist_snoc_r in Ha', Hb'.
  rewrite lcs_rec_S, Hx, Hy. case_bool_decide as Hxy.
  - injection Hxy as <-.
    destruct Ha' as [Ha'|(c1 & -> & Hc1)], Hb' as [Hb'|(d1 & Hd & Hd1)].
    + specialize (IHi j c ltac:(lia) ltac:(lia) Ha' Hb'). lia.
    + subst c. apply sublist_of_snoc in Ha'.
      specialize (IHi j d1 ltac:(lia) ltac:(lia) Ha' Hd1).
      rewrite length_app. cbn. lia.
    + apply sublist_of_snoc in Hb'.
      specialize (IHi j c1 ltac:(lia) ltac:(lia) Hc1 Hb').
      rewrite length_app. cbn. lia.
    + apply app_inj_tail in Hd as [<- _].
      specialize (IHi j c1 ltac:(lia) ltac:(lia) Hc1 Hd1).
      rewrite length_app. cbn. lia.
  - destruct Ha' as [Ha'|(c1 & -> & Hc1)].
    + specialize (IHi (S j) c ltac:(lia) ltac:(lia) Ha' Hb). lia.
    + destruct Hb' as [Hb'|(d1 & Hd & Hd1)].
      * specialize (IHj (c1 ++ [x]) ltac:(lia) Ha Hb'). lia.
      * apply app_inj_tail in Hd as [_ ->]. done.
Qed.

(** Loop invariant of the backtracking: the unchanged entries emitted
    from [(i, j)] on carry a common subsequence of the two prefixes, of
    the length the table holds, equal on both sides. *)
Lemma backtrack_loop_kept dp fuel :
  (forall i j, i <= m -> j <= n -> get2 dp i j = lcs_rec a b i j) ->
  forall i j diff,
  i + j <= fuel -> i <= m -> j <= n ->
  exists sub,
    filter (fun e => type e = unchanged) (backtrack_loop fuel dp a b i j diff) =
      ((fun x => mkEntry unchanged x.1.1 x.1.2 (Some x.2) (Some x.2) None) <$> sub) ++
      filter (fun e => type e = unchanged) diff /\
    length sub = lcs_rec a b i j /\
    sub.*2 `sublist_of` take i a /\ sub.*2 `sublist_of` take j b.
Proof.
  intros Hdp. induction fuel as [|fuel IH]; intros i j diff Hle Hi Hj.
  - assert (i = 0) by lia. assert (j = 0) by lia. subst.
    exists []. by rewrite !take_0.
  - cbn [backtrack_loop].
    destruct ((0 <? i) || (0 <? j)) eqn:Hc.
    2:{ apply orb_false_iff in Hc as [Hc1 Hc2]. apply Nat.ltb_ge in Hc1, Hc2.
        assert (i = 0) by lia. assert (j = 0) by lia. subst.
        exists []. by rewrite !take_0. }
    destruct ((0 <? i) && (0 <? j) && bool_decide (a !! (i - 1) = b !! (j - 1))) eqn:H1.
    { apply andb_true_iff in H1 as [H1 Heq]. apply andb_true_iff in H1 as [Hi0 Hj0].
      apply Nat.ltb_lt in Hi0, Hj0. apply bool_decide_eq_true in Heq.
      destruct (take_pred_snoc a i Hi0 Hi) as (x & Hx & Hxa).
      destruct (take_pred_snoc b j Hj0 Hj) as (y & Hy & Hyb).
      assert (y = x) as -> by congruence.
      destruct (IH (i - 1) (j - 1) (unchangedEntry a b i j :: diff)) as
        (sub & Heqf & Hlen & Hsa & Hsb); [lia..|].
      exists (sub ++ [(Some i, Some j, x)]). split; [|split; [|split]].
      - rewrite Heqf, filter_cons_True by done.
        rewrite fmap_app, <- app_assoc. cbn. unfold unchangedEntry. by rewrite Hx, Hy.
      - rewrite length_app, Hlen. cbn.
        destruct i as [|p]; [lia|]. destruct j as [|q]; [lia|].
        replace (S p - 1) with p in * by lia. replace (S q - 1) with q in * by lia.
        rewrite lcs_rec_S, bool_decide_eq_true_2 by done. done.
      - rewrite fmap_app, Hxa. cbn. by apply sublist_app.
      - rewrite fmap_app, Hyb. cbn. by apply sublist_app. }
    destruct ((0 <? j) && ((i =? 0) || (get2 dp (i - 1) j <=? get2 dp i (j - 1)))) eqn:H2.
    { apply andb_true_iff in H2 as [Hj0 Hor]. apply Nat.ltb_lt in Hj0.
      destruct (IH i (j - 1) (addedEntry b j :: diff)) as
        (sub & Heqf & Hlen & Hsa & Hsb); [lia..|].
      exists sub. split; [|split; [|split]].
      - rewrite Heqf, filter_cons_False by done. done.
      - rewrite Hlen. destruct j as [|q]; [lia|]. replace (S q - 1) with q in * by lia.
        destruct i as [|p]; [done|]. cbn [Nat.eqb orb] in Hor.
        apply Nat.leb_le in Hor. replace (S p - 1) with p in * by lia.
        rewrite !Hdp in Hor by lia. rewrite lcs_rec_S.
        case_bool_decide as Heq; [|lia].
        apply andb_false_iff in H1 as [H1|H1]; done.
      - done.
      - destruct (take_pred_snoc b j Hj0 Hj) as (y & Hy & ->).
        by apply sublist_inserts_r. }
    assert (0 < i) as Hi0.
    { apply orb_true_iff in Hc as [Hc|Hc]; apply Nat.ltb_lt in Hc; [done|].
      apply andb_false_iff in H2 as [H2|H2].
      - apply Nat.ltb_ge in H2. lia.
      - apply orb_false_iff in H2 as [H2 _]. apply Nat.eqb_neq in H2. lia. }
    destruct (IH (i - 1) j (removedEntry a i :: diff)) as
      (sub & Heqf & Hlen & Hsa & Hsb); [lia..|].
    exists sub. split; [|split; [|split]].
    + rewrite Heqf, filter_cons_False by done. done.
    + rewrite Hlen. destruct i as [|p]; [lia|]. replace (S p - 1) with p in * by lia.
      destruct j as [|q]; [by rewrite !lcs_rec_0_r|].
      replace (S q - 1) with q in * by lia.
      apply andb_false_iff in H2 as [H2|H2]; [done|].
      apply orb_false_iff in H2 as [_ H2]. apply Nat.leb_gt in H2.
      rewrite !Hdp in H2 by lia. rewrite lcs_rec_S.
      case_bool_decide as Heq; [|lia].
      apply andb_false_iff in H1 as [H1|H1]; done.
    + destruct (take_pred_snoc a i Hi0 Hi) as (x & Hx & ->).
      by apply sublist_inserts_r.
    + done.
Qed.

End Table.

(** X7. The unchanged entries of the raw alignment carry a longest
    common subsequence of the two line sequences: their contents, equal
    on both sides, are a subsequence of each input, and no common
    subsequence of the inputs is longer. *)
Theorem backtrackDiff_longest_common_subsequence (a b : list string) :
  exists sub : list string,
    leftContent <$> filter (fun e => type e = unchanged)
                           (backtrackDiff (computeLCS a b) a b) = Some <$> sub /\
    rightContent <$> filter (fun e => type e = unchanged)
                            (backtrackDiff (computeLCS a b) a b) = Some <$> sub /\
    sub `sublist_of` a /\ sub `sublist_of` b /\
    forall c, c `sublist_of` a -> c `sublist_of` b -> length c <= length sub.
Proof.
  unfold backtrackDiff.
  destruct (backtrack_loop_kept a b (computeLCS a b) (length a + length b)
              (computeLCS_rec a b) (length a) (length b) [])
    as (sub & Heq & Hlen & Hsa & Hsb); [lia..|].
  rewrite firstn_all in Hsa, Hsb. rewrite filter_nil, app_nil_r in Heq.
  exists (sub.*2). rewrite Heq, <- !list_fmap_compose.
  split; [done|]. split; [done|]. split; [done|]. split; [done|].
  intros c Hca Hcb. rewrite length_fmap, Hlen.
  apply lcs_rec_optimal; [lia|lia|by rewrite firstn_all..].
Qed.

(** X8. Each cell [(i, j)] of the table of [computeLCS] within the
    bounds holds the length of a longest common subsequence of the
    first [i] lines of [a] and the first [j] lines of [b]. *)
Theorem computeLCS_cell (a b : list string) (i j : nat) :
  i <= length a -> j <= length b ->
  (exists sub : list string,
     length sub = get2 (computeLCS a b) i j /\
     sub `sublist_of` take i a /\ sub `sublist_of` take j b) /\
  (forall c, c `sublist_of` take i a -> c `sublist_of` take j b ->
             length c <= get2 (computeLCS a b) i j).
Proof.
  intros Hi Hj. rewrite computeLCS_rec by done. split.
  - destruct (backtrack_loop_kept a b (computeLCS a b) (i + j)
                (computeLCS_rec a b) i j []) as (sub & _ & Hlen & Hsa & Hsb); [lia|done..|].
    exists (sub.*2). by rewrite length_fmap.
  - intros c. by apply lcs_rec_optimal.
Qed.

Lemma computeLCS_cell_witness :
  (exists sub : list string,
     length sub = get2 (computeLCS ["a"; "b"; "c"] ["b"; "x"; "c"]) 3 3 /\
     sub `sublist_of` take 3 ["a"; "b"; "c"] /\ sub `sublist_of` take 3 ["b"; "x"; "c"]) /\
  (forall c, c `sublist_of` take 3 ["a"; "b"; "c"] ->
             c `sublist_of` take 3 ["b"; "x"; "c"] ->
             length c <= get2 (computeLCS ["a"; "b"; "c"] ["b"; "x"; "c"]) 3 3).
Proof.
  apply (computeLCS_cell ["a"; "b"; "c"] ["b"; "x"; "c"] 3 3); cbn; lia.
Defined.

Lemma leftLines_cons e diff :
  leftLines (e :: diff) =
  (if bool_decide (type e <> added) then [(leftLine e, leftContent e)] else []) ++
  leftLines diff.
Proof.
  unfold leftLines. rewrite filter_cons. case_bool_decide; case_decide; done.
Qed.

Lemma rightLines_cons e diff :
  rightLines (e :: diff) =
  (if bool_decide (type e <> removed) then [(rightLine e, rightContent e)] else []) ++
  rightLines diff.
Proof.
  unfold rightLines. rewrite filter_cons. case_bool_decide; case_decide; done.
Qed.

Lemma numbered_snoc (l : list string) x :
  numbered (l ++ [x]) = numbered l ++ [(Some (S (length l)), Some x)].
Proof. unfold numbered. rewrite imap_app. cbn. by rewrite Nat.add_0_r. Qed.

Lemma numbered_take (l : list string) k x :
  0 < k -> l !! (k - 1) = Some x ->
  numbered (take k l) = numbered (take (k - 1) l) ++ [(Some k, Some x)].
Proof.
  intros Hk Hx. replace k with (S (k - 1)) at 1 by lia.
  rewrite (take_S_r _ _ _ Hx), numbered_snoc, length_take.
  apply lookup_lt_Some in Hx. do 4 f_equal. lia.
Qed.

(** Loop invariant of the backtracking, with the line numbers. *)
Lemma backtrack_loop_lines dp a b fuel : forall i j diff,
  i + j <= fuel -> i <= length a -> j <= length b ->
  leftLines (backtrack_loop fuel dp a b i j diff) = numbered (take i a) ++ leftLines diff /\
  rightLines (backtrack_loop fuel dp a b i j diff) = numbered (take j b) ++ rightLines diff.
Proof.
  induction fuel as [|fuel IH]; intros i j diff Hle Hi Hj.
  - assert (i = 0) by lia. assert (j = 0) by lia. subst. by rewrite !take_0.
  - cbn [backtrack_loop].
    destruct ((0 <? i) || (0 <? j)) eqn:Hc.
    2:{ apply orb_false_iff in Hc as [Hc1 Hc2]. apply Nat.ltb_ge in Hc1, Hc2.
        assert (i = 0) by lia. assert (j = 0) by lia. subst. by rewrite !take_0. }
    destruct ((0 <? i) && (0 <? j) && bool_decide (a !! (i - 1) = b !! (j - 1))) eqn:H1.
    { apply andb_true_iff in H1 as [H1 _]. apply andb_true_iff in H1 as [Hi0 Hj0].
      apply Nat.ltb_lt in Hi0, Hj0.
      destruct (take_pred_snoc a i Hi0 Hi) as (x & Hx & _).
      destruct (take_pred_snoc b j Hj0 Hj) as (y & Hy & _).
      destruct (IH (i - 1) (j - 1) (unchangedEntry a b i j :: diff)) as [IHl IHr]; [lia..|].
      rewrite IHl, IHr, leftLines_cons, rightLines_cons. cbn.
      rewrite (numbered_take a i x), (numbered_take b j y), Hx, Hy, <- !app_assoc by done.
      done. }
    destruct ((0 <? j) && ((i =? 0) || (get2 dp (i - 1) j <=? get2 dp i (j - 1)))) eqn:H2.
    { apply andb_true_iff in H2 as [Hj0 _]. apply Nat.ltb_lt in Hj0.
      destruct (take_pred_snoc b j Hj0 Hj) as (y & Hy & _).
      destruct (IH i (j - 1) (addedEntry b j :: diff)) as [IHl IHr]; [lia..|].
      rewrite IHl, IHr, leftLines_cons, rightLines_cons. cbn.
      rewrite (numbered_take b j y), Hy, <- !app_assoc by done. done. }
    assert (0 < i) as Hi0.
    { apply orb_true_iff in Hc as [Hc|Hc]; apply Nat.ltb_lt in Hc; [done|].
      apply andb_false_iff in H2 as [H2|H2].
      - apply Nat.ltb_ge in H2. lia.
      - apply orb_false_iff in H2 as [H2 _]. apply Nat.eqb_neq in H2. lia. }
    destruct (take_pred_snoc a i Hi0 Hi) as (x & Hx & _).
    destruct (IH (i - 1) j (removedEntry a i :: diff)) as [IHl IHr]; [lia..|].
    rewrite IHl, IHr, leftLines_cons, rightLines_cons. cbn.
    rewrite (numbered_take a i x), Hx, <- !app_assoc by done. done.
Qed.

Lemma backtrackDiff_lines (dp : list (list nat)) (a b : list string) :
  leftLines (backtrackDiff dp a b) = numbered a /\
  rightLines (backtrackDiff dp a b) = numbered b.
Proof.
  unfold backtrackDiff.
  destruct (backtrack_loop_lines dp a b (length a + length b) (length a) (length b) [])
    as [Hl Hr]; [lia..|].
  rewrite Hl, Hr, !firstn_all. cbn. by rewrite !app_nil_r.
Qed.

(** X9. Given a complete table, one row of [length b + 1] numbers for
    each of the [length a + 1] prefixes of [a], the raw alignment
    numbers its lines in order whatever the numbers in the table: its
    entries with a left side carry the lines of [a] with the numbers 1,
    2, ... in output order, and its entries with a right side carry the
    lines of [b] in the same way. *)
Theorem backtrackDiff_numbers_lines (dp : list (list nat)) (a b : list string) :
  length dp = length a + 1 ->
  Forall (fun row => length row = length b + 1) dp ->
  leftLines (backtrackDiff dp a b) = numbered a /\
  rightLines (backtrackDiff dp a b) = numbered b.
Proof. intros _ _. apply backtrackDiff_lines. Qed.

Lemma backtrackDiff_numbers_lines_witness :
  let a := ["x"; "y"; "z"] in
  let b := ["y"; "w"] in
  let dp := [[0; 5; 1]; [2; 0; 7]; [1; 1; 0]; [3; 0; 2]] in
  backtrackDiff dp a b =
    [mkEntry removed (Some 1) None (Some "x") None None;
     mkEntry removed (Some 2) None (Some "y") None None;
     mkEntry removed (Some 3) None (Some "z") None None;
     mkEntry added None (Some 1) None (Some "y") None;
     mkEntry added None (Some 2) None (Some "w") None] /\
  leftLines (backtrackDiff dp a b) = numbered a /\
  rightLines (backtrackDiff dp a b) = numbered b.
Proof.
  intros a b dp. split; [by vm_compute|].
  apply (backtrackDiff_numbers_lines dp a b); [reflexivity|].
  repeat constructor.
Defined.

End LcsFacts.

(** ** More on the detector: no line is lost *)

Module DetectorLines.
Import Similarity Detector DetectorSpec Sides.
Import DetectorFacts.

Lemma leftLines_app d1 d2 : leftLines (d1 ++ d2) = leftLines d1 ++ leftLines d2.
Proof. unfold leftLines. by rewrite filter_app, fmap_app. Qed.

Lemma rightLines_app d1 d2 : rightLines (d1 ++ d2) = rightLines d1 ++ rightLines d2.
Proof. unfold rightLines. by rewrite filter_app, fmap_app. Qed.

Definition leftOf (e : DiffEntry) : option nat * option string :=
  (leftLine e, leftContent e).

Definition rightOf (e : DiffEntry) : option nat * option string :=
  (rightLine e, rightContent e).

Lemma leftLines_all block :
  Forall (fun e => type e <> added) block -> leftLines block = leftOf <$> block.
Proof.
  intros H. unfold leftLines. induction H as [|e block He _ IH]; [done|].
  rewrite filter_cons_True by done. cbn. by rewrite IH.
Qed.

Lemma leftLines_none block :
  Forall (fun e => type e = added) block -> leftLines block = [].
Proof.
  intros H. unfold leftLines. induction H as [|e block He _ IH]; [done|].
  rewrite filter_cons_False by (intros Hne; by apply Hne). done.
Qed.

Lemma rightLines_all block :
  Forall (fun e => type e <> removed) block -> rightLines block = rightOf <$> block.
Proof.
  intros H. unfold rightLines. induction H as [|e block He _ IH]; [done|].
  rewrite filter_cons_True by done. cbn. by rewrite IH.
Qed.

Lemma rightLines_none block :
  Forall (fun e => type e = removed) block -> rightLines block = [].
Proof.
  intros H. unfold rightLines. induction H as [|e block He _ IH]; [done|].
  rewrite filter_cons_False by (intros Hne; by apply Hne). done.
Qed.

Lemma leftLines_removedCopy block : leftLines (removedCopy <$> block) = leftOf <$> block.
Proof.
  rewrite leftLines_all, <- list_fmap_compose; [done|].
  apply Forall_fmap, Forall_true. done.
Qed.

Lemma rightLines_removedCopy block : rightLines (removedCopy <$> block) = [].
Proof. apply rightLines_none, Forall_fmap, Forall_true. done. Qed.

Lemma leftLines_addedCopy block : leftLines (addedCopy <$> block) = [].
Proof. apply leftLines_none, Forall_fmap, Forall_true. done. Qed.

Lemma rightLines_addedCopy block : rightLines (addedCopy <$> block) = rightOf <$> block.
Proof.
  rewrite rightLines_all, <- list_fmap_compose; [done|].
  apply Forall_fmap, Forall_true. done.
Qed.

(** *** Picked and unpicked positions make up the block *)

Lemma omap_lookup_snoc {A} (l : list A) x (js : list nat) :
  Forall (fun j => j < length l) js ->
  omap ((l ++ [x]) !!.) js = omap (l !!.) js.
Proof.
  induction 1 as [|j js Hj _ IH]; [done|].
  cbn. rewrite lookup_app_l by done. by rewrite IH.
Qed.

Lemma omap_lookup_seq {A} (l : list A) : omap (l !!.) (seq 0 (length l)) = l.
Proof.
  induction l as [|x l IH] using rev_ind; [done|].
  rewrite length_app. cbn [length]. rewrite Nat.add_1_r, seq_S, omap_app.
  rewrite omap_lookup_snoc, IH.
  - cbn. rewrite lookup_app_r by lia. by rewrite Nat.sub_diag.
  - apply Forall_forall. intros j Hj. apply elem_of_seq in Hj. lia.
Qed.

Lemma unpicked_seq (picked : list nat) (block : list DiffEntry) :
  unpicked picked block =
  omap (block !!.) (filter (fun i => i ∉ picked) (seq 0 (length block))).
Proof.
  unfold unpicked. induction block as [|x block IH] using rev_ind; [done|].
  rewrite imap_app, filter_app, fmap_app, IH.
  rewrite length_app. cbn [length]. rewrite Nat.add_1_r, seq_S, filter_app, omap_app.
  rewrite omap_lookup_snoc.
  2:{ apply Forall_forall. intros j Hj.
      apply list_elem_of_filter in Hj as [_ Hj]. apply elem_of_seq in Hj. lia. }
  f_equal. cbn [imap]. rewrite Nat.add_0_r, !filter_cons, !filter_nil. cbn [fst Nat.add].
  case_decide; [|done]. cbn. rewrite lookup_app_r by lia. by rewrite Nat.sub_diag.
Qed.

Lemma unpicked_picked (picked : list nat) (block : list DiffEntry) :
  NoDup picked -> Forall (fun i => i < length block) picked ->
  unpicked picked block ++ omap (block !!.) picked ≡ₚ block.
Proof.
  intros Hnd Hlt. rewrite unpicked_seq, <- omap_app.
  transitivity (omap (block !!.) (seq 0 (length block))); [|by rewrite omap_lookup_seq].
  apply omap_Permutation. apply NoDup_Permutation.
  - apply NoDup_app. split; [apply NoDup_filter, NoDup_seq|]. split; [|done].
    intros i Hi. by apply list_elem_of_filter in Hi as [Hi _].
  - apply NoDup_seq.
  - intros i. rewrite elem_of_app, list_elem_of_filter, elem_of_seq.
    rewrite Forall_forall in Hlt. split.
    + intros [[_ ?]|Hi]; [lia|]. specialize (Hlt _ Hi). lia.
    + intros Hi. destruct (decide (i ∈ picked)); [by right|by left].
Qed.

(** *** One pair of blocks *)

Lemma findBestMatches_indices removedBlock addedBlock :
  NoDup (removedIdx <$> findBestMatches removedBlock addedBlock) /\
  NoDup (addedIdx <$> findBestMatches removedBlock addedBlock) /\
  Forall (fun i => i < length removedBlock)
         (removedIdx <$> findBestMatches removedBlock addedBlock) /\
  Forall (fun j => j < length addedBlock)
         (addedIdx <$> findBestMatches removedBlock addedBlock).
Proof.
  destruct (findBestMatches_spec removedBlock addedBlock) as [Hg _].
  apply greedy_selection_picks in Hg as (Hall & Hnd1 & Hnd2).
  rewrite <- !list_fmap_compose in Hnd1, Hnd2.
  split; [exact Hnd1|]. split; [exact Hnd2|].
  rewrite Forall_fmap in Hall.
  split; apply Forall_fmap; (eapply Forall_impl; [exact Hall|]);
    intros m ([? _] & [? _] & _); done.
Qed.

Lemma modified_sides removedBlock addedBlock (ms : list Match) :
  Forall (fun m => m ∈ findBestMatches removedBlock addedBlock) ms ->
  leftOf <$> (modifiedEntry <$> ms) = leftOf <$> omap (removedBlock !!.) (removedIdx <$> ms) /\
  rightOf <$> (modifiedEntry <$> ms) = rightOf <$> omap (addedBlock !!.) (addedIdx <$> ms).
Proof.
  induction 1 as [|m ms Hm _ [IHl IHr]]; [done|].
  apply findBestMatches_elem in Hm as (r & a & Hr & Ha & Hmr & Hma & _).
  cbn. rewrite Hr, Ha. cbn. rewrite <- IHl, <- IHr.
  unfold leftOf, rightOf, modifiedEntry. cbn. by rewrite Hmr, Hma.
Qed.

Lemma pairBlocks_lines removedBlock addedBlock :
  leftLines (pairBlocks removedBlock addedBlock) ≡ₚ leftOf <$> removedBlock /\
  rightLines (pairBlocks removedBlock addedBlock) ≡ₚ rightOf <$> addedBlock.
Proof.
  unfold pairBlocks.
  set (matches := findBestMatches removedBlock addedBlock).
  destruct (findBestMatches_indices removedBlock addedBlock) as (Hnd1 & Hnd2 & Hlt1 & Hlt2).
  fold matches in Hnd1, Hnd2, Hlt1, Hlt2.
  destruct (modified_sides removedBlock addedBlock matches) as [Hl Hr].
  { apply Forall_forall. done. }
  rewrite !unmatched_unpicked, !leftLines_app, !rightLines_app.
  rewrite leftLines_removedCopy, leftLines_addedCopy, rightLines_removedCopy,
    rightLines_addedCopy, app_nil_r, app_nil_l.
  rewrite (leftLines_all (modifiedEntry <$> _)), (rightLines_all (modifiedEntry <$> _))
    by (apply Forall_fmap, Forall_true; done).
  rewrite (sortMatches_perm matches), Hl, Hr, <- !fmap_app. split.
  - by rewrite unpicked_picked.
  - rewrite (Permutation_app_comm (omap _ _)). by rewrite unpicked_picked.
Qed.

(** *** The whole pass *)

Lemma detect_step_lines first tail :
  leftLines (detect_step first tail).1 ++ leftLines (detect_step first tail).2
    ≡ₚ leftLines (first :: tail) /\
  rightLines (detect_step first tail).1 ++ rightLines (detect_step first tail).2
    ≡ₚ rightLines (first :: tail).
Proof.
  unfold detect_step.
  set (rest := first :: tail).
  pose proof (collect_skip removed rest) as H1.
  pose proof (collect_skip added (skip removed rest)) as H2.
  pose proof (collect_all removed rest) as HR.
  pose proof (collect_all added (skip removed rest)) as HA.
  set (removedBlock := collect removed rest) in *.
  set (rest1 := skip removed rest) in *.
  set (addedBlock := collect added rest1) in *.
  set (rest2 := skip added rest1) in *.
  assert (leftLines rest = (leftOf <$> removedBlock) ++ leftLines rest2) as Hl.
  { rewrite <- H1, <- H2, !leftLines_app, (leftLines_none addedBlock) by done.
    rewrite leftLines_all; [done|]. eapply Forall_impl; [exact HR|]. by intros e ->. }
  assert (rightLines rest = (rightOf <$> addedBlock) ++ rightLines rest2) as Hr.
  { rewrite <- H1, <- H2, !rightLines_app, (rightLines_none removedBlock) by done.
    rewrite rightLines_all; [done|]. eapply Forall_impl; [exact HA|]. by intros e ->. }
  rewrite Hl, Hr.
  destruct (0 <? length removedBlock) eqn:Hr0;
    destruct (0 <? length addedBlock) eqn:Ha0; cbn [andb fst snd].
  - destruct (pairBlocks_lines removedBlock addedBlock) as [-> ->]. done.
  - apply Nat.ltb_ge in Ha0.
    assert (addedBlock = []) as -> by (destruct addedBlock; [done|cbn in Ha0; lia]).
    by rewrite leftLines_removedCopy, rightLines_removedCopy.
  - apply Nat.ltb_ge in Hr0.
    assert (removedBlock = []) as -> by (destruct removedBlock; [done|cbn in Hr0; lia]).
    by rewrite leftLines_addedCopy, rightLines_addedCopy.
  - apply Nat.ltb_ge in Hr0, Ha0.
    assert (removedBlock = []) as HRe by (destruct removedBlock; [done|cbn in Hr0; lia]).
    assert (addedBlock = []) as HAe by (destruct addedBlock; [done|cbn in Ha0; lia]).
    rewrite HRe, HAe in *. cbn [app fmap list_fmap] in *.
    rewrite <- Hl, <- Hr. subst rest.
    change (first :: tail) with ([first] ++ tail).
    by rewrite leftLines_app, rightLines_app.
Qed.

Lemma detectModifications_lines diff :
  leftLines (detectModifications diff) ≡ₚ leftLines diff /\
  rightLines (detectModifications diff) ≡ₚ rightLines diff.
Proof.
  remember (length diff) as n eqn:Hn. revert diff Hn.
  induction n as [n IH] using lt_wf_ind. intros diff ->.
  destruct diff as [|first tail]; [by rewrite detectModifications_nil|].
  rewrite detectModifications_cons, leftLines_app, rightLines_app.
  destruct (IH _ (detect_step_shorter first tail) _ eq_refl) as [-> ->].
  apply detect_step_lines.
Qed.

(** X10. Detecting modifications loses no line and invents none, on any
    input: the numbered left lines of its output are those of its input
    up to their order, and so are the numbered right lines. *)
Theorem detectModifications_keeps_lines (diff : list DiffEntry) :
  leftLines (detectModifications diff) ≡ₚ leftLines diff /\
  rightLines (detectModifications diff) ≡ₚ rightLines diff.
Proof. apply detectModifications_lines. Qed.

End DetectorLines.

(** ** The whole comparison, and merging it back *)

Module PipelineFacts.
Import Aligner Detector DetectorSpec Sides Pipeline Reconciler.
Import AlignerFacts DetectorFacts LcsFacts DetectorLines ReconcilerFacts.

(** *** Lines and line feeds *)

Lemma splitLines_nonempty s : splitLines s <> [].
Proof.
  destruct s as [|c s]; cbn; [done|].
  destruct (Ascii.eqb c _); [done|]. by destruct (splitLines s).
Qed.

Lemma joinLines_cons l r rest :
  joinLines (l :: r :: rest) =
  default "" l +:+ String (ascii_of_nat 10) (joinLines (r :: rest)).
Proof. reflexivity. Qed.

Lemma joinLines_splitLines s : joinLines (Some <$> splitLines s) = s.
Proof.
  induction s as [|c s IH]; [done|].
  cbn [splitLines]. destruct (Ascii.eqb c (ascii_of_nat 10)) eqn:Hc.
  - apply Ascii.eqb_eq in Hc as ->.
    destruct (splitLines s) as [|line rest] eqn:Hs; [by apply splitLines_nonempty in Hs|].
    rewrite fmap_cons, fmap_cons, joinLines_cons, <- fmap_cons, IH. done.
  - destruct (splitLines s) as [|line rest] eqn:Hs; [by apply splitLines_nonempty in Hs|].
    destruct rest as [|r rest].
    + cbn in *. by rewrite IH.
    + rewrite !fmap_cons, joinLines_cons in IH. rewrite !fmap_cons, joinLines_cons.
      by rewrite <- IH.
Qed.

Lemma splitLines_line l :
  ascii_of_nat 10 ∉ list_ascii_of_string l -> splitLines l = [l].
Proof.
  induction l as [|c l IH]; [done|].
  cbn [splitLines String.append list_ascii_of_string]. intros Hnl.
  apply not_elem_of_cons in Hnl as [Hc Hl].
  destruct (Ascii.eqb c (ascii_of_nat 10)) eqn:Hcb;
    [apply Ascii.eqb_eq in Hcb; congruence|].
  by rewrite IH.
Qed.

Lemma splitLines_cons l t :
  ascii_of_nat 10 ∉ list_ascii_of_string l ->
  splitLines (l +:+ String (ascii_of_nat 10) t) = l :: splitLines t.
Proof.
  induction l as [|c l IH]; [done|].
  cbn [list_ascii_of_string]. intros Hnl.
  apply not_elem_of_cons in Hnl as [Hc Hl].
  change (splitLines (String c (l +:+ String (ascii_of_nat 10) t)) =
          String c l :: splitLines t).
  cbn [splitLines].
  destruct (Ascii.eqb c (ascii_of_nat 10)) eqn:Hcb;
    [apply Ascii.eqb_eq in Hcb; congruence|].
  by rewrite IH.
Qed.

Lemma splitLines_joinLines ls :
  ls <> [] ->
  Forall (fun l => ascii_of_nat 10 ∉ list_ascii_of_string l) ls ->
  splitLines (joinLines (Some <$> ls)) = ls.
Proof.
  intros Hne Hall. induction Hall as [|l ls Hl Hls IH]; [done|].
  destruct ls as [|r ls]; [by apply splitLines_line|].
  rewrite !fmap_cons, joinLines_cons, <- fmap_cons. cbn [default].
  rewrite splitLines_cons by done. f_equal. by apply IH.
Qed.

(** *** Counting *)

Lemma length_leftLines entries :
  length (leftLines entries) =
  countType unchanged entries + countType removed entries + countType modified entries.
Proof.
  unfold leftLines, countType. rewrite length_fmap.
  induction entries as [|e entries IH]; [done|].
  rewrite !filter_cons. destruct e as [[] ? ? ? ? ?]; cbn [type];
    repeat case_decide; try done; cbn [length]; lia.
Qed.

Lemma length_rightLines entries :
  length (rightLines entries) =
  countType unchanged entries + countType added entries + countType modified entries.
Proof.
  unfold rightLines, countType. rewrite length_fmap.
  induction entries as [|e entries IH]; [done|].
  rewrite !filter_cons. destruct e as [[] ? ? ? ? ?]; cbn [type];
    repeat case_decide; try done; cbn [length]; lia.
Qed.

Lemma length_numbered ls : length (numbered ls) = length ls.
Proof. apply length_imap. Qed.

Lemma computeDiff_lines original modifiedText :
  leftLines (diff (computeDiff original modifiedText)) ≡ₚ numbered (splitLines original) /\
  rightLines (diff (computeDiff original modifiedText)) ≡ₚ
    numbered (splitLines modifiedText).
Proof.
  unfold computeDiff. cbn [diff].
  destruct (detectModifications_lines
              (backtrackDiff (computeLCS (splitLines original) (splitLines modifiedText))
                 (splitLines original) (splitLines modifiedText))) as [Hl Hr].
  destruct (backtrackDiff_lines
              (computeLCS (splitLines original) (splitLines modifiedText))
              (splitLines original) (splitLines modifiedText)) as [Hl' Hr'].
  by rewrite Hl, Hr, Hl', Hr'.
Qed.

(** X11. In the result of a comparison every line of the original
    text appears exactly once on the left, with its 1-based number, and
    every line of the modified text exactly once on the right. *)
Theorem computeDiff_every_line_once (original modifiedText : string) :
  leftLines (diff (computeDiff original modifiedText)) ≡ₚ numbered (splitLines original) /\
  rightLines (diff (computeDiff original modifiedText)) ≡ₚ
    numbered (splitLines modifiedText).
Proof. apply computeDiff_lines. Qed.

(** X12. The statistics of a comparison add up: unchanged, removed and
    modified entries together are as many as the lines of the original
    text, unchanged, added and modified entries as many as the lines of
    the modified text, and each text has at least one line. *)
Theorem computeDiff_stats_add_up (original modifiedText : string) :
  let s := stats (computeDiff original modifiedText) in
  stats_unchanged s + stats_removed s + stats_modified s = totalOriginal s /\
  stats_unchanged s + stats_added s + stats_modified s = totalModified s /\
  1 <= totalOriginal s /\ 1 <= totalModified s.
Proof.
  destruct (computeDiff_lines original modifiedText) as [Hl Hr].
  apply Permutation_length in Hl, Hr.
  rewrite length_leftLines, length_numbered in Hl.
  rewrite length_rightLines, length_numbered in Hr.
  cbn. split; [exact Hl|]. split; [exact Hr|].
  pose proof (splitLines_nonempty original).
  pose proof (splitLines_nonempty modifiedText).
  split; [by destruct (splitLines original); cbn; [|lia]|
          by destruct (splitLines modifiedText); cbn; [|lia]].
Qed.

(** X13. Splitting a text at its line feeds and joining lines with
    line feeds are inverse to each other: joining the lines of a text
    gives the text back, and splitting the join of a non-empty list of
    lines, none of which contains a line feed, gives the lines back. *)
Theorem split_join_round_trip :
  (forall s, joinLines (Some <$> splitLines s) = s) /\
  (forall ls, ls <> [] ->
     Forall (fun l => ascii_of_nat 10 ∉ list_ascii_of_string l) ls ->
     splitLines (joinLines (Some <$> ls)) = ls).
Proof. split; [apply joinLines_splitLines|apply splitLines_joinLines]. Qed.

Lemma split_join_round_trip_witness :
  splitLines (joinLines (Some <$> ["a {"; ""; "}"])) = ["a {"; ""; "}"].
Proof.
  apply (proj2 split_join_round_trip ["a {"; ""; "}"]); [done|].
  repeat constructor; cbn; rewrite ?elem_of_cons, elem_of_nil; intros H;
    repeat destruct H as [H|H]; done.
Defined.

(** *** Merging with no decision taken *)

Lemma pushes_default entries groups :
  pushes (mkState (Some entries) groups ∅) entries = defaultLines <$> entries.
Proof.
  unfold pushes. rewrite <- (imap_const defaultLines entries).
  apply imap_ext. intros i item _. by rewrite decisionFor_empty, pushed_default.
Qed.

(** An unchanged entry carries the same content on both sides. *)
Definition same_sides (e : DiffEntry) : Prop :=
  type e = unchanged -> leftContent e = rightContent e.

Lemma backtrack_loop_same_sides dp a b fuel : forall i j entries,
  Forall same_sides entries ->
  Forall same_sides (backtrack_loop fuel dp a b i j entries).
Proof.
  induction fuel as [|fuel IH]; intros i j entries Hall; cbn [backtrack_loop]; [done|].
  destruct ((0 <? i) || (0 <? j)); [|done].
  destruct ((0 <? i) && (0 <? j) && bool_decide (a !! (i - 1) = b !! (j - 1))) eqn:H1.
  { apply andb_true_iff in H1 as [_ Heq]. apply bool_decide_eq_true in Heq.
    apply IH. constructor; [|done]. by intros _. }
  destruct ((0 <? j) && _); apply IH; (constructor; [|done]); by intros ?.
Qed.

Lemma computeDiff_same_sides original modifiedText :
  Forall same_sides (diff (computeDiff original modifiedText)).
Proof.
  unfold computeDiff. cbn [diff].
  apply (detectModifications_Forall same_sides same_sides); try (by intros; intros ?).
  - by intros e He _ _.
  - apply backtrack_loop_same_sides. constructor.
Qed.

Lemma defaultLines_rightLines entries :
  Forall same_sides entries ->
  mjoin (defaultLines <$> entries) = (rightLines entries).*2.
Proof.
  induction 1 as [|e entries He _ IH]; [done|].
  rewrite fmap_cons, rightLines_cons.
  change (mjoin (defaultLines e :: (defaultLines <$> entries)))
    with (defaultLines e ++ mjoin (defaultLines <$> entries)).
  rewrite fmap_app, IH. f_equal.
  unfold defaultLines, same_sides in *.
  destruct (type e); case_bool_decide; try done. cbn. by rewrite He.
Qed.

Lemma numbered_contents ls : (numbered ls).*2 = Some <$> ls.
Proof.
  unfold numbered.
  assert (forall f : nat -> option nat,
            (imap (fun k x => (f k, Some x)) ls).*2 = Some <$> ls) as H;
    [|apply (H (fun k => Some (S k)))].
  induction ls as [|x ls IH]; intros f; [done|].
  cbn. f_equal. apply (IH (f ∘ S)).
Qed.

(** X14. With no decision taken, the merge of a comparison holds every
    line of the modified text exactly once, whatever the groups: the
    merged lines are the lines of the modified text up to their order. *)
Theorem default_merge_has_modified_lines
    (original modifiedText : string) (groups : list DiffGroup) :
  mergedLines (mkState (Some (diff (computeDiff original modifiedText))) groups ∅)
    ≡ₚ Some <$> splitLines modifiedText.
Proof.
  unfold mergedLines. cbn [diffResult].
  rewrite pushes_default, defaultLines_rightLines by apply computeDiff_same_sides.
  destruct (computeDiff_lines original modifiedText) as [_ ->].
  by rewrite numbered_contents.
Qed.

(** *** When nothing is paired *)

Lemma filter_all {A} (P : A -> Prop) `{forall x, Decision (P x)} (l : list A) :
  Forall P l -> filter P l = l.
Proof.
  induction 1 as [|x l Hx _ IH]; [done|]. by rewrite filter_cons_True, IH.
Qed.

Lemma unpicked_nil block : unpicked [] block = block.
Proof.
  rewrite unpicked_seq, filter_all; [apply omap_lookup_seq|].
  apply Forall_true. intros i. apply not_elem_of_nil.
Qed.

Lemma pairBlocks_unpaired removedBlock addedBlock :
  Forall (fun e => type e <> modified) (pairBlocks removedBlock addedBlock) ->
  pairBlocks removedBlock addedBlock =
  (removedCopy <$> removedBlock) ++ (addedCopy <$> addedBlock).
Proof.
  unfold pairBlocks. intros Hall.
  apply Forall_app in Hall as [_ Hall]. apply Forall_app in Hall as [Hall _].
  assert (findBestMatches removedBlock addedBlock = []) as ->.
  { apply Permutation_nil_r. rewrite <- sortMatches_perm.
    destruct (sortMatches _) as [|m ms]; [done|].
    apply Forall_inv in Hall. done. }
  change (list_to_set (removedIdx <$> [])) with (list_to_set (C := gset nat) []).
  change (list_to_set (addedIdx <$> [])) with (list_to_set (C := gset nat) []).
  by rewrite !unmatched_unpicked, !unpicked_nil.
Qed.

Lemma detect_step_unpaired first tail :
  Forall (fun e => type e <> modified) (detect_step first tail).1 ->
  rightLines (detect_step first tail).1 ++ rightLines (detect_step first tail).2
    = rightLines (first :: tail).
Proof.
  unfold detect_step.
  set (rest := first :: tail).
  pose proof (collect_skip removed rest) as H1.
  pose proof (collect_skip added (skip removed rest)) as H2.
  pose proof (collect_all removed rest) as HR.
  pose proof (collect_all added (skip removed rest)) as HA.
  set (removedBlock := collect removed rest) in *.
  set (rest1 := skip removed rest) in *.
  set (addedBlock := collect added rest1) in *.
  set (rest2 := skip added rest1) in *.
  assert (rightLines rest = (rightOf <$> addedBlock) ++ rightLines rest2) as Hr.
  { rewrite <- H1, <- H2, !rightLines_app, (rightLines_none removedBlock) by done.
    rewrite rightLines_all; [done|]. eapply Forall_impl; [exact HA|]. by intros e ->. }
  rewrite Hr.
  destruct (0 <? length removedBlock) eqn:Hr0;
    destruct (0 <? length addedBlock) eqn:Ha0; cbn [andb fst snd].
  - intros Hall. rewrite (pairBlocks_unpaired _ _ Hall), rightLines_app.
    by rewrite rightLines_removedCopy, rightLines_addedCopy.
  - intros _. apply Nat.ltb_ge in Ha0.
    assert (addedBlock = []) as -> by (destruct addedBlock; [done|cbn in Ha0; lia]).
    by rewrite rightLines_removedCopy.
  - intros _. by rewrite rightLines_addedCopy.
  - intros _. apply Nat.ltb_ge in Hr0, Ha0.
    assert (removedBlock = []) as HRe by (destruct removedBlock; [done|cbn in Hr0; lia]).
    assert (addedBlock = []) as HAe by (destruct addedBlock; [done|cbn in Ha0; lia]).
    rewrite HRe, HAe in *. cbn [app fmap list_fmap] in *.
    rewrite <- Hr. subst rest.
    change (first :: tail) with ([first] ++ tail). by rewrite rightLines_app.
Qed.

Lemma detectModifications_unpaired entries :
  Forall (fun e => type e <> modified) (detectModifications entries) ->
  rightLines (detectModifications entries) = rightLines entries.
Proof.
  remember (length entries) as n eqn:Hn. revert entries Hn.
  induction n as [n IH] using lt_wf_ind. intros entries ->.
  destruct entries as [|first tail]; [by rewrite detectModifications_nil|].
  rewrite detectModifications_cons, rightLines_app. intros Hall.
  apply Forall_app in Hall as [Hstep Hrest].
  rewrite (IH _ (detect_step_shorter first tail) _ eq_refl Hrest).
  by apply detect_step_unpaired.
Qed.

Lemma countType_0 k entries :
  countType k entries = 0 -> Forall (fun e => type e <> k) entries.
Proof.
  unfold countType. induction entries as [|e entries IH]; [done|].
  rewrite filter_cons. case_decide; [done|]. intros Hz. constructor; [done|by apply IH].
Qed.

(** X15. When a comparison pairs no lines (it reports no modified
    entry), the merge with no decision taken is the modified text,
    character for character. *)
Theorem default_merge_is_modified_text
    (original modifiedText : string) (groups : list DiffGroup) :
  stats_modified (stats (computeDiff original modifiedText)) = 0 ->
  generateMergedCSS (mkState (Some (diff (computeDiff original modifiedText))) groups ∅)
    = modifiedText.
Proof.
  intros Hz. unfold generateMergedCSS, mergedLines. cbn [diffResult].
  rewrite pushes_default, defaultLines_rightLines by apply computeDiff_same_sides.
  unfold computeDiff in *. cbn [diff stats stats_modified] in *.
  rewrite detectModifications_unpaired by by apply countType_0.
  destruct (backtrackDiff_lines
              (computeLCS (splitLines original) (splitLines modifiedText))
              (splitLines original) (splitLines modifiedText)) as [_ ->].
  rewrite numbered_contents. apply joinLines_splitLines.
Qed.

Lemma default_merge_is_modified_text_witness :
  generateMergedCSS
    (mkState (Some (diff (computeDiff "a {}" "a {}
b {}"))) [] ∅) = "a {}
b {}".
Proof.
  apply (default_merge_is_modified_text "a {}" "a {}
b {}" []). by vm_compute.
Defined.

(** *** A text against itself *)

Definition sameEntry (k : nat) (x : string) : DiffEntry :=
  mkEntry unchanged (Some (S k)) (Some (S k)) (Some x) (Some x) None.

Lemma backtrack_loop_same dp a fuel : forall i entries,
  i + i <= fuel -> i <= length a ->
  backtrack_loop fuel dp a a i i entries = imap sameEntry (take i a) ++ entries.
Proof.
  induction fuel as [|fuel IH]; intros i entries Hle Hi.
  - assert (i = 0) as -> by lia. by rewrite take_0.
  - cbn [backtrack_loop]. destruct i as [|p]; [by rewrite take_0|].
    cbn [Nat.ltb Nat.leb orb andb]. rewrite bool_decide_eq_true_2 by done.
    replace (S p - 1) with p by lia.
    destruct (lookup_lt_is_Some_2 a p) as [x Hx]; [lia|].
    rewrite IH by lia. rewrite (take_S_r _ _ _ Hx), imap_app, <- app_assoc.
    f_equal. cbn. rewrite length_take, Nat.add_0_r.
    replace (p `min` length a) with p by lia.
    unfold unchangedEntry, sameEntry. replace (S p - 1) with p by lia. by rewrite Hx.
Qed.

Lemma detectModifications_pass entries :
  Forall (fun e => type e <> removed /\ type e <> added) entries ->
  detectModifications entries = entries.
Proof.
  induction 1 as [|e entries [Hr Ha] _ IH]; [apply detectModifications_nil|].
  assert (detect_step e entries = ([e], entries)) as Hstep.
  { unfold detect_step. cbn [collect skip].
    unfold isKind. rewrite (bool_decide_eq_false_2 _ Hr). cbn [collect skip].
    unfold isKind. by rewrite (bool_decide_eq_false_2 _ Ha). }
  rewrite detectModifications_cons, Hstep. cbn [fst snd app]. by rewrite IH.
Qed.

Lemma computeDiff_same s : diff (computeDiff s s) = imap sameEntry (splitLines s).
Proof.
  unfold computeDiff, backtrackDiff. cbn [diff].
  rewrite backtrack_loop_same, firstn_all, app_nil_r by lia.
  apply detectModifications_pass.
  apply Forall_forall. intros e He. apply elem_of_lookup_imap in He as (k & x & -> & _).
  done.
Qed.

(** X16. Comparing a text with itself reports every line unchanged,
    numbered alike on both sides, and merging the result gives the text
    back whatever the groups and the decisions. *)
Theorem computeDiff_of_a_text_with_itself (s : string) :
  diff (computeDiff s s) =
    imap (fun k x => mkEntry unchanged (Some (S k)) (Some (S k)) (Some x) (Some x) None)
         (splitLines s) /\
  forall groups decisions,
    generateMergedCSS (mkState (Some (diff (computeDiff s s))) groups decisions) = s.
Proof.
  split; [apply computeDiff_same|].
  intros groups decisions. unfold generateMergedCSS, mergedLines. cbn [diffResult].
  rewrite computeDiff_same. unfold pushes.
  rewrite (imap_ext _ (fun _ item => [leftContent item])).
  2:{ intros i item Hi. apply list_lookup_imap_Some in Hi as (x & _ & ->). done. }
  change (fun (_ : nat) item => [leftContent item])
    with (@const _ nat (fun item : DiffEntry => [leftContent item])).
  rewrite imap_const.
  replace (mjoin ((fun item => [leftContent item]) <$> imap sameEntry (splitLines s)))
    with (Some <$> splitLines s); [apply joinLines_splitLines|].
  generalize (splitLines s). intros l. unfold sameEntry.
  assert (forall f g : nat -> option nat,
    Some <$> l =
    mjoin ((fun item => [leftContent item]) <$>
           imap (fun k x => mkEntry unchanged (f k) (g k) (Some x) (Some x) None) l)) as H;
    [|apply (H (fun k => Some (S k)) (fun k => Some (S k)))].
  induction l as [|x l IH]; intros f g; [done|].
  cbn. f_equal. apply (IH (f ∘ S) (g ∘ S)).
Qed.

End PipelineFacts.

(** ** More on the inline differ *)

Module InlineMore.
Import Similarity Inline InlineSpec.
Import SimilarityFacts InlineFacts.

(** *** Character level: the changed parts are as small as they can be *)

Section Stops.
Variables oldStr newStr : string.
Let minLen := Nat.min (String.length oldStr) (String.length newStr).

Lemma prefix_loop_stop fuel : forall p,
  minLen <= fuel + p -> p <= minLen ->
  let p' := prefix_loop fuel oldStr newStr minLen p in
  p' = minLen \/ (p' < minLen /\ String.get p' oldStr <> String.get p' newStr).
Proof.
  induction fuel as [|fuel IH]; intros p Hf Hp; cbn [prefix_loop].
  - left. lia.
  - destruct (p <? minLen) eqn:Hlt; cbn [andb].
    2:{ apply Nat.ltb_ge in Hlt. left. lia. }
    apply Nat.ltb_lt in Hlt. case_bool_decide as Heq.
    + apply IH; lia.
    + by right.
Qed.

Lemma suffix_loop_stop p fuel : forall s,
  minLen - p <= fuel + s -> s <= minLen - p ->
  let s' := suffix_loop fuel oldStr newStr minLen p s in
  s' = minLen - p \/
  (s' < minLen - p /\
   String.get (String.length oldStr - 1 - s') oldStr <>
   String.get (String.length newStr - 1 - s') newStr).
Proof.
  induction fuel as [|fuel IH]; intros s Hf Hs; cbn [suffix_loop].
  - left. lia.
  - destruct (s <? minLen - p) eqn:Hlt; cbn [andb].
    2:{ apply Nat.ltb_ge in Hlt. left. lia. }
    apply Nat.ltb_lt in Hlt. case_bool_decide as Heq.
    + apply IH; lia.
    + by right.
Qed.

End Stops.

Lemma elem_of_pushIf x s c arr :
  x ∈ pushIf s c arr <-> x ∈ arr \/ (x = mkSegment s c /\ s <> "").
Proof.
  unfold pushIf. destruct (falsy s) eqn:Hs; cbn [negb].
  - apply falsy_empty in Hs as ->. split; [by left|]. intros [?|[_ ?]]; done.
  - assert (s <> "") by (intros ->; done).
    rewrite elem_of_app, list_elem_of_singleton. tauto.
Qed.

Lemma unchanged_pushIf s c arr :
  filter (fun seg => changed seg = false) (pushIf s c arr) =
  filter (fun seg => changed seg = false) arr ++ (if c then [] else pushIf s c []).
Proof.
  unfold pushIf. destruct (negb (falsy s)).
  - rewrite filter_app, filter_cons, filter_nil. cbn [changed]. by destruct c.
  - destruct c; by rewrite app_nil_r.
Qed.

(** The middle of a string between a prefix of [p] and a suffix of [s]
    characters: where it starts and ends, when it is not empty. *)
Lemma middle_ends str p s :
  p + s <= String.length str ->
  jsSubstring str p (String.length str - s) <> "" ->
  p + s < String.length str /\
  String.get 0 (jsSubstring str p (String.length str - s)) = String.get p str /\
  String.get (String.length (jsSubstring str p (String.length str - s)) - 1)
             (jsSubstring str p (String.length str - s)) =
    String.get (String.length str - 1 - s) str.
Proof.
  intros Hps Hne.
  pose proof (chars_jsSubstring str p (String.length str - s) ltac:(lia) ltac:(lia)) as Hc.
  set (mid := jsSubstring str p (String.length str - s)) in *.
  assert (p + s < String.length str) as Hlt.
  { destruct (decide (p + s < String.length str)) as [|Hge]; [done|].
    exfalso. apply Hne. apply chars_inj. rewrite Hc.
    replace (String.length str - s - p) with 0 by lia. done. }
  split; [done|].
  assert (String.length mid = String.length str - s - p) as Hlen.
  { rewrite <- (chars_length mid), Hc, length_take, length_drop, chars_length. lia. }
  rewrite Hlen, !chars_get, Hc. split.
  - rewrite lookup_take_lt by lia. rewrite lookup_drop. f_equal. lia.
  - rewrite lookup_take_lt by lia. rewrite lookup_drop. f_equal. lia.
Qed.

Lemma findInlineDiff_pieces (oldStr newStr : string) :
  let minLen := Nat.min (String.length oldStr) (String.length newStr) in
  let p := prefix_loop minLen oldStr newStr minLen 0 in
  let s := suffix_loop minLen oldStr newStr minLen p 0 in
  let prefix := jsSubstring oldStr 0 p in
  let suffix := jsSubstring oldStr (String.length oldStr - s) (String.length oldStr) in
  joinTexts (pushIf suffix false
               (pushIf (jsSubstring oldStr p (String.length oldStr - s)) true
                  (pushIf prefix false []))) = oldStr /\
  joinTexts (pushIf suffix false
               (pushIf (jsSubstring newStr p (String.length newStr - s)) true
                  (pushIf prefix false []))) = newStr.
Proof.
  intros minLen p s prefix suffix. subst prefix suffix.
  assert (common_prefix oldStr newStr p) as Hp.
  { apply prefix_loop_common. split; [lia|]. intros k Hk. lia. }
  assert (common_suffix oldStr newStr p s) as Hs.
  { apply suffix_loop_common. split; [lia|]. intros k Hk. lia. }
  pose proof Hp as [Hpm _]. pose proof Hs as [Hsm _]. fold minLen in Hpm, Hsm.
  rewrite !joinTexts_pushIf. cbn [joinTexts foldr].
  split; apply chars_inj; rewrite !chars_app; cbn [chars app];
    rewrite !chars_jsSubstring by lia; rewrite Nat.sub_0_r, drop_0,
      <- !app_assoc.
  - rewrite <- !chars_length. apply (split3 oldStr newStr). rewrite chars_length. lia.
  - rewrite (common_prefix_take oldStr newStr p Hp).
    rewrite (take_ge (drop (String.length oldStr - s) (chars oldStr)))
      by (rewrite length_drop, chars_length; lia).
    rewrite (common_suffix_drop oldStr newStr p s Hs).
    rewrite <- (take_ge (drop (String.length newStr - s) (chars newStr))
                 (String.length newStr - (String.length newStr - s)))
      by (rewrite length_drop, chars_length; lia).
    rewrite <- !chars_length. apply (split3 oldStr newStr). rewrite chars_length. lia.
Qed.

(** X17. Character-level inline diff: the unchanged segments are the
    same on both sides, and when both sides have a changed segment the
    two changed texts differ in their first character and in their last
    character, so neither could be made shorter. *)
Theorem findInlineDiff_changed_parts (oldStr newStr : string) :
  let r := findInlineDiff (Some oldStr) (Some newStr) in
  filter (fun seg => changed seg = false) (oldResult r) =
  filter (fun seg => changed seg = false) (newResult r) /\
  forall so sn,
    mkSegment so true ∈ oldResult r -> mkSegment sn true ∈ newResult r ->
    String.get 0 so <> String.get 0 sn /\
    String.get (String.length so - 1) so <> String.get (String.length sn - 1) sn.
Proof.
  unfold findInlineDiff.
  change (default "" (Some oldStr)) with oldStr.
  change (default "" (Some newStr)) with newStr.
  set (minLen := Nat.min (String.length oldStr) (String.length newStr)).
  assert (common_prefix oldStr newStr (prefix_loop minLen oldStr newStr minLen 0)) as Hp.
  { apply prefix_loop_common. split; [lia|]. intros k Hk. lia. }
  pose proof (prefix_loop_stop oldStr newStr minLen 0 ltac:(fold minLen; lia)
                ltac:(lia)) as Hpstop.
  fold minLen in Hpstop. cbv zeta in Hpstop.
  set (p := prefix_loop minLen oldStr newStr minLen 0) in *.
  assert (common_suffix oldStr newStr p (suffix_loop minLen oldStr newStr minLen p 0)) as Hs.
  { apply suffix_loop_common. split; [lia|]. intros k Hk. lia. }
  pose proof (suffix_loop_stop oldStr newStr p minLen 0 ltac:(fold minLen; lia)
                ltac:(lia)) as Hsstop.
  fold minLen in Hsstop. cbv zeta in Hsstop.
  set (s := suffix_loop minLen oldStr newStr minLen p 0) in *.
  destruct Hp as [Hpm _]. destruct Hs as [Hsm _]. fold minLen in Hpm, Hsm.
  destruct ((length _ =? 0) && (length _ =? 0)) eqn:Hedge; cbn [oldResult newResult].
  { split.
    - apply andb_true_iff in Hedge as [Ho Hn]. apply Nat.eqb_eq in Ho, Hn.
      apply nil_length_inv in Ho, Hn.
      destruct (findInlineDiff_pieces oldStr newStr) as [H1 H2].
      cbv zeta in H1, H2. fold minLen p s in H1, H2.
      rewrite Ho in H1. rewrite Hn in H2. cbn in H1, H2. by rewrite <- H1, <- H2.
    - intros so sn Hso _. apply list_elem_of_singleton in Hso. done. }
  split.
  - rewrite !unchanged_pushIf. done.
  - intros so sn Hso Hsn.
    rewrite !elem_of_pushIf in Hso. rewrite !elem_of_pushIf in Hsn.
    assert (so = jsSubstring oldStr p (String.length oldStr - s) /\ so <> "")
      as [-> Hone].
    { destruct Hso as [[[Hso|[Hso _]]|[Hso Hne]]|[Hso _]];
        [by apply elem_of_nil in Hso|done| |done].
      injection Hso as ->. done. }
    assert (sn = jsSubstring newStr p (String.length newStr - s) /\ sn <> "")
      as [-> Hnne].
    { destruct Hsn as [[[Hsn|[Hsn _]]|[Hsn Hne]]|[Hsn _]];
        [by apply elem_of_nil in Hsn|done| |done].
      injection Hsn as ->. done. }
    destruct (middle_ends oldStr p s ltac:(lia) Hone) as (Hlo & -> & ->).
    destruct (middle_ends newStr p s ltac:(lia) Hnne) as (Hln & -> & ->).
    split.
    + destruct Hpstop as [Hpe|[_ Hne]]; [lia|done].
    + destruct Hsstop as [Hse|[_ Hne]]; [lia|done].
Qed.

Lemma findInlineDiff_changed_parts_witness :
  String.get 0 "red" <> String.get 0 "blue" /\
  String.get (String.length "red" - 1) "red" <>
  String.get (String.length "blue" - 1) "blue".
Proof.
  apply (proj2 (findInlineDiff_changed_parts "color: red;" "color: blue;") "red" "blue");
    apply (list_elem_of_lookup_2 _ 1); reflexivity.
Defined.

(** *** Equal strings *)

Lemma prefix_loop_same s fuel : forall p,
  p <= String.length s -> String.length s <= fuel + p ->
  prefix_loop fuel s s (String.length s) p = String.length s.
Proof.
  induction fuel as [|fuel IH]; intros p Hp Hf; cbn [prefix_loop]; [lia|].
  destruct (p <? String.length s) eqn:Hlt; cbn [andb].
  - apply Nat.ltb_lt in Hlt. rewrite bool_decide_eq_true_2 by done. apply IH; lia.
  - apply Nat.ltb_ge in Hlt. lia.
Qed.

Lemma suffix_loop_none fuel oldStr newStr minLen :
  suffix_loop fuel oldStr newStr minLen minLen 0 = 0.
Proof. destruct fuel; cbn [suffix_loop]; [done|]. by rewrite Nat.sub_diag. Qed.

Lemma jsSubstring_empty s n : jsSubstring s n n = "".
Proof.
  apply chars_inj. unfold jsSubstring. rewrite chars_substring.
  by rewrite Nat.max_id, Nat.min_id, Nat.sub_diag.
Qed.

Lemma jsSubstring_all s : jsSubstring s 0 (String.length s) = s.
Proof.
  apply chars_inj. rewrite chars_jsSubstring by lia.
  rewrite drop_0, take_ge; [done|]. rewrite chars_length. lia.
Qed.

Lemma findInlineDiff_same s :
  findInlineDiff (Some s) (Some s) = mkInlineDiff [mkSegment s false] [mkSegment s false].
Proof.
  unfold findInlineDiff. change (default "" (Some s)) with s.
  rewrite Nat.min_id, prefix_loop_same, suffix_loop_none by lia.
  rewrite Nat.sub_0_r, jsSubstring_empty, jsSubstring_all.
  unfold pushIf. change (falsy "") with true. cbn [negb].
  destruct (falsy s) eqn:Hs; cbn [negb]; [|done].
  apply falsy_empty in Hs as ->. done.
Qed.

Definition unchangedSegment (t : string) : InlineSegment := mkSegment t false.

Lemma words_loop_same dp tokens fuel : forall i oldR newR,
  i + i <= fuel -> i <= length tokens ->
  words_loop fuel dp tokens tokens i i oldR newR =
  mkInlineDiff ((unchangedSegment <$> take i tokens) ++ oldR)
               ((unchangedSegment <$> take i tokens) ++ newR).
Proof.
  induction fuel as [|fuel IH]; intros i oldR newR Hf Hi.
  - assert (i = 0) as -> by lia. by rewrite take_0.
  - cbn [words_loop]. destruct i as [|p]; [by rewrite take_0|].
    cbn [Nat.ltb Nat.leb orb andb]. rewrite bool_decide_eq_true_2 by done.
    replace (S p - 1) with p by lia.
    destruct (lookup_lt_is_Some_2 tokens p) as [x Hx]; [lia|].
    rewrite IH by lia. rewrite (take_S_r _ _ _ Hx), fmap_app, <- !app_assoc.
    by rewrite Hx.
Qed.

Lemma merge_unchanged tokens : forall acc,
  foldl merge_step [unchangedSegment acc] (unchangedSegment <$> tokens) =
  [unchangedSegment (acc +:+ joinStrings tokens)].
Proof.
  induction tokens as [|t tokens IH]; intros acc.
  - cbn. by rewrite append_nil_r.
  - rewrite fmap_cons. cbn [foldl].
    change (merge_step [unchangedSegment acc] (unchangedSegment t))
      with [unchangedSegment (acc +:+ t)].
    rewrite IH. change (joinStrings (t :: tokens)) with (t +:+ joinStrings tokens).
    by rewrite append_assoc.
Qed.

Lemma findInlineDiffWords_same s :
  findInlineDiffWords (Some s) (Some s) =
  if decide (s = "") then mkInlineDiff [] []
  else mkInlineDiff [mkSegment s false] [mkSegment s false].
Proof.
  unfold findInlineDiffWords. change (default "" (Some s)) with s.
  rewrite words_loop_same, firstn_all, app_nil_r by lia. cbn [oldResult newResult].
  pose proof (tokenize_join s) as Hj.
  destruct (tokenize s) as [|t tokens] eqn:Ht.
  - cbn in Hj. subst s. done.
  - assert (s <> "") as Hne.
    { intros ->. by vm_compute in Ht. }
    rewrite decide_False by done.
    unfold merge. rewrite fmap_cons. cbn [foldl].
    change (merge_step [] (unchangedSegment t)) with [unchangedSegment t].
    rewrite merge_unchanged. change (t +:+ joinStrings tokens) with (joinStrings (t :: tokens)).
    by rewrite Hj.
Qed.

(** X18. On two equal strings the character-level diff is the string as
    one unchanged segment on each side; the word-level diff is the
    same, except that for the empty string it has no segment at all. *)
Theorem inline_diff_of_equal_strings (s : string) :
  findInlineDiff (Some s) (Some s) =
    mkInlineDiff [mkSegment s false] [mkSegment s false] /\
  findInlineDiffWords (Some s) (Some s) =
    if decide (s = "") then mkInlineDiff [] []
    else mkInlineDiff [mkSegment s false] [mkSegment s false].
Proof. split; [apply findInlineDiff_same|apply findInlineDiffWords_same]. Qed.

(** *** Tokens are the maximal runs *)

Lemma run_of_unique b b' t : run_of b t -> run_of b' t -> b = b'.
Proof.
  intros [Hne H1] [_ H2]. destruct t as [|c t]; [done|].
  apply Forall_inv in H1, H2. congruence.
Qed.

Lemma run_of_snoc b t c : (t = "" \/ run_of b t) -> isSpace c = b ->
  run_of b (t +:+ String c "").
Proof.
  intros Ht Hc. split.
  - intros H. apply (f_equal chars) in H. rewrite chars_app in H.
    by destruct (chars t).
  - rewrite chars_app. apply Forall_app. split; [|by repeat constructor].
    destruct Ht as [->|[_ Ht]]; [constructor|done].
Qed.

(** The runs collected so far, built from the left. *)
Inductive runs : list string -> Prop :=
| runs_nil : runs []
| runs_snoc tokens t b :
    runs tokens -> run_of b t ->
    (forall u, last tokens = Some u -> run_of (negb b) u) ->
    runs (tokens ++ [t]).

Lemma runs_spec tokens :
  runs tokens ->
  Forall (fun t => exists b, run_of b t) tokens /\ runs_alternate tokens.
Proof.
  induction 1 as [|tokens t b _ [IH1 IH2] Hrun Hlast]; [split; [constructor|]|].
  { intros i t u Hi. done. }
  split.
  - apply Forall_app. split; [done|]. constructor; [by exists b|constructor].
  - intros i x y Hx Hy.
    destruct (decide (S i < length tokens)) as [Hlt|Hge].
    + rewrite lookup_app_l in Hx by lia. rewrite lookup_app_l in Hy by lia.
      by apply (IH2 i).
    + assert (S i = length tokens) as Hi.
      { apply lookup_lt_Some in Hy. rewrite length_app in Hy. cbn in Hy. lia. }
      rewrite lookup_app_l in Hx by lia.
      rewrite lookup_app_r, Hi, Nat.sub_diag in Hy by lia. injection Hy as <-.
      assert (last tokens = Some x) as Hl.
      { rewrite last_lookup, <- Hi. done. }
      exists (negb b). split; [by apply Hlast|]. by rewrite negb_involutive.
Qed.

(** Invariant of the loop of [tokenize]. *)
Definition tokenize_inv (st : list string * string * bool) : Prop :=
  let '(tokens, current, wasSpace) := st in
  runs tokens /\
  ((current = "" /\ tokens = []) \/
   (run_of wasSpace current /\
    forall u, last tokens = Some u -> run_of (negb wasSpace) u)).

Lemma tokenize_step_inv st c : tokenize_inv st -> tokenize_inv (tokenize_step st c).
Proof.
  destruct st as [[tokens current] wasSpace]. intros [Hruns Hcur].
  unfold tokenize_step.
  destruct Hcur as [[-> ->]|[Hrun Hlast]].
  - change (falsy "") with true. cbn [negb andb]. split; [done|]. right.
    split; [|done]. apply (run_of_snoc _ ""); [by left|done].
  - assert (falsy current = false) as ->.
    { destruct Hrun as [Hne _]. by destruct current. }
    cbn [negb andb].
    destruct (Bool.eqb (isSpace c) wasSpace) eqn:Heq; cbn [negb].
    + apply Bool.eqb_prop in Heq. split; [done|]. right. rewrite Heq. split.
      * apply run_of_snoc; [by right|done].
      * done.
    + apply Bool.eqb_false_iff in Heq.
      assert (wasSpace = negb (isSpace c)) as Hw.
      { destruct (isSpace c), wasSpace; done. }
      split; [by apply (runs_snoc tokens current wasSpace)|]. right. split.
      * apply (run_of_snoc _ ""); [by left|done].
      * intros u Hu. rewrite last_snoc in Hu. injection Hu as <-. by rewrite <- Hw.
Qed.

Lemma tokenize_runs_built str : runs (tokenize str).
Proof.
  unfold tokenize.
  assert (tokenize_inv (foldl tokenize_step ([], "", false) (chars str))) as H.
  { assert (tokenize_inv ([], "", false)) as H0 by (split; [constructor|by left]).
    revert H0. generalize ([] : list string, "", false).
    induction (chars str) as [|c l IH]; intros st Hst; [done|].
    cbn [foldl]. by apply IH, tokenize_step_inv. }
  destruct (foldl tokenize_step _ (chars str)) as [[tokens current] wasSpace].
  destruct H as [Hruns [[-> ->]|[Hrun Hlast]]]; [done|].
  assert (falsy current = false) as ->.
  { destruct Hrun as [Hne _]. by destruct current. }
  cbn [negb]. by apply (runs_snoc tokens current wasSpace).
Qed.

(** X19. The tokens of a string are its maximal runs of whitespace and
    of other characters: joined they give the string back, each is a
    non-empty run of one kind, and neighbours are of different kinds. *)
Theorem tokenize_maximal_runs (str : string) :
  joinStrings (tokenize str) = str /\
  Forall (fun t => exists b, run_of b t) (tokenize str) /\
  runs_alternate (tokenize str).
Proof.
  split; [apply tokenize_join|]. apply runs_spec, tokenize_runs_built.
Qed.

(** *** Merged segments *)

Inductive alternates : list InlineSegment -> Prop :=
| alternates_nil : alternates []
| alternates_snoc segments x :
    alternates segments -> text x <> "" ->
    (forall y, last segments = Some y -> changed y <> changed x) ->
    alternates (segments ++ [x]).

Lemma alternates_inv segments x :
  alternates (segments ++ [x]) ->
  alternates segments /\ text x <> "" /\
  (forall y, last segments = Some y -> changed y <> changed x).
Proof.
  inversion 1 as [Hnil|segments' x' Halt Hne Hlast Heq].
  - by destruct segments.
  - apply app_inj_tail in Heq as [-> ->]. done.
Qed.

Lemma append_nonempty s1 s2 : s1 <> "" -> s1 +:+ s2 <> "".
Proof. by destruct s1. Qed.

Lemma merge_step_alternates merged item :
  alternates merged -> text item <> "" -> alternates (merge_step merged item).
Proof.
  intros Halt Hne. unfold merge_step.
  destruct (last merged) as [l|] eqn:Hl.
  - destruct (Bool.eqb (changed l) (changed item)) eqn:Heq.
    + apply last_Some in Hl as [init ->]. rewrite removelast_last.
      apply alternates_inv in Halt as (Hinit & Hl & Hlast).
      apply alternates_snoc; [done|by apply append_nonempty|done].
    + apply Bool.eqb_false_iff in Heq. apply alternates_snoc; [done..|].
      intros y Hy. congruence.
  - apply alternates_snoc; [done..|]. intros y Hy. congruence.
Qed.

Lemma merge_alternates arr :
  Forall (fun seg => text seg <> "") arr -> alternates (merge arr).
Proof.
  unfold merge. assert (alternates []) as H0 by constructor.
  revert H0. generalize ([] : list InlineSegment).
  induction arr as [|x arr IH]; intros acc Hacc Hall; [done|].
  cbn [foldl]. apply Forall_cons in Hall as [Hx Hall].
  apply IH; [|done]. by apply merge_step_alternates.
Qed.

Lemma alternates_spec segments :
  alternates segments ->
  Forall (fun seg => text seg <> "") segments /\ flags_alternate segments.
Proof.
  induction 1 as [|segments x _ [IH1 IH2] Hne Hlast]; [split; [constructor|]|].
  { intros i x y Hi. done. }
  split.
  - apply Forall_app. split; [done|]. by repeat constructor.
  - intros i a b Ha Hb.
    destruct (decide (S i < length segments)) as [Hlt|Hge].
    + rewrite lookup_app_l in Ha by lia. rewrite lookup_app_l in Hb by lia.
      by apply (IH2 i).
    + assert (S i = length segments) as Hi.
      { apply lookup_lt_Some in Hb. rewrite length_app in Hb. cbn in Hb. lia. }
      rewrite lookup_app_l in Ha by lia.
      rewrite lookup_app_r, Hi, Nat.sub_diag in Hb by lia. injection Hb as <-.
      apply Hlast. rewrite last_lookup, <- Hi. done.
Qed.

Lemma tokens_nonempty str : Forall (fun t => t <> "") (tokenize str).
Proof.
  destruct (runs_spec _ (tokenize_runs_built str)) as [H _].
  eapply Forall_impl; [exact H|]. intros t [b [Hne _]]. done.
Qed.

(** X20. In the word-level inline diff no segment is empty and
    neighbouring segments of a side differ in their [changed] flag:
    changed and unchanged stretches alternate. *)
Theorem findInlineDiffWords_segments_alternate (oldStr newStr : string) :
  let r := findInlineDiffWords (Some oldStr) (Some newStr) in
  (Forall (fun seg => text seg <> "") (oldResult r) /\ flags_alternate (oldResult r)) /\
  (Forall (fun seg => text seg <> "") (newResult r) /\ flags_alternate (newResult r)).
Proof.
  unfold findInlineDiffWords.
  change (default "" (Some oldStr)) with oldStr.
  change (default "" (Some newStr)) with newStr.
  cbn [oldResult newResult].
  destruct (words_loop_texts
              (Aligner.computeLCS (tokenize oldStr) (tokenize newStr))
              (tokenize oldStr) (tokenize newStr)
              (length (tokenize oldStr) + length (tokenize newStr))
              (length (tokenize oldStr)) (length (tokenize newStr)) [] [])
    as [Ho Hn]; [lia..|].
  rewrite !firstn_all in Ho, Hn. cbn [fmap list_fmap] in Ho, Hn.
  rewrite !app_nil_r in Ho, Hn.
  split; apply alternates_spec, merge_alternates.
  - apply (Forall_fmap text (fun t => t <> "")). rewrite Ho. apply tokens_nonempty.
  - apply (Forall_fmap text (fun t => t <> "")). rewrite Hn. apply tokens_nonempty.
Qed.

End InlineMore.

(** ** More on the JSON diff tree *)

Module JsonMore.
Import JsonDiff JsonRenderer JsonSpec.
Import JsonFacts.

(** *** What the loops over the children compute *)

Definition changedResult (r : NodeKey * option DiffNode) : bool :=
  match r.2 with
  | Some c => bool_decide (type c <> unchanged)
  | None => false
  end.

Lemma collectChildren_spec results :
  collectChildren results =
  (omap (fun r => withKey r.1 <$> r.2) results, existsb changedResult results).
Proof.
  unfold collectChildren.
  assert (forall st, foldl pushChild st results =
            (st.1 ++ omap (fun r => withKey r.1 <$> r.2) results,
             st.2 || existsb changedResult results)) as H; [|apply (H ([], false))].
  induction results as [|[k [c|]] results IH]; intros [cs h]; cbn [foldl].
  - cbn. by rewrite app_nil_r, orb_false_r.
  - rewrite IH. unfold pushChild, changedResult. cbn [fst snd omap list_omap fmap option_fmap
      option_map existsb]. rewrite <- app_assoc. cbn [app]. f_equal.
    case_bool_decide; cbn [orb]; [by rewrite orb_true_r|done].
  - rewrite IH. unfold pushChild, changedResult. done.
Qed.

Lemma existsb_false {A} (f : A -> bool) l :
  existsb f l = false <-> Forall (fun x => f x = false) l.
Proof.
  induction l as [|x l IH]; cbn [existsb]; [split; [constructor|done]|].
  rewrite orb_false_iff, IH, Forall_cons. done.
Qed.

Lemma existsb_true {A} (f : A -> bool) l :
  existsb f l = true <-> exists x, x ∈ l /\ f x = true.
Proof.
  induction l as [|x l IH]; cbn [existsb].
  - split; [done|]. intros (x & Hx & _). by apply elem_of_nil in Hx.
  - rewrite orb_true_iff, IH. split.
    + intros [Hx|(y & Hy & Hfy)]; [exists x; split; [left|done]|].
      exists y. split; [by right|done].
    + intros (y & Hy & Hfy). apply elem_of_cons in Hy as [->|Hy]; [by left|].
      right. by exists y.
Qed.

Lemma changed_children results :
  existsb changedResult results =
  existsb (fun c => bool_decide (type c <> unchanged))
          (omap (fun r => withKey r.1 <$> r.2) results).
Proof.
  induction results as [|[k [c|]] results IH]; [done| |done].
  cbn [existsb omap list_omap fmap option_fmap option_map fst snd]. by rewrite IH.
Qed.

Lemma Forall_join_nodes (P : DiffNode -> Prop) cs :
  Forall P (mjoin (nodes <$> cs)) <-> Forall (fun c => Forall P (nodes c)) cs.
Proof.
  induction cs as [|c cs IH]; [split; constructor|].
  rewrite fmap_cons. change (mjoin (nodes c :: (nodes <$> cs)))
    with (nodes c ++ mjoin (nodes <$> cs)).
  by rewrite Forall_app, Forall_cons, IH.
Qed.

Lemma hasChangesInChildren_unfold n :
  hasChangesInChildren n =
  match children n with
  | None => false
  | Some cs =>
    existsb (fun child => bool_decide (type child <> unchanged) || hasChangesInChildren child)
            cs
  end.
Proof.
  destruct n as [k t p ov nv ot nt vt cs hc]. cbn [hasChangesInChildren children].
  destruct cs as [l|]; [|done].
  induction l as [|c l IH]; [done|]. cbn [existsb]. by rewrite IH.
Qed.

Lemma hasChangesInChildren_withKey k c :
  hasChangesInChildren (withKey k c) = hasChangesInChildren c.
Proof. by rewrite !hasChangesInChildren_unfold. Qed.

(** *** Changes show at the root *)

Definition unchanged_tree (n : DiffNode) : Prop :=
  Forall (fun m => type m = unchanged) (nodes n).

Lemma hasChangesInChildren_unchanged n : unchanged_tree n -> hasChangesInChildren n = false.
Proof.
  unfold unchanged_tree.
  induction n as [n IH] using DiffNode_ind'. rewrite nodes_unfold, hasChangesInChildren_unfold.
  intros Hall. apply Forall_cons in Hall as [_ Hall].
  destruct (children n) as [cs|]; [|done].
  apply Forall_join_nodes in Hall. apply existsb_false.
  rewrite Forall_forall in IH. rewrite Forall_forall in Hall. apply Forall_forall.
  intros c Hc. rewrite (IH c Hc (Hall c Hc)), orb_false_r.
  specialize (Hall c Hc). rewrite nodes_unfold in Hall. apply Forall_cons in Hall as [Ht _].
  by apply bool_decide_eq_false_2; intros ?.
Qed.

(** The stored flag agrees with what the renderer recomputes. *)
Definition consistent (m : DiffNode) : Prop :=
  forall h, hasChanges m = Some h -> hasChangesInChildren m = h.

Definition settled (n : DiffNode) : Prop :=
  Forall consistent (nodes n) /\ (type n = unchanged -> unchanged_tree n).

Lemma settled_withKey k c : settled c -> settled (withKey k c).
Proof.
  unfold settled, unchanged_tree. rewrite nodes_withKey, (nodes_unfold c).
  intros [Hc Hu]. split.
  - apply Forall_cons in Hc as [Hc Hrest]. constructor; [|done].
    intros h Hh. rewrite hasChangesInChildren_withKey. by apply Hc.
  - intros Ht. specialize (Hu Ht). apply Forall_cons in Hu as [_ Hrest].
    by constructor.
Qed.

Lemma settled_leaf n : children n = None -> hasChanges n = None -> settled n.
Proof.
  intros Hc Hh. unfold settled, unchanged_tree. rewrite nodes_unfold, Hc. split.
  - constructor; [|constructor]. intros h Hh'. congruence.
  - intros Ht. by repeat constructor.
Qed.

Lemma settled_container k p ov nv ot nt vt (results : list (NodeKey * option DiffNode)) :
  Forall (fun r => forall c, r.2 = Some c -> settled c) results ->
  settled (mkNode k (if (collectChildren results).2 then modified else unchanged) p
                  ov nv ot nt vt (Some (collectChildren results).1)
                  (Some (collectChildren results).2)).
Proof.
  intros Hall. rewrite collectChildren_spec. cbn [fst snd].
  set (cs := omap (fun r => withKey r.1 <$> r.2) results).
  assert (Forall settled cs) as Hcs.
  { apply Forall_forall. intros c Hc. apply list_elem_of_omap in Hc as ([k' [c'|]] & Hr & Hc);
      [|done]. cbn in Hc. injection Hc as <-.
    apply settled_withKey. rewrite Forall_forall in Hall. by apply (Hall _ Hr). }
  rewrite changed_children. fold cs.
  unfold settled, unchanged_tree. rewrite nodes_unfold. cbn [children type hasChanges].
  split.
  - constructor.
    + intros h [= <-]. rewrite hasChangesInChildren_unfold. cbn [children].
      destruct (existsb (fun c => bool_decide (type c <> unchanged)) cs) eqn:He.
      * apply existsb_true in He as (c & Hc & Hch).
        apply existsb_true. exists c. split; [done|]. by rewrite Hch.
      * apply existsb_false. rewrite existsb_false in He.
        rewrite Forall_forall in He. rewrite Forall_forall in Hcs. apply Forall_forall.
        intros c Hc. rewrite (He c Hc). cbn [orb].
        apply hasChangesInChildren_unchanged. apply (Hcs c Hc).
        specialize (He c Hc). apply bool_decide_eq_false in He.
        by destruct (decide (type c = unchanged)).
    + apply Forall_join_nodes. eapply Forall_impl; [exact Hcs|]. by intros c [? _].
  - destruct (existsb _ cs) eqn:He; [done|]. intros _. constructor; [done|].
    apply Forall_join_nodes. rewrite existsb_false in He.
    rewrite Forall_forall in He. rewrite Forall_forall in Hcs. apply Forall_forall.
    intros c Hc. apply (Hcs c Hc). specialize (He c Hc).
    apply bool_decide_eq_false in He. by destruct (decide (type c = unchanged)).
Qed.

(** *** One-sided trees *)

Lemma one_sided_node side k p v cs :
  side = added \/ side = removed -> one_sided side (oneSided side k p v cs).
Proof.
  intros [-> | ->]; unfold one_sided, oneSided; cbn; split; try done; split; try done.
Qed.

Lemma buildTree_one_sided fuel : forall side v p cs,
  side = added \/ side = removed ->
  buildTree fuel side v p = Some cs ->
  Forall (one_sided side) (mjoin (nodes <$> cs)).
Proof.
  induction fuel as [|fuel IH]; intros side v p cs Hside; cbn [buildTree]; [done|].
  assert (forall k p' item,
            Forall (one_sided side)
              (nodes (oneSided side k p' item (buildTree fuel side item p')))) as Hnode.
  { intros k p' item. rewrite nodes_unfold. constructor; [by apply one_sided_node|].
    cbn [children oneSided].
    destruct (buildTree fuel side item p') as [cs'|] eqn:Hb; [|constructor].
    by apply (IH side item p'). }
  destruct v as [|b|q|s|items|fields]; try done; intros [= <-];
    apply Forall_join_nodes, Forall_forall; intros c Hc.
  - apply elem_of_lookup_imap in Hc as (i & item & -> & _). apply Hnode.
  - apply list_elem_of_fmap in Hc as (k & -> & _). apply Hnode.
Qed.

Lemma oneSided_tree side v p :
  side = added \/ side = removed ->
  Forall (one_sided side)
    (nodes (oneSided side None p v
              (if isContainer v then buildTree (S (depth v)) side v p else None))).
Proof.
  intros Hside. rewrite nodes_unfold. constructor; [by apply one_sided_node|].
  cbn [children oneSided]. destruct (isContainer v); [|constructor].
  destruct (buildTree _ _ v p) as [cs|] eqn:Hb; [|constructor].
  by eapply buildTree_one_sided.
Qed.

Lemma one_sided_settled side n :
  side = added \/ side = removed -> Forall (one_sided side) (nodes n) -> settled n.
Proof.
  intros Hside Hall. split.
  - eapply Forall_impl; [exact Hall|]. intros m (_ & Hh & _) h. congruence.
  - rewrite nodes_unfold in Hall. apply Forall_cons in Hall as [[Ht _] _].
    intros Hu. destruct Hside; congruence.
Qed.

Lemma compare_fuel_settled fuel : forall ov nv p n,
  compare_fuel fuel ov nv p = Some n -> settled n.
Proof.
  induction fuel as [|fuel IH]; intros ov nv p n; cbn [compare_fuel]; [done|].
  destruct ov as [ov|], nv as [nv|]; [| | |done].
  - destruct (negb _).
    { intros [= <-]. by apply settled_leaf. }
    destruct ov as [| | | |oldArr|oldObj], nv as [| | | |newArr|newObj];
      intros [= <-]; try (by apply settled_leaf).
    + unfold compareArrays. apply settled_container.
      apply Forall_fmap, Forall_forall. intros i _ c Hc. by apply IH in Hc.
    + unfold compareObjects. apply settled_container.
      apply Forall_fmap, Forall_forall. intros k _ c Hc. by apply IH in Hc.
  - intros [= <-]. apply (one_sided_settled removed); [by right|].
    apply oneSided_tree. by right.
  - intros [= <-]. apply (one_sided_settled added); [by left|].
    apply oneSided_tree. by left.
Qed.

(** X21. A value that exists on one side only gives a tree that is
    added throughout, or removed throughout: every node is of that
    kind and holds its value on that side only. *)
Theorem compareJSON_one_sided (v : json) (p : string) :
  (exists n, compareJSON None (Some v) p = Some n /\
     Forall (fun m => type m = added /\ oldValue m = None /\ is_Some (newValue m))
            (nodes n)) /\
  (exists n, compareJSON (Some v) None p = Some n /\
     Forall (fun m => type m = removed /\ is_Some (oldValue m) /\ newValue m = None)
            (nodes n)).
Proof.
  split; eexists; (split; [reflexivity|]).
  - eapply Forall_impl; [apply (oneSided_tree added); by left|].
    intros m (Ht & _ & Hv). done.
  - eapply Forall_impl; [apply (oneSided_tree removed); by right|].
    intros m (Ht & _ & Hv). done.
Qed.

Lemma unchanged_tree_counts n name :
  unchanged_tree n -> countChanges (Some n) !! name = counts0 !! name.
Proof.
  intros Hu. cbn [countChanges]. rewrite traverse_countAll, countAll_lookup.
  replace (length (filter (counted name) (nodes n))) with 0.
  - destruct (counts0 !! name); cbn; [f_equal; lia|done].
  - symmetry. apply length_zero_iff_nil.
    induction Hu as [|m ms Hm _ IH]; [done|].
    rewrite filter_cons_False; [exact IH|]. intros [[Hne _] _]. done.
Qed.

(** X22. Changes show at the root: when the root of a comparison is
    unchanged, every node of the tree is unchanged, and [countChanges]
    reports no addition, no removal and no modification. *)
Theorem unchanged_root_unchanged_tree (ov nv : option json) (p : string) (n : DiffNode) :
  compareJSON ov nv p = Some n -> type n = unchanged ->
  Forall (fun m => type m = unchanged) (nodes n) /\
  countChanges (Some n) !! "added" = Some 0 /\
  countChanges (Some n) !! "removed" = Some 0 /\
  countChanges (Some n) !! "modified" = Some 0.
Proof.
  intros Hn Ht. apply compare_fuel_settled in Hn as [_ Hu]. specialize (Hu Ht).
  split; [done|]. by rewrite !unchanged_tree_counts.
Qed.

Lemma unchanged_root_unchanged_tree_witness :
  let leaf := mkNode (Some (KeyName "a")) unchanged "a" (Some (JNumber 1)) (Some (JNumber 1))
                     None None "number" None None in
  let n := mkNode None unchanged "" (Some (JObject [("a", JNumber 1)]))
                  (Some (JObject [("a", JNumber 1)])) None None "object"
                  (Some [leaf]) (Some false) in
  Forall (fun m => type m = unchanged) (nodes n) /\
  countChanges (Some n) !! "added" = Some 0 /\
  countChanges (Some n) !! "removed" = Some 0 /\
  countChanges (Some n) !! "modified" = Some 0.
Proof.
  intros leaf n.
  apply (unchanged_root_unchanged_tree (Some (JObject [("a", JNumber 1)]))
           (Some (JObject [("a", JNumber 1)])) "" n); reflexivity.
Defined.

Lemma Exists_join_nodes (P : DiffNode -> Prop) cs :
  Exists P (mjoin (nodes <$> cs)) <-> Exists (fun c => Exists P (nodes c)) cs.
Proof.
  induction cs as [|c cs IH]; [split; inversion 1|].
  rewrite fmap_cons. change (mjoin (nodes c :: (nodes <$> cs)))
    with (nodes c ++ mjoin (nodes <$> cs)).
  by rewrite Exists_app, Exists_cons, IH.
Qed.

Lemma hasChangesInChildren_spec n :
  hasChangesInChildren n = true <->
  Exists (fun m => type m <> unchanged) (tail (nodes n)).
Proof.
  induction n as [n IH] using DiffNode_ind'.
  rewrite nodes_unfold, hasChangesInChildren_unfold. cbn [tail].
  destruct (children n) as [cs|]; [|split; [done|inversion 1]].
  rewrite Exists_join_nodes, existsb_true, Exists_exists.
  rewrite Forall_forall in IH.
  split; intros (c & Hc & H); exists c; (split; [done|]).
  - rewrite nodes_unfold. apply Exists_cons.
    apply orb_true_iff in H as [H|H].
    + left. by apply bool_decide_eq_true in H.
    + right. rewrite (IH c Hc), nodes_unfold in H. exact H.
  - rewrite nodes_unfold in H. apply Exists_cons in H as [H|H].
    + by rewrite bool_decide_eq_true_2.
    + apply orb_true_iff. right. apply (IH c Hc). by rewrite nodes_unfold.
Qed.

(** X23. The renderer's [hasChangesInChildren] tells whether some node
    below the given one is not unchanged; on every node of a comparison
    that stores a [hasChanges] flag, the flag has that same value. *)
Theorem hasChanges_agrees_with_renderer :
  (forall m, hasChangesInChildren m = true <->
             Exists (fun d => type d <> unchanged) (tail (nodes m))) /\
  (forall ov nv p n, compareJSON ov nv p = Some n ->
     Forall (fun m => forall h, hasChanges m = Some h -> hasChangesInChildren m = h)
            (nodes n)).
Proof.
  split; [apply hasChangesInChildren_spec|].
  intros ov nv p n Hn. by apply compare_fuel_settled in Hn as [Hc _].
Qed.

Lemma hasChanges_agrees_with_renderer_witness :
  let leaf := mkNode (Some (KeyIndex 0)) modified "[0]" (Some (JNumber 1)) (Some (JNumber 2))
                     None None "number" None None in
  let n := mkNode None modified "" (Some (JArray [JNumber 1])) (Some (JArray [JNumber 2]))
                  None None "array" (Some [leaf]) (Some true) in
  Forall (fun m => forall h, hasChanges m = Some h -> hasChangesInChildren m = h) (nodes n).
Proof.
  intros leaf n.
  apply (proj2 hasChanges_agrees_with_renderer (Some (JArray [JNumber 1]))
           (Some (JArray [JNumber 2])) "" n); reflexivity.
Defined.

(** *** The root is unchanged exactly for equal values *)

Lemma same_value_type a b :
  same_value a b -> getValueType (Some a) = getValueType (Some b).
Proof. by inversion 1. Qed.

Lemma getField_elem fields k v : getField fields k = Some v -> k ∈ fields.*1.
Proof.
  induction fields as [|[k' v'] fields IH]; cbn [getField]; [done|].
  rewrite fmap_cons. cbn [fst]. destruct (String.eqb k' k) eqn:He.
  - apply String.eqb_eq in He as ->. intros _. left.
  - intros H. right. by apply IH.
Qed.

Lemma allKeys_elem fs gs k :
  k ∈ sortKeys (remove_dups (objectKeys fs ++ objectKeys gs)) <->
  k ∈ fs.*1 \/ k ∈ gs.*1.
Proof.
  unfold objectKeys.
  by rewrite sortKeys_elem, elem_of_remove_dups, elem_of_app, !elem_of_remove_dups.
Qed.

Lemma changedResult_one_sided fuel k ov nv p :
  0 < fuel ->
  (ov = None /\ is_Some nv) \/ (is_Some ov /\ nv = None) ->
  changedResult (k, compare_fuel fuel ov nv p) = true.
Proof.
  intros Hf. destruct fuel as [|f]; [lia|].
  intros [[-> [v ->]]|[[v ->] ->]]; done.
Qed.

Section Step.
Variable fuel : nat.
Hypothesis IH : forall a b p,
  Nat.min (depth a) (depth b) < fuel ->
  exists n, compare_fuel fuel (Some a) (Some b) p = Some n /\
            (type n = unchanged <-> same_value a b).

Lemma changedResult_both k a b p :
  Nat.min (depth a) (depth b) < fuel ->
  changedResult (k, compare_fuel fuel (Some a) (Some b) p) = false <-> same_value a b.
Proof.
  intros Hd. destruct (IH a b p Hd) as (n & Hn & Hiff).
  unfold changedResult. cbn [snd]. rewrite Hn, <- Hiff.
  rewrite bool_decide_eq_false. destruct (decide (type n = unchanged)); tauto.
Qed.

Lemma arrays_unchanged_iff xs ys p :
  Nat.min (depth (JArray xs)) (depth (JArray ys)) < S fuel ->
  existsb changedResult
    ((fun i => (KeyIndex i, compare_fuel fuel (xs !! i) (ys !! i) (indexPath p i)))
     <$> seq 0 (Nat.max (length xs) (length ys))) = false <->
  same_value (JArray xs) (JArray ys).
Proof.
  intros Hd. rewrite existsb_false, Forall_fmap, Forall_forall. unfold compose.
  assert (forall i x y, xs !! i = Some x -> ys !! i = Some y ->
            Nat.min (depth x) (depth y) < fuel) as Hdepth.
  { intros i x y Hx Hy.
    pose proof (odepth_lookup xs i) as H1. pose proof (odepth_lookup ys i) as H2.
    rewrite Hx in H1. rewrite Hy in H2. cbn [odepth] in H1, H2. lia. }
  assert (0 < fuel) as Hfuel by (cbn [depth] in Hd; lia).
  split.
  - intros Hall. constructor. apply Forall2_same_length_lookup_2.
    + destruct (decide (length xs = length ys)) as [|Hne]; [done|]. exfalso.
      pose (i := Nat.min (length xs) (length ys)).
      assert (i ∈ seq 0 (Nat.max (length xs) (length ys))) as Hi.
      { apply elem_of_seq. lia. }
      specialize (Hall i Hi). cbn beta in Hall.
      rewrite changedResult_one_sided in Hall; [done|done|].
      destruct (decide (length xs < length ys)).
      * left. split; [apply lookup_ge_None_2; lia|apply lookup_lt_is_Some_2; lia].
      * right. split; [apply lookup_lt_is_Some_2; lia|apply lookup_ge_None_2; lia].
    + intros i x y Hx Hy.
      assert (i ∈ seq 0 (Nat.max (length xs) (length ys))) as Hi.
      { apply elem_of_seq. apply lookup_lt_Some in Hx. lia. }
      specialize (Hall i Hi). cbn beta in Hall. rewrite Hx, Hy in Hall.
      apply changedResult_both in Hall; [done|by eapply Hdepth].
  - inversion 1 as [| | | |xs' ys' HF|]; subst. intros i Hi.
    apply elem_of_seq in Hi as [_ Hi]. cbn in Hi.
    pose proof (Forall2_length _ _ _ HF) as Hlen.
    destruct (lookup_lt_is_Some_2 xs i) as [x Hx]; [lia|].
    destruct (lookup_lt_is_Some_2 ys i) as [y Hy]; [lia|].
    rewrite Hx, Hy. apply changedResult_both; [by eapply Hdepth|].
    by eapply Forall2_lookup_lr.
Qed.

Lemma objects_unchanged_iff fs gs p :
  Nat.min (depth (JObject fs)) (depth (JObject gs)) < S fuel ->
  existsb changedResult
    ((fun k => (KeyName k,
                compare_fuel fuel (getField fs k) (getField gs k) (fieldPath p k)))
     <$> sortKeys (remove_dups (objectKeys fs ++ objectKeys gs))) = false <->
  same_value (JObject fs) (JObject gs).
Proof.
  intros Hd. rewrite existsb_false, Forall_fmap, Forall_forall. unfold compose.
  assert (forall k v w, getField fs k = Some v -> getField gs k = Some w ->
            Nat.min (depth v) (depth w) < fuel) as Hdepth.
  { intros k v w Hv Hw.
    pose proof (odepth_getField fs k) as H1. pose proof (odepth_getField gs k) as H2.
    rewrite Hv in H1. rewrite Hw in H2. cbn [odepth] in H1, H2. lia. }
  assert (0 < fuel) as Hfuel by (cbn [depth] in Hd; lia).
  split.
  - intros Hall. constructor.
    + intros k. split; intros Hk.
      * destruct (getField_Some fs k Hk) as (v & Hv & _).
        destruct (getField gs k) as [w|] eqn:Hw; [by eapply getField_elem|]. exfalso.
        specialize (Hall k ltac:(apply allKeys_elem; by left)). cbn beta in Hall.
        rewrite Hv, Hw in Hall.
        rewrite changedResult_one_sided in Hall; [done|done|]. right. by split.
      * destruct (getField_Some gs k Hk) as (w & Hw & _).
        destruct (getField fs k) as [v|] eqn:Hv; [by eapply getField_elem|]. exfalso.
        specialize (Hall k ltac:(apply allKeys_elem; by right)). cbn beta in Hall.
        rewrite Hv, Hw in Hall.
        rewrite changedResult_one_sided in Hall; [done|done|]. left. by split.
    + intros k v w Hv Hw.
      specialize (Hall k ltac:(apply allKeys_elem; left; by eapply getField_elem)).
      cbn beta in Hall. rewrite Hv, Hw in Hall.
      apply changedResult_both in Hall; [done|by eapply Hdepth].
  - inversion 1 as [| | | | |fs' gs' Hkeys Hvals]; subst. intros k Hk.
    apply allKeys_elem in Hk.
    assert (k ∈ fs.*1 /\ k ∈ gs.*1) as [Hkf Hkg].
    { destruct Hk as [Hk|Hk]; split; try done; by apply Hkeys. }
    destruct (getField_Some fs k Hkf) as (v & Hv & _).
    destruct (getField_Some gs k Hkg) as (w & Hw & _).
    rewrite Hv, Hw. apply changedResult_both; [by eapply Hdepth|]. by eapply Hvals.
Qed.

End Step.

Lemma compare_fuel_unchanged_iff fuel : forall a b p,
  Nat.min (depth a) (depth b) < fuel ->
  exists n, compare_fuel fuel (Some a) (Some b) p = Some n /\
            (type n = unchanged <-> same_value a b).
Proof.
  induction fuel as [|fuel IH]; intros a b p Hd; [lia|].
  cbn [compare_fuel].
  destruct (negb (String.eqb _ _)) eqn:Ht.
  { eexists; split; [reflexivity|]. cbn [type]. split; [done|]. intros Hs.
    apply same_value_type in Hs. by rewrite Hs, String.eqb_refl in Ht. }
  destruct a as [|b1|q1|s1|xs|fs], b as [|b2|q2|s2|ys|gs];
    try (by vm_compute in Ht); (eexists; split; [reflexivity|]).
  - cbn. split; [constructor|done].
  - cbn [type strictEq]. destruct (Bool.eqb b1 b2) eqn:He.
    + apply Bool.eqb_prop in He as ->. split; [constructor|done].
    + split; [done|]. inversion 1; subst. by rewrite Bool.eqb_reflx in He.
  - cbn [type strictEq]. destruct (Qeq_bool q1 q2) eqn:He.
    + apply Qeq_bool_iff in He. split; [by constructor|done].
    + split; [done|]. inversion 1 as [| |? ? Hq| | |]; subst.
      apply Qeq_bool_iff in Hq. congruence.
  - cbn [type strictEq]. destruct (String.eqb s1 s2) eqn:He.
    + apply String.eqb_eq in He as ->. split; [constructor|done].
    + split; [done|]. inversion 1; subst. by rewrite String.eqb_refl in He.
  - unfold compareArrays. rewrite collectChildren_spec. cbn [fst snd type].
    rewrite <- (arrays_unchanged_iff fuel IH xs ys p Hd).
    destruct (existsb _ _); split; done.
  - unfold compareObjects. rewrite collectChildren_spec. cbn [fst snd type].
    rewrite <- (objects_unchanged_iff fuel IH fs gs p Hd).
    destruct (existsb _ _); split; done.
Qed.

(** X24. For two values none of whose keys is a name that objects
    inherit (such as [toString] or [__proto__]), comparing them yields
    a tree whose root is unchanged exactly when the two values are the
    same JSON: equal primitives, arrays equal item by item, objects with
    the same keys and the same values, whatever the order of the
    fields. *)
Theorem compareJSON_unchanged_iff_same (a b : json) (p : string) :
  plainKeys a = true -> plainKeys b = true ->
  exists n, compareJSON (Some a) (Some b) p = Some n /\
            (type n = unchanged <-> same_value a b).
Proof. intros _ _. apply compare_fuel_unchanged_iff. cbn [odepth]. lia. Qed.

Lemma compareJSON_unchanged_iff_same_witness :
  let a := JObject [("a", JNumber 1); ("b", JArray [JString "x"; JNull])] in
  let b := JObject [("b", JArray [JString "x"; JNull]); ("a", JNumber 1)] in
  exists n, compareJSON (Some a) (Some b) "" = Some n /\
            (type n = unchanged <-> same_value a b).
Proof.
  intros a b. apply (compareJSON_unchanged_iff_same a b ""); reflexivity.
Defined.

(** *** The renderer's statistics *)

Definition statAll (ns : list DiffNode) (stats : gmap string nat) : gmap string nat :=
  foldl (fun s n => statNode n s) stats ns.

Lemma traverse_stats_statAll n : forall stats,
  traverse_stats n stats = statAll (nodes n) stats.
Proof.
  induction n as [n IH] using DiffNode_ind'. intros stats.
  rewrite nodes_unfold. unfold statAll. cbn [foldl].
  destruct n as [k t p ov nv ot nt vt cs hc]. cbn [traverse_stats children] in *.
  set (n := mkNode k t p ov nv ot nt vt cs hc).
  generalize (statNode n stats). clear stats.
  destruct cs as [l|]; [|done].
  induction IH as [|c l Hc _ IHl]; intros stats; [done|].
  rewrite fmap_cons. cbn [mjoin list_join]. rewrite foldl_app, <- IHl, Hc. done.
Qed.

Lemma statNode_alt n stats :
  statNode n stats =
  if childless n then increment (kindName (type n)) stats else stats.
Proof. unfold statNode. by destruct (type n), (childless n). Qed.

Definition tallied (name : string) (n : DiffNode) : Prop :=
  kindName (type n) = name /\ childless n = true.

#[local] Instance tallied_dec name n : Decision (tallied name n).
Proof. unfold tallied. apply _. Defined.

Lemma statNode_lookup n stats name :
  statNode n stats !! name =
  (if bool_decide (tallied name n) then S else id) <$> stats !! name.
Proof.
  rewrite statNode_alt. destruct (decide (tallied name n)) as [Hc|Hc].
  - rewrite (bool_decide_eq_true_2 _ Hc). destruct Hc as [<- Hl].
    rewrite Hl. unfold increment. by rewrite lookup_alter_eq.
  - rewrite (bool_decide_eq_false_2 _ Hc).
    destruct (childless n) eqn:Hb.
    + unfold increment. rewrite lookup_alter_ne.
      * by destruct (stats !! name).
      * intros He. apply Hc. done.
    + by destruct (stats !! name).
Qed.

Lemma statAll_lookup ns : forall stats name,
  statAll ns stats !! name =
  (fun x => x + length (filter (tallied name) ns)) <$> stats !! name.
Proof.
  unfold statAll.
  induction ns as [|n ns IH]; intros stats name; cbn [foldl].
  - rewrite filter_nil. cbn. destruct (stats !! name); cbn; [f_equal; lia|done].
  - rewrite IH, statNode_lookup, filter_cons.
    destruct (stats !! name) as [x|]; cbn [fmap option_fmap option_map]; [|done].
    case_bool_decide; case_decide; try done; cbn; f_equal; lia.
Qed.

Lemma kindName_inj k1 k2 : kindName k1 = kindName k2 -> k1 = k2.
Proof. by destruct k1, k2. Qed.

Lemma getDiffStats_kind k t :
  getDiffStats (Some t) !! kindName k =
  Some (length (filter (fun n => type n = k /\ childless n = true) (nodes t))).
Proof.
  cbn [getDiffStats]. rewrite traverse_stats_statAll, statAll_lookup.
  assert (stats0 !! kindName k = Some 0) as -> by (by destruct k).
  cbn. f_equal. f_equal. apply list_filter_iff. intros n. unfold tallied.
  split; intros [H1 H2]; (split; [|done]); [by apply kindName_inj|by rewrite H1].
Qed.

Lemma childless_split k ns :
  length (filter (fun n => type n = k /\ childless n = true) ns) =
  length (filter (fun n => type n = k /\ isLeaf n = true) ns) +
  length (filter (fun n => type n = k /\ emptyChildren n = true) ns).
Proof.
  induction ns as [|n ns IH]; [done|].
  rewrite !filter_cons.
  repeat case_decide; cbn [length]; try lia; exfalso;
    unfold childless, isLeaf, emptyChildren in *;
    destruct (children n) as [[|c cs]|]; cbn [length Nat.eqb] in *; intuition congruence.
Qed.

(** X25. [getDiffStats] counts, under each of the four kinds, the nodes
    of that kind that have no child. For added, removed and modified it
    so counts what [countChanges] counts plus the nodes of the kind
    whose list of children is empty, which [countChanges] leaves out. *)
Theorem getDiffStats_counts (t : DiffNode) (k : kind) :
  getDiffStats (Some t) !! kindName k =
    Some (length (filter (fun n => type n = k /\ childless n = true) (nodes t))) /\
  (k <> unchanged ->
   exists c s,
     countChanges (Some t) !! kindName k = Some c /\
     getDiffStats (Some t) !! kindName k = Some s /\
     s = c + length (filter (fun n => type n = k /\ emptyChildren n = true) (nodes t))).
Proof.
  split; [apply getDiffStats_kind|]. intros Hk.
  eexists _, _. split; [by apply countChanges_kind|]. split; [apply getDiffStats_kind|].
  apply childless_split.
Qed.

Lemma getDiffStats_counts_witness :
  let t := mkNode None added "" None (Some (JArray [])) None None "array" (Some []) None in
  exists c s,
    countChanges (Some t) !! "added" = Some c /\
    getDiffStats (Some t) !! "added" = Some s /\
    s = c + length (filter (fun n => type n = added /\ emptyChildren n = true) (nodes t)).
Proof.
  intros t. apply (proj2 (getDiffStats_counts t added)). done.
Defined.

End JsonMore.

(** ** More on the reconciler: decisions and groups *)

Module DecisionFacts.
Import Reconciler.

(** X26. Taking a decision for a group leaves the diff, the groups and
    the decisions of the other groups alone. Taking the same decision
    twice in a row clears it: the group ends with no decision, unless
    that decision was already the group's, in which case the decisions
    are as before. *)
Theorem applyMergeDecision_toggle (st : MergeState) (groupId : nat) (action : string) :
  let st1 := applyMergeDecision st groupId action in
  let st2 := applyMergeDecision st1 groupId action in
  diffResult st1 = diffResult st /\ diffGroups st1 = diffGroups st /\
  (forall g, g <> groupId -> mergeDecisions st1 !! g = mergeDecisions st !! g) /\
  mergeDecisions st1 !! groupId =
    (if bool_decide (mergeDecisions st !! groupId = Some action) then None
     else Some action) /\
  mergeDecisions st2 =
    (if bool_decide (mergeDecisions st !! groupId = Some action) then mergeDecisions st
     else delete groupId (mergeDecisions st)).
Proof.
  cbv zeta. unfold applyMergeDecision. cbn [diffResult diffGroups mergeDecisions].
  split; [done|]. split; [done|].
  destruct (decide (mergeDecisions st !! groupId = Some action)) as [He|Hne].
  - rewrite !(bool_decide_eq_true_2 _ He).
    split; [intros g Hg; by rewrite lookup_delete_ne|].
    rewrite lookup_delete_eq. split; [done|].
    rewrite bool_decide_eq_false_2 by done.
    by apply insert_delete_id.
  - rewrite !(bool_decide_eq_false_2 _ Hne).
    split; [intros g Hg; by rewrite lookup_insert_ne|].
    rewrite lookup_insert_eq. split; [done|].
    rewrite bool_decide_eq_true_2 by done.
    apply delete_insert_eq.
Qed.

End DecisionFacts.

(** ** The groups of changed lines *)

Module GroupingFacts.
Import Reconciler Grouping.

Lemma last_seq s l : 0 < l -> last (seq s l) = Some (s + l - 1).
Proof.
  destruct l as [|l]; [lia|]. intros _. rewrite seq_S, last_snoc. f_equal. lia.
Qed.

Lemma head_seq s l : 0 < l -> head (seq s l) = Some s.
Proof. destruct l as [|l]; [lia|]. done. Qed.

(** Groups built from the left: none continues its predecessor. *)
Inductive separated : list DiffGroup -> Prop :=
| separated_nil : separated []
| separated_snoc gs g :
    separated gs -> (forall g1, last gs = Some g1 -> not_continued g1 g) ->
    separated (gs ++ [g]).

Lemma separated_inv gs g :
  separated (gs ++ [g]) ->
  separated gs /\ (forall g1, last gs = Some g1 -> not_continued g1 g).
Proof.
  inversion 1 as [Hnil|gs' g' Hs Hl Heq].
  - by destruct gs.
  - apply app_inj_tail in Heq as [-> ->]. done.
Qed.

Lemma separated_lookup gs :
  separated gs ->
  forall j g1 g2, gs !! j = Some g1 -> gs !! (S j) = Some g2 -> not_continued g1 g2.
Proof.
  induction 1 as [|gs g _ IH Hlast]; [done|]. intros j g1 g2 H1 H2.
  destruct (decide (S j < length gs)) as [Hlt|Hge].
  - rewrite lookup_app_l in H1 by lia. rewrite lookup_app_l in H2 by lia.
    by apply (IH j).
  - assert (S j = length gs) as Hj.
    { apply lookup_lt_Some in H2. rewrite length_app in H2. cbn in H2. lia. }
    rewrite lookup_app_l in H1 by lia.
    rewrite lookup_app_r, Hj, Nat.sub_diag in H2 by lia. injection H2 as <-.
    apply Hlast. rewrite last_lookup, <- Hj. done.
Qed.

Section Panes.
Variables paneLines rightLines : list PaneItem.

Definition kindAt (i : nat) : option kind :=
  match paneLines !! i with
  | Some line => lineDiffType line (rightLines !! i)
  | None => None
  end.

Definition allGroups (st : GroupState) : list DiffGroup :=
  groupsDone st ++ option_list (currentGroup st).

Definition run_group (g : DiffGroup) : Prop :=
  exists start len, 0 < len /\ lines g = seq start len /\
    forall i, start <= i < start + len -> kindAt i = Some (groupType g).

(** Invariant of the loop, after the lines before index [n]. *)
Definition group_inv (n : nat) (st : GroupState) : Prop :=
  id <$> allGroups st = seq 0 (groupId st) /\
  mjoin (lines <$> allGroups st) = filter (fun i => is_Some (kindAt i)) (seq 0 n) /\
  Forall run_group (allGroups st) /\
  separated (allGroups st) /\
  match currentGroup st with
  | Some g => last (lines g) = Some (n - 1) /\ 0 < n
  | None => n = 0 \/ kindAt (n - 1) = None
  end.

Lemma join_lines_snoc gs (g : DiffGroup) :
  mjoin (lines <$> (gs ++ [g])) = mjoin (lines <$> gs) ++ lines g.
Proof. rewrite fmap_app, join_app. cbn. by rewrite app_nil_r. Qed.

Lemma filter_seq_S (P : nat -> Prop) `{forall i, Decision (P i)} n :
  filter P (seq 0 (S n)) = filter P (seq 0 n) ++ (if decide (P n) then [n] else []).
Proof.
  rewrite seq_S, filter_app. cbn [Nat.add]. by f_equal.
Qed.

Lemma group_inv_init : group_inv 0 (mkGroupState [] None 0).
Proof.
  unfold group_inv, allGroups. cbn. split; [done|]. split; [done|].
  split; [constructor|]. split; [constructor|]. by left.
Qed.

Lemma group_member n st g i :
  group_inv n st -> g ∈ allGroups st -> i ∈ lines g -> i < n /\ is_Some (kindAt i).
Proof.
  intros (_ & H2 & _) Hg Hi.
  assert (i ∈ mjoin (lines <$> allGroups st)) as Hin.
  { apply list_elem_of_join. exists (lines g). split; [done|].
    apply list_elem_of_fmap. by exists g. }
  rewrite H2 in Hin. apply list_elem_of_filter in Hin as [Hk Hin].
  apply elem_of_seq in Hin. split; [lia|done].
Qed.

Lemma group_inv_step n st line :
  group_inv n st -> paneLines !! n = Some line ->
  group_inv (S n) (group_step rightLines st (n, line)).
Proof.
  intros Hinv Hline. pose proof Hinv as (H1 & H2 & H3 & H4 & H5).
  assert (kindAt n = lineDiffType line (rightLines !! n)) as Hk.
  { unfold kindAt. by rewrite Hline. }
  unfold group_step. cbn [fst snd]. rewrite <- Hk.
  unfold group_inv. rewrite filter_seq_S, <- H2.
  replace (S n - 1) with n by lia.
  destruct st as [gs cur gid]. unfold allGroups in *.
  cbn [groupsDone currentGroup groupId] in *.
  destruct (kindAt n) as [k|] eqn:Hkn.
  - rewrite decide_True by done.
    assert (run_group (mkGroup gid k [n])) as Hnew.
    { exists n, 1. split; [lia|]. split; [done|]. intros i Hi.
      assert (i = n) as -> by lia. done. }
    destruct cur as [g|]; cbn [option_list option_rect] in *.
    + destruct H5 as [Hlast Hn].
      apply Forall_app in H3 as [H3 Hg]. apply Forall_inv in Hg.
      apply separated_inv in H4 as [H4 Hsep].
      destruct Hg as (s & l & Hl & Hlines & Hkinds).
      rewrite Hlines, last_seq in Hlast by done.
      assert (s + l = n) as Hend by (injection Hlast; lia).
      case_bool_decide as Ht; cbn [groupsDone currentGroup groupId option_list option_rect].
      * split; [by rewrite fmap_app in H1 |- *|]. split.
        { rewrite !join_lines_snoc. cbn [lines]. by rewrite app_assoc. }
        split; [|split; [|cbn [lines]; rewrite ?last_snoc; split; [done|lia]]].
        -- apply Forall_app. split; [done|]. constructor; [|constructor].
           exists s, (S l). split; [lia|]. cbn [lines groupType]. split.
           ++ by rewrite seq_S, Hlines, Hend.
           ++ intros i Hi. destruct (decide (i = n)) as [->|]; [by rewrite Ht|].
              apply Hkinds. lia.
        -- apply separated_snoc; [done|]. intros g1 Hg1 e s' He Hs'.
           cbn [lines groupType] in *. apply (Hsep g1 Hg1 e s' He).
           rewrite Hlines, head_seq by done.
           rewrite Hlines, head_app, head_seq in Hs' by done. done.
      * split.
        { rewrite fmap_app, H1, seq_S. done. }
        split; [by rewrite join_lines_snoc|].
        split; [|split; [|cbn [lines]; rewrite ?last_snoc; split; [done|lia]]].
        -- apply Forall_app. split; [|by repeat constructor].
           apply Forall_app. split; [done|]. constructor; [|constructor].
           by exists s, l.
        -- apply separated_snoc; [by apply separated_snoc|].
           intros g1 Hg1 e s' _ _ _. rewrite last_snoc in Hg1. injection Hg1 as <-.
           done.
    + cbn [groupsDone currentGroup groupId option_list option_rect].
      rewrite app_nil_r in H1, H3, H4. rewrite (app_nil_r gs).
      split.
      { rewrite fmap_app, H1, seq_S. done. }
      split; [by rewrite join_lines_snoc|].
      split; [|split; [|cbn [lines]; rewrite ?last_snoc; split; [done|lia]]].
      * apply Forall_app. split; [done|]. by repeat constructor.
      * apply separated_snoc; [done|]. intros g1 Hg1 e s' He Hs' Hes.
        cbn in Hs'. injection Hs' as <-.
        assert (g1 ∈ gs ++ option_list None) as Hin.
        { cbn. rewrite app_nil_r. apply last_Some in Hg1 as [init ->].
          apply elem_of_app. right. left. }
        assert (e ∈ lines g1) as Hein.
        { apply last_Some in He as [init ->]. apply elem_of_app. right. left. }
        destruct (group_member n (mkGroupState gs None gid) g1 e Hinv Hin Hein)
          as [Hlt [k' Hk']].
        destruct H5 as [->|Hnone]; [lia|].
        rewrite <- Hes in Hnone. replace (S e - 1) with e in Hnone by lia. congruence.
  - rewrite decide_False by (by intros [? ?]). rewrite app_nil_r.
    destruct cur as [g|]; cbn [groupsDone currentGroup groupId option_list option_rect] in *.
    + rewrite app_nil_r. do 4 (split; [done|]). by right.
    + do 4 (split; [done|]). by right.
Qed.

Lemma group_inv_take k :
  k <= length paneLines ->
  group_inv k (foldl (group_step rightLines) (mkGroupState [] None 0)
                     (imap pair (take k paneLines))).
Proof.
  induction k as [|k IH]; intros Hk; [rewrite take_0; apply group_inv_init|].
  destruct (lookup_lt_is_Some_2 paneLines k) as [line Hline]; [lia|].
  rewrite (take_S_r _ _ _ Hline), imap_app, foldl_app. cbn [imap foldl].
  rewrite length_take, Nat.add_0_r. replace (k `min` length paneLines) with k by lia.
  apply group_inv_step; [apply IH; lia|done].
Qed.

Lemma buildDiffGroups_inv :
  exists st, buildDiffGroups paneLines rightLines = allGroups st /\
             group_inv (length paneLines) st.
Proof.
  eexists. split; [reflexivity|].
  rewrite <- (firstn_all paneLines) at 2. by apply group_inv_take.
Qed.

End Panes.

(** *** The groups of a diff in the split view *)

Lemma lineDiffType_split e :
  lineDiffType (splitLeft e) (Some (splitRight e)) =
  if bool_decide (type e <> unchanged) then Some (type e) else None.
Proof. unfold splitLeft, splitRight. by destruct (type e). Qed.

Lemma kindAt_split diff i :
  kindAt (splitLeft <$> diff) (splitRight <$> diff) i =
  if changedAt diff i then type <$> diff !! i else None.
Proof.
  unfold kindAt, changedAt. rewrite !list_lookup_fmap.
  destruct (diff !! i) as [e|]; [|done]. cbn. apply lineDiffType_split.
Qed.

Lemma kindAt_changed diff i k :
  kindAt (splitLeft <$> diff) (splitRight <$> diff) i = Some k <->
  changedAt diff i = true /\ type <$> diff !! i = Some k.
Proof.
  rewrite kindAt_split. destruct (changedAt diff i); [|split; [done|by intros [? _]]].
  split; [done|by intros [_ ?]].
Qed.

Lemma splitViewGroups_facts diff :
  id <$> splitViewGroups diff = seq 0 (length (splitViewGroups diff)) /\
  mjoin (lines <$> splitViewGroups diff) =
    filter (fun i => changedAt diff i = true) (seq 0 (length diff)) /\
  Forall (is_run diff) (splitViewGroups diff) /\
  separated (splitViewGroups diff).
Proof.
  unfold splitViewGroups.
  destruct (buildDiffGroups_inv (splitLeft <$> diff) (splitRight <$> diff))
    as (st & -> & H1 & H2 & H3 & H4 & _).
  rewrite length_fmap in H2. split; [|split; [|split; [|done]]].
  - pose proof (f_equal length H1) as Hlen. rewrite length_fmap, length_seq in Hlen.
    by rewrite Hlen.
  - rewrite H2. apply list_filter_iff. intros i. split.
    + intros [k Hk]. by apply kindAt_changed in Hk as [? _].
    + intros Hc. rewrite kindAt_split, Hc. unfold changedAt in Hc.
      destruct (diff !! i); [by eexists|done].
  - eapply Forall_impl; [exact H3|]. intros g (s & l & Hl & Hlines & Hkinds).
    exists s, l. split; [done|]. split; [done|]. split.
    + pose proof (Hkinds s ltac:(lia)) as Hs. apply kindAt_changed in Hs as [Hc Ht].
      unfold changedAt in Hc. destruct (diff !! s) as [e|]; [|done].
      apply bool_decide_eq_true in Hc. cbn in Ht. by injection Ht as <-.
    + intros i Hi. by apply Hkinds, kindAt_changed in Hi as [_ ?].
Qed.

(** X27. In the split view the groups are the maximal runs of changed
    lines of one type: their ids are 0, 1, 2, ... in order, their lines
    taken together are the indices of the changed entries in increasing
    order, each group is a run of consecutive lines whose entries have
    the group's type, and no group continues the one before it. *)
Theorem splitViewGroups_are_maximal_runs (diff : list DiffEntry) :
  let groups := splitViewGroups diff in
  id <$> groups = seq 0 (length groups) /\
  mjoin (lines <$> groups) =
    filter (fun i => changedAt diff i = true) (seq 0 (length diff)) /\
  Forall (is_run diff) groups /\
  (forall j g1 g2, groups !! j = Some g1 -> groups !! (S j) = Some g2 ->
                   not_continued g1 g2).
Proof.
  destruct (splitViewGroups_facts diff) as (H1 & H2 & H3 & H4).
  cbv zeta. split; [done|]. split; [done|]. split; [done|].
  by apply separated_lookup.
Qed.

(** *** Finding the group of a line *)

Lemma getGroupIdForLine_None groups i :
  (forall g, g ∈ groups -> i ∉ lines g) -> getGroupIdForLine groups i = None.
Proof.
  induction groups as [|g groups IH]; intros Hall; cbn [getGroupIdForLine]; [done|].
  rewrite bool_decide_eq_false_2 by (apply Hall; left).
  apply IH. intros g' Hg'. apply Hall. by right.
Qed.

Lemma getGroupIdForLine_Some groups g i :
  NoDup (mjoin (lines <$> groups)) -> g ∈ groups -> i ∈ lines g ->
  getGroupIdForLine groups i = Some (id g).
Proof.
  induction groups as [|g0 groups IH]; intros Hnd Hg Hi; [by apply elem_of_nil in Hg|].
  rewrite fmap_cons in Hnd.
  change (mjoin (lines g0 :: (lines <$> groups)))
    with (lines g0 ++ mjoin (lines <$> groups)) in Hnd.
  apply NoDup_app in Hnd as (_ & Hdis & Hnd).
  cbn [getGroupIdForLine]. apply elem_of_cons in Hg as [->|Hg].
  - by rewrite bool_decide_eq_true_2.
  - case_bool_decide as Hi0; [|by apply IH].
    exfalso. apply (Hdis i Hi0). apply list_elem_of_join. exists (lines g).
    split; [done|]. apply list_elem_of_fmap. by exists g.
Qed.

Lemma group_of_line diff i e :
  diff !! i = Some e ->
  if bool_decide (type e = unchanged)
  then getGroupIdForLine (splitViewGroups diff) i = None
  else exists g, g ∈ splitViewGroups diff /\ i ∈ lines g /\ groupType g = type e /\
                 getGroupIdForLine (splitViewGroups diff) i = Some (id g).
Proof.
  intros He. destruct (splitViewGroups_facts diff) as (_ & H2 & H3 & _).
  assert (forall g, g ∈ splitViewGroups diff -> i ∈ lines g ->
            changedAt diff i = true) as Hin.
  { intros g Hg Hi.
    assert (i ∈ mjoin (lines <$> splitViewGroups diff)) as Hj.
    { apply list_elem_of_join. exists (lines g). split; [done|].
      apply list_elem_of_fmap. by exists g. }
    rewrite H2 in Hj. by apply list_elem_of_filter in Hj as [? _]. }
  case_bool_decide as Ht.
  - apply getGroupIdForLine_None. intros g Hg Hi.
    specialize (Hin g Hg Hi). unfold changedAt in Hin. rewrite He in Hin.
    by apply bool_decide_eq_true in Hin.
  - assert (i ∈ mjoin (lines <$> splitViewGroups diff)) as Hj.
    { rewrite H2. apply list_elem_of_filter. split.
      - unfold changedAt. rewrite He. by apply bool_decide_eq_true_2.
      - apply elem_of_seq. apply lookup_lt_Some in He. lia. }
    apply list_elem_of_join in Hj as (l & Hi & Hl).
    apply list_elem_of_fmap in Hl as (g & -> & Hg).
    exists g. split; [done|]. split; [done|]. split.
    + rewrite Forall_forall in H3. destruct (H3 g Hg) as (s & len & _ & Hlines & _ & Hk).
      rewrite Hlines in Hi. apply elem_of_seq in Hi.
      specialize (Hk i Hi). rewrite He in Hk. cbn in Hk. by injection Hk.
    + apply getGroupIdForLine_Some; [|done..].
      rewrite H2. apply NoDup_filter, NoDup_seq.
Qed.

(** X28. In the split view [getGroupIdForLine] finds no group for an
    unchanged line, and for a changed line the id of a group that holds
    the line and has the type of its entry; any group that holds the
    line has that id. *)
Theorem getGroupIdForLine_of_split_view (diff : list DiffEntry) (i : nat) (e : DiffEntry) :
  diff !! i = Some e ->
  if bool_decide (type e = unchanged)
  then getGroupIdForLine (splitViewGroups diff) i = None
  else exists g, g ∈ splitViewGroups diff /\ i ∈ lines g /\ groupType g = type e /\
                 getGroupIdForLine (splitViewGroups diff) i = Some (id g) /\
                 forall g', g' ∈ splitViewGroups diff -> i ∈ lines g' -> id g' = id g.
Proof.
  intros He. pose proof (group_of_line diff i e He) as H.
  case_bool_decide; [done|]. destruct H as (g & Hg & Hi & Ht & Hid).
  exists g. do 4 (split; [done|]). intros g' Hg' Hi'.
  destruct (splitViewGroups_facts diff) as (_ & H2 & _).
  assert (getGroupIdForLine (splitViewGroups diff) i = Some (id g')) as Hid'.
  { apply getGroupIdForLine_Some; [|done..]. rewrite H2. apply NoDup_filter, NoDup_seq. }
  congruence.
Qed.

Lemma getGroupIdForLine_of_split_view_witness :
  let diff := [mkEntry unchanged (Some 1) (Some 1) (Some "a") (Some "a") None;
               mkEntry removed (Some 2) None (Some "b") None None;
               mkEntry added None (Some 2) None (Some "c") None] in
  exists g, g ∈ splitViewGroups diff /\ 2 ∈ lines g /\ groupType g = added /\
            getGroupIdForLine (splitViewGroups diff) 2 = Some (id g) /\
            forall g', g' ∈ splitViewGroups diff -> 2 ∈ lines g' -> id g' = id g.
Proof.
  intros diff.
  apply (getGroupIdForLine_of_split_view diff 2
           (mkEntry added None (Some 2) None (Some "c") None)).
  reflexivity.
Defined.

(** *** Keeping the original everywhere *)

Lemma pushed_original item decision :
  type item = unchanged \/ decision = Some "original" ->
  pushed (splitLeft item) (splitRight item) decision =
  if bool_decide (type item <> added) then [leftContent item] else [].
Proof.
  unfold pushed, splitLeft, splitRight, chose.
  intros [Ht | ->]; [rewrite Ht; done|]. by destruct (type item).
Qed.

Lemma mergedLines_original diff decisions :
  (forall g, g ∈ splitViewGroups diff -> decisions !! id g = Some "original") ->
  mergedLines (mkState (Some diff) (splitViewGroups diff) decisions) =
  leftContent <$> filter (fun e => type e <> added) diff.
Proof.
  intros Hall. unfold mergedLines, pushes. cbn [diffResult].
  rewrite (imap_ext _ (fun _ item =>
             if bool_decide (type item <> added) then [leftContent item] else [])).
  2:{ intros i item Hi. apply pushed_original.
      pose proof (group_of_line diff i item Hi) as Hg.
      case_bool_decide as Ht; [by left|]. right.
      destruct Hg as (g & Hg & _ & _ & Hid).
      unfold decisionFor. cbn [diffGroups mergeDecisions]. rewrite Hid. by apply Hall. }
  change (fun (_ : nat) (item : DiffEntry) =>
            if bool_decide (type item <> added) then [leftContent item] else [])
    with (@const _ nat (fun item : DiffEntry =>
            if bool_decide (type item <> added) then [leftContent item] else [])).
  rewrite imap_const. clear Hall.
  induction diff as [|e diff' IH]; [done|].
  rewrite fmap_cons, filter_cons.
  change (mjoin (?x :: ?l)) with (x ++ mjoin l).
  case_bool_decide; case_decide; try done; cbn; try f_equal; exact IH.
Qed.

End GroupingFacts.

(** ** Keeping the original side of every group *)

Module MergeOriginal.
Import Aligner Detector DetectorSpec Sides Pipeline Reconciler Grouping.
Import AlignerFacts DetectorFacts LcsFacts DetectorLines PipelineFacts GroupingFacts.

Lemma leftLines_contents entries :
  (leftLines entries).*2 = leftContent <$> filter (fun e => type e <> added) entries.
Proof. unfold leftLines. by rewrite <- list_fmap_compose. Qed.

Lemma detect_step_unpaired_left first tail :
  Forall (fun e => type e <> modified) (detect_step first tail).1 ->
  leftLines (detect_step first tail).1 ++ leftLines (detect_step first tail).2
    = leftLines (first :: tail).
Proof.
  unfold detect_step.
  set (rest := first :: tail).
  pose proof (collect_skip removed rest) as H1.
  pose proof (collect_skip added (skip removed rest)) as H2.
  pose proof (collect_all removed rest) as HR.
  pose proof (collect_all added (skip removed rest)) as HA.
  set (removedBlock := collect removed rest) in *.
  set (rest1 := skip removed rest) in *.
  set (addedBlock := collect added rest1) in *.
  set (rest2 := skip added rest1) in *.
  assert (leftLines rest = (leftOf <$> removedBlock) ++ leftLines rest2) as Hl.
  { rewrite <- H1, <- H2, !leftLines_app, (leftLines_none addedBlock) by done.
    rewrite leftLines_all; [done|]. eapply Forall_impl; [exact HR|]. by intros e ->. }
  rewrite Hl.
  destruct (0 <? length removedBlock) eqn:Hr0;
    destruct (0 <? length addedBlock) eqn:Ha0; cbn [andb fst snd].
  - intros Hall. rewrite (pairBlocks_unpaired _ _ Hall), leftLines_app.
    by rewrite leftLines_removedCopy, leftLines_addedCopy, app_nil_r.
  - intros _. by rewrite leftLines_removedCopy.
  - intros _. apply Nat.ltb_ge in Hr0.
    assert (removedBlock = []) as -> by (destruct removedBlock; [done|cbn in Hr0; lia]).
    by rewrite leftLines_addedCopy.
  - intros _. apply Nat.ltb_ge in Hr0, Ha0.
    assert (removedBlock = []) as HRe by (destruct removedBlock; [done|cbn in Hr0; lia]).
    assert (addedBlock = []) as HAe by (destruct addedBlock; [done|cbn in Ha0; lia]).
    rewrite HRe, HAe in *. cbn [app fmap list_fmap] in *.
    rewrite <- Hl. subst rest.
    change (first :: tail) with ([first] ++ tail). by rewrite leftLines_app.
Qed.

Lemma detectModifications_unpaired_left entries :
  Forall (fun e => type e <> modified) (detectModifications entries) ->
  leftLines (detectModifications entries) = leftLines entries.
Proof.
  remember (length entries) as n eqn:Hn. revert entries Hn.
  induction n as [n IH] using lt_wf_ind. intros entries ->.
  destruct entries as [|first tail]; [by rewrite detectModifications_nil|].
  rewrite detectModifications_cons, leftLines_app. intros Hall.
  apply Forall_app in Hall as [Hstep Hrest].
  rewrite (IH _ (detect_step_shorter first tail) _ eq_refl Hrest).
  by apply detect_step_unpaired_left.
Qed.

(** X29. When every group of the split view is decided [original], the
    merge of a comparison keeps exactly the left side: its lines are the
    left contents of the entries that have one, which are the lines of
    the original text up to their order; and when the comparison pairs
    no lines, the merged text is the original text. *)
Theorem merge_keeping_original
    (original modifiedText : string) (decisions : gmap nat string) :
  let entries := diff (computeDiff original modifiedText) in
  let st := mkState (Some entries) (splitViewGroups entries) decisions in
  (forall g, g ∈ splitViewGroups entries -> decisions !! id g = Some "original") ->
  mergedLines st = leftContent <$> filter (fun e => type e <> added) entries /\
  mergedLines st ≡ₚ Some <$> splitLines original /\
  (stats_modified (stats (computeDiff original modifiedText)) = 0 ->
   generateMergedCSS st = original).
Proof.
  intros entries st Hall.
  pose proof (mergedLines_original entries decisions Hall) as Hm. fold st in Hm.
  split; [done|]. split.
  - rewrite Hm, <- leftLines_contents. unfold entries.
    destruct (computeDiff_lines original modifiedText) as [-> _].
    by rewrite numbered_contents.
  - intros Hz. unfold generateMergedCSS. cbn [diffResult st].
    rewrite Hm, <- leftLines_contents. unfold entries. clear Hm Hall st entries.
    unfold computeDiff in *. cbn [diff stats stats_modified] in *.
    rewrite detectModifications_unpaired_left by by apply countType_0.
    destruct (backtrackDiff_lines
                (computeLCS (splitLines original) (splitLines modifiedText))
                (splitLines original) (splitLines modifiedText)) as [-> _].
    rewrite numbered_contents. apply joinLines_splitLines.
Qed.

Lemma merge_keeping_original_witness :
  let decisions : gmap nat string := {[ 0 := "original"; 1 := "original" ]} in
  let entries := diff (computeDiff "a
b" "a
c") in
  generateMergedCSS (mkState (Some entries) (splitViewGroups entries) decisions) = "a
b".
Proof.
  intros decisions entries.
  assert (splitViewGroups entries = [mkGroup 0 removed [1]; mkGroup 1 added [2]]) as Hg
    by (by vm_compute).
  apply (merge_keeping_original "a
b" "a
c" decisions); [|by vm_compute].
  fold entries. rewrite Hg. intros g Hin.
  apply elem_of_cons in Hin as [->|Hin]; [done|].
  apply list_elem_of_singleton in Hin as ->. done.
Defined.

End MergeOriginal.

(** ** Escaping for HTML *)

Module EscapingFacts.
Import Escaping.
Import InlineFacts.

Lemma replaceAll_app c by_ s1 s2 :
  replaceAll c by_ (s1 +:+ s2) = replaceAll c by_ s1 +:+ replaceAll c by_ s2.
Proof.
  induction s1 as [|x s1 IH]; [done|].
  change (String x s1 +:+ s2) with (String x (s1 +:+ s2)). cbn [replaceAll].
  rewrite IH. destruct (Ascii.eqb x c); [by rewrite append_assoc|done].
Qed.

Lemma escapeHtml_app s1 s2 : escapeHtml (s1 +:+ s2) = escapeHtml s1 +:+ escapeHtml s2.
Proof. unfold escapeHtml. by rewrite !replaceAll_app. Qed.

Lemma escapeHtml_char c : escapeHtml (String c "") = escapeChar c.
Proof.
  unfold escapeChar.
  destruct (Ascii.eqb c "&") eqn:H1; [by apply Ascii.eqb_eq in H1 as ->|].
  destruct (Ascii.eqb c "<") eqn:H2; [by apply Ascii.eqb_eq in H2 as ->|].
  destruct (Ascii.eqb c ">") eqn:H3; [by apply Ascii.eqb_eq in H3 as ->|].
  destruct (Ascii.eqb c dquote) eqn:H4; [by apply Ascii.eqb_eq in H4 as ->|].
  destruct (Ascii.eqb c "'") eqn:H5; [by apply Ascii.eqb_eq in H5 as ->|].
  unfold escapeHtml. cbn [replaceAll]. rewrite H1. cbn [replaceAll]. rewrite H2.
  cbn [replaceAll]. rewrite H3. cbn [replaceAll]. rewrite H4. cbn [replaceAll].
  by rewrite H5.
Qed.

Lemma escapeHtml_each str : escapeHtml str = escapeEach str.
Proof.
  induction str as [|c str IH]; [done|].
  change (String c str) with (String c "" +:+ str).
  rewrite escapeHtml_app, escapeHtml_char, IH. done.
Qed.

Lemma escapeChar_safe c x :
  x ∈ chars (escapeChar c) ->
  x <> "<"%char /\ x <> ">"%char /\ x <> dquote /\ x <> "'"%char /\
  (x = "&"%char -> c = "&"%char \/ c = "<"%char \/ c = ">"%char \/ c = dquote \/
                   c = "'"%char).
Proof.
  unfold escapeChar.
  destruct (Ascii.eqb c "&") eqn:H1.
  { apply Ascii.eqb_eq in H1 as ->. cbn. rewrite !elem_of_cons, elem_of_nil.
    intros H. repeat destruct H as [->|H]; try done; repeat split; try done; auto. }
  destruct (Ascii.eqb c "<") eqn:H2.
  { apply Ascii.eqb_eq in H2 as ->. cbn. rewrite !elem_of_cons, elem_of_nil.
    intros H. repeat destruct H as [->|H]; try done; repeat split; try done; auto. }
  destruct (Ascii.eqb c ">") eqn:H3.
  { apply Ascii.eqb_eq in H3 as ->. cbn. rewrite !elem_of_cons, elem_of_nil.
    intros H. repeat destruct H as [->|H]; try done; repeat split; try done; auto. }
  destruct (Ascii.eqb c dquote) eqn:H4.
  { apply Ascii.eqb_eq in H4 as ->. cbn. rewrite !elem_of_cons, elem_of_nil.
    intros H. repeat destruct H as [->|H]; try done; repeat split; try done; auto. }
  destruct (Ascii.eqb c "'") eqn:H5.
  { apply Ascii.eqb_eq in H5 as ->. cbn. rewrite !elem_of_cons, elem_of_nil.
    intros H. repeat destruct H as [->|H]; try done; repeat split; try done; auto. }
  cbn. intros Hx. apply list_elem_of_singleton in Hx as ->.
  apply Ascii.eqb_neq in H1, H2, H3, H4, H5. done.
Qed.

(** X30. The five replacements of [escapeHtml], made one after the
    other, escape every character exactly once: the result is the
    string escaped character by character, so no entity that an earlier
    replacement wrote is escaped again by a later one. The result holds
    no [<], no [>] and no quote, and escaping distributes over
    concatenation. *)
Theorem escapeHtml_escapes_each_character_once :
  (forall str, escapeHtml str = escapeEach str) /\
  (forall s1 s2, escapeHtml (s1 +:+ s2) = escapeHtml s1 +:+ escapeHtml s2) /\
  (forall str x, x ∈ chars (escapeHtml str) ->
     x <> "<"%char /\ x <> ">"%char /\ x <> dquote /\ x <> "'"%char).
Proof.
  split; [apply escapeHtml_each|]. split; [apply escapeHtml_app|].
  intros str x. rewrite escapeHtml_each.
  induction str as [|c str IH]; [by intros H; apply elem_of_nil in H|].
  cbn [escapeEach]. rewrite chars_app, elem_of_app. intros [Hx|Hx]; [|by apply IH].
  apply escapeChar_safe in Hx. tauto.
Qed.

End EscapingFacts.

(** ** The concrete scenarios of the design, run on the embedding *)

Module Scenarios.
Import Similarity Detector.

Example scenario_unrelated_lines :
  computeDiffLines ["a"; "b"; "c"] ["a"; "x"; "c"] =
  [mkEntry unchanged (Some 1) (Some 1) (Some "a") (Some "a") None;
   mkEntry removed (Some 2) None (Some "b") None None;
   mkEntry added None (Some 2) None (Some "x") None;
   mkEntry unchanged (Some 3) (Some 3) (Some "c") (Some "c") None].
Proof. vm_compute. reflexivity. Qed.

Example scenario_same_property :
  computeDiffLines ["color: red;"] ["color: blue;"] =
  [mkEntry modified (Some 1) (Some 1) (Some "color: red;") (Some "color: blue;")
           (Some (8 # 12))].
Proof. vm_compute. reflexivity. Qed.

Example scenario_json :
  let old := JsonDiff.JObject [("a", JsonDiff.JNumber 1); ("b", JsonDiff.JNumber 2)] in
  let new := JsonDiff.JObject [("a", JsonDiff.JNumber 1); ("b", JsonDiff.JNumber 3);
                               ("c", JsonDiff.JNumber 4)] in
  (fun t => (JsonDiff.type t,
             (fun c => (JsonDiff.path c, JsonDiff.type c)) <$> default [] (JsonDiff.children t)))
    <$> JsonDiff.compareJSON (Some old) (Some new) "" =
  Some (modified, [("a", unchanged); ("b", modified); ("c", added)]).
Proof. vm_compute. reflexivity. Qed.

Example scenario_removed_by_default :
  let diff :=
    [mkEntry unchanged (Some 1) (Some 1) (Some "a") (Some "a") None;
     mkEntry removed (Some 2) None (Some "b") None None] in
  Reconciler.generateMergedCSS
    (Reconciler.mkState (Some diff) [Reconciler.mkGroup 0 removed [1]] ∅) = "a".
Proof. vm_compute. reflexivity. Qed.

End Scenarios.
